(** * Client metrics: registry, delta encoder and exposition format

    A shallow embedding of [util/clientmetric/clientmetric.go] and the
    properties of its registry and of the logtail delta protocol.

    Conventions of the embedding:
    - [int64] and [int] (taken as 64 bits wide) are [Z] with the wrap-around
      written out ([Int64.wrap]);
    - a [*Metric] is an index into a store of [Metric] records ([heap]), so
      that the registry map, the sorted cache and the callers' handles alias
      the same object as they do in Go;
    - the package-level variables and the store form one [State], threaded by
      a state-and-panic monad [M];
    - [time.Now()] and the order in which Go ranges over a map are inputs of
      the operations that use them. *)

From Stdlib Require Import ZArith Lia Bool List Ascii String.
From Stdlib Require Import Sorting.Sorted Sorting.Permutation.
From stdpp Require Import base option list sorting strings gmap pretty.

Local Open Scope string_scope.
Local Open Scope Z_scope.
Local Open Scope list_scope.

(** ** Machine integers *)

Module Int64.
Definition min_int : Z := - 2 ^ 63.
Definition max_int : Z := 2 ^ 63 - 1.

(** Membership in the range of a signed 64-bit integer. *)
Definition in_range (z : Z) : Prop := min_int <= z <= max_int.

(** Two's complement wrap-around of a signed 64-bit result. *)
Definition wrap (z : Z) : Z := (z + 2 ^ 63) mod 2 ^ 64 - 2 ^ 63.

Definition add (a b : Z) : Z := wrap (a + b).
Definition sub (a b : Z) : Z := wrap (a - b).

(** [uint64(x)] for an [int64] x. *)
Definition to_uint64 (x : Z) : Z := x mod 2 ^ 64.

(** [x << 1] and [^x] on [uint64]. *)
Definition shl1_u64 (x : Z) : Z := Z.shiftl x 1 mod 2 ^ 64.
Definition not_u64 (x : Z) : Z := Z.lxor x (2 ^ 64 - 1).
End Int64.

(** ** [time.Time] and [time.Duration]

    An instant is the number of nanoseconds since the zero instant of
    [time.Time] (January 1, year 1, 00:00:00 UTC); a [Duration] is an [int64]
    count of nanoseconds. [Time.Sub] saturates at the ends of the [Duration]
    range, as the Go library documents. The wall and the monotonic reading
    of a [time.Time] are not told apart: the difference of two readings of
    [time.Now()] is the difference of the instants. *)

Module Time.
Abbreviation Time := Z (only parsing).
Abbreviation Duration := Z (only parsing).

Definition zero : Time := 0.

Definition IsZero (t : Time) : bool := t =? 0.

Definition minDuration : Duration := Int64.min_int.
Definition maxDuration : Duration := Int64.max_int.

Definition Sub (t u : Time) : Duration :=
  if t - u <? minDuration then minDuration
  else if maxDuration <? t - u then maxDuration
  else t - u.

Definition Nanosecond : Duration := 1.
Definition Microsecond : Duration := 1000 * Nanosecond.
Definition Millisecond : Duration := 1000 * Microsecond.
Definition Second : Duration := 1000 * Millisecond.
Definition Minute : Duration := 60 * Second.
Definition Hour : Duration := 60 * Minute.
End Time.

(** ** [encoding/binary] varints and [encoding/hex] *)

Module Binary.
Definition MaxVarintLen64 : nat := 10.

Definition byte (x : Z) : Z := x mod 256.

(** [PutUvarint(buf, x)]: the loop

      for x >= 0x80 { buf[i] = byte(x) | 0x80; x >>= 7; i++ }
      buf[i] = byte(x); return i + 1

    by recursion on [buf[i:]]. The result is the buffer after the writes
    and the number of bytes written; [None] is the index-out-of-range panic
    of a buffer that is too short. *)
Fixpoint PutUvarint (buf : list Z) (x : Z) : option (list Z * Z) :=
  match buf with
  | [] => None
  | _ :: rest =>
      if 128 <=? x then
        match PutUvarint rest (Z.shiftr x 7) with
        | Some (rest', n) => Some (Z.lor (byte x) 128 :: rest', n + 1)
        | None => None
        end
      else Some (byte x :: rest, 1)
  end.

(** [PutVarint(buf, x)]: zig-zag, then [PutUvarint]. *)
Definition PutVarint (buf : list Z) (x : Z) : option (list Z * Z) :=
  let ux := Int64.shl1_u64 (Int64.to_uint64 x) in
  let ux := if x <? 0 then Int64.not_u64 ux else ux in
  PutUvarint buf ux.
End Binary.

Module Hex.
Definition hextable : string := "0123456789abcdef".

(** [hextable[i]]; every index the encoder uses is below 16. *)
Definition at_ (i : Z) : ascii :=
  match String.get (Z.to_nat i) hextable with
  | Some c => c
  | None => "0"%char
  end.

(** [hex.Encode(dst, src)], returning the [len(src) * 2] bytes written. *)
Fixpoint Encode (src : list Z) : string :=
  match src with
  | [] => ""
  | v :: src' =>
      String (at_ (Z.shiftr v 4)) (String (at_ (Z.land v 15)) (Encode src'))
  end.
End Hex.

(** ** Data model *)

(** [Type] is a metric type: counter or gauge. The Go type is a [uint8], of
    which the package declares the two values [TypeGauge] and [TypeCounter]
    ([iota]); [NewUnpublished] takes any value of the type. *)
Definition Type_ : Type := Z.

Definition TypeGauge : Type_ := 0.
Definition TypeCounter : Type_ := 1.

(** A [*Metric]. *)
Abbreviation loc := nat (only parsing).

Record Metric : Type := mkMetric {
  v : Z;                    (* atomic; the metric value *)
  name : string;
  typ : Type_;
  wireID : Z;               (* zero until named *)
  lastNamed : Time.Time;
  lastLogVal : Z
}.

Definition set_v (x : Z) (m : Metric) : Metric :=
  mkMetric x (name m) (typ m) (wireID m) (lastNamed m) (lastLogVal m).
Definition set_wireID (x : Z) (m : Metric) : Metric :=
  mkMetric (v m) (name m) (typ m) x (lastNamed m) (lastLogVal m).
Definition set_lastNamed (t : Time.Time) (m : Metric) : Metric :=
  mkMetric (v m) (name m) (typ m) (wireID m) t (lastLogVal m).
Definition set_lastLogVal (x : Z) (m : Metric) : Metric :=
  mkMetric (v m) (name m) (typ m) (wireID m) (lastNamed m) x.

(** The zero value of [Metric], also what a handle outside the store reads. *)
Definition zeroMetric : Metric := mkMetric 0 "" TypeGauge 0 Time.zero 0.

(** [deltaEncBuf]. *)
Record deltaEncBuf : Type := mkEnc {
  buf : string;
  scratch : list Z          (* [binary.MaxVarintLen64]byte *)
}.

Definition newDeltaEncBuf : deltaEncBuf :=
  mkEnc "" (replicate Binary.MaxVarintLen64 0).

(** The package-level variables, the store of [Metric] objects and the
    contents of [deltaPool]. A [sync.Pool] may also drop what was put in it;
    the model keeps the buffers, last in first out, and the theorems do not
    depend on which buffer [Get] returns. *)
Record State : Type := mkState {
  heap : list Metric;
  metrics : gmap string loc;
  numWireID : Z;            (* how many wireIDs have been allocated *)
  lastDelta : Time.Time;    (* time of last call to EncodeLogTailMetricsDelta *)
  sortedDirty : bool;       (* whether sorted needs to be rebuilt *)
  sorted : list loc;        (* by name *)
  deltaPool : list deltaEncBuf
}.

Definition set_heap (h : list Metric) (st : State) : State :=
  mkState h (metrics st) (numWireID st) (lastDelta st) (sortedDirty st)
    (sorted st) (deltaPool st).
Definition set_metrics (ms : gmap string loc) (st : State) : State :=
  mkState (heap st) ms (numWireID st) (lastDelta st) (sortedDirty st)
    (sorted st) (deltaPool st).
Definition set_numWireID (n : Z) (st : State) : State :=
  mkState (heap st) (metrics st) n (lastDelta st) (sortedDirty st)
    (sorted st) (deltaPool st).
Definition set_lastDelta (t : Time.Time) (st : State) : State :=
  mkState (heap st) (metrics st) (numWireID st) t (sortedDirty st)
    (sorted st) (deltaPool st).
Definition set_sortedDirty (b : bool) (st : State) : State :=
  mkState (heap st) (metrics st) (numWireID st) (lastDelta st) b
    (sorted st) (deltaPool st).
Definition set_sorted (l : list loc) (st : State) : State :=
  mkState (heap st) (metrics st) (numWireID st) (lastDelta st) (sortedDirty st)
    l (deltaPool st).
Definition set_deltaPool (p : list deltaEncBuf) (st : State) : State :=
  mkState (heap st) (metrics st) (numWireID st) (lastDelta st) (sortedDirty st)
    (sorted st) p.

(** The state at process start. *)
Definition initial : State := mkState [] ∅ 0 Time.zero false [] [].

(** Reading through a [*Metric]. *)
Definition deref (st : State) (m : loc) : Metric :=
  default zeroMetric (heap st !! m).

(** ** Panics and the monad of the package's operations *)

Inductive panic : Type :=
| PanicUnnamed                                  (* "unnamed Metric" *)
| PanicDuplicate (name : string)                (* "duplicate metric " + name *)
| PanicIllegalName (name : string) (i : Z)      (* "illegal metric name %q (index %v)" *)
| PanicIndexOutOfRange.                         (* runtime error *)

Inductive result (A : Type) : Type :=
| Ok (a : A)
| Panic (p : panic).
Arguments Ok {A} a.
Arguments Panic {A} p.

(** A computation sees the state, returns or panics, and leaves a state; the
    state left by a panic is the one reached when it was raised. *)
Definition M (A : Type) : Type := State → result A * State.

Definition ret {A} (a : A) : M A := λ st, (Ok a, st).

Definition bind {A B} (c : M A) (k : A → M B) : M B :=
  λ st, match c st with
        | (Ok a, st') => k a st'
        | (Panic p, st') => (Panic p, st')
        end.

Definition raise {A} (p : panic) : M A := λ st, (Panic p, st).
Definition gets {A} (f : State → A) : M A := λ st, (Ok (f st), st).
Definition modify (f : State → State) : M unit := λ st, (Ok tt, f st).

(** Lifting a buffer operation that can only fail by indexing out of range. *)
Definition liftBuf {A} (o : option A) : M A :=
  match o with
  | Some a => ret a
  | None => raise PanicIndexOutOfRange
  end.

Declare Scope go_scope.
Delimit Scope go_scope with go.
Notation "x <~ c ;; k" := (bind c (λ x, k))
  (at level 100, c at next level, right associativity) : go_scope.
Notation "c ;;; k" := (bind c (λ _, k))
  (at level 100, right associativity) : go_scope.
Local Open Scope go_scope.

(** [forRange l body acc]: a [for ... range] loop over [l] that carries the
    local variable [acc]. *)
Fixpoint forRange {A B} (l : list A) (body : B → A → M B) (acc : B) : M B :=
  match l with
  | [] => ret acc
  | x :: l' => acc' <~ body acc x ;; forRange l' body acc'
  end.

(** Updating the object a [*Metric] points to. *)
Definition update (m : loc) (f : Metric → Metric) : M unit :=
  modify (λ st, set_heap (alter f m (heap st)) st).

(** [&Metric{...}]: a new object in the store. *)
Definition alloc (mt : Metric) : M loc :=
  λ st, (Ok (length (heap st)), set_heap (heap st ++ [mt]) st).

(** ** Metric methods *)

Definition Name (m : loc) : M string := gets (λ st, name (deref st m)).
Definition Value (m : loc) : M Z := gets (λ st, v (deref st m)).
Definition Type' (m : loc) : M Type_ := gets (λ st, typ (deref st m)).

(** [Add] increments m's value by n ([atomic.AddInt64]). *)
Definition Add (m : loc) (n : Z) : M unit :=
  update m (λ mt, set_v (Int64.add (v mt) n) mt).

(** [Set] sets m's value ([atomic.StoreInt64]). *)
Definition Set' (m : loc) (x : Z) : M unit :=
  update m (set_v x).

(** ** Registration *)

(** [Publish] registers a metric in the global map. *)
Definition Publish (m : loc) : M unit :=
  nm <~ gets (λ st, name (deref st m)) ;;
  if String.eqb nm "" then raise PanicUnnamed
  else
    dup <~ gets (λ st, metrics st !! nm) ;;
    match dup with
    | Some _ => raise (PanicDuplicate nm)
    | None =>
        modify (λ st, set_metrics (<[nm := m]> (metrics st)) st) ;;;
        modify (set_sortedDirty true)
    end.

Definition isIllegalMetricRune (r : Z) : bool :=
  negb ((97 <=? r) && (r <=? 122)        (* 'a' .. 'z' *)
        || (65 <=? r) && (r <=? 90)      (* 'A' .. 'Z' *)
        || (48 <=? r) && (r <=? 57)      (* '0' .. '9' *)
        || (r =? 95)).                   (* '_' *)

Definition RuneError : Z := 65533.

(** The rune that starts at a byte: the byte itself below [utf8.RuneSelf];
    from there on a multi-byte code point, which is at least 128, or
    [utf8.RuneError]. [isIllegalMetricRune] holds of all of those alike, and
    the scan of [IndexFunc] stops at the first of them, so the model reads it
    as [RuneError]. *)
Definition runeAt (c : ascii) : Z :=
  let b := Z.of_N (N_of_ascii c) in
  if b <? 128 then b else RuneError.

(** [strings.IndexFunc(s, f)] from byte offset [i]: the index of the first
    rune that satisfies [f], or -1. *)
Fixpoint indexFuncFrom (i : Z) (s : string) (f : Z → bool) : Z :=
  match s with
  | EmptyString => -1
  | String c s' => if f (runeAt c) then i else indexFuncFrom (i + 1) s' f
  end.

Definition IndexFunc (s : string) (f : Z → bool) : Z := indexFuncFrom 0 s f.

(** [NewUnpublished] initializes a new Metric without calling Publish on it. *)
Definition NewUnpublished (nm : string) (ty : Type_) : M loc :=
  let i := IndexFunc nm isIllegalMetricRune in
  if String.eqb nm "" || negb (i =? -1) then raise (PanicIllegalName nm i)
  else alloc (mkMetric 0 nm ty 0 Time.zero 0).

Definition NewCounter (nm : string) : M loc :=
  m <~ NewUnpublished nm TypeCounter ;;
  Publish m ;;;
  ret m.

Definition NewGauge (nm : string) : M loc :=
  m <~ NewUnpublished nm TypeGauge ;;
  Publish m ;;;
  ret m.

(** ** The sorted view *)

(** [sort.Slice(s, less)], as an insertion sort. The registry's names are
    pairwise distinct, so [less] is a strict total order on the slice and
    every sorting algorithm returns the same slice (see
    [sorted_by_name_unique]). *)
Fixpoint insertBy {A} (less : A → A → bool) (x : A) (l : list A) : list A :=
  match l with
  | [] => [x]
  | y :: l' => if less x y then x :: l else y :: insertBy less x l'
  end.

Definition sortSlice {A} (less : A → A → bool) (l : list A) : list A :=
  foldr (insertBy less) [] l.

(** [sorted[i].name < sorted[j].name] *)
Definition lessByName (st : State) (a b : loc) : bool :=
  String.ltb (name (deref st a)) (name (deref st b)).

(** [Metrics] returns the sorted list of metrics. [order] is the order in
    which [range metrics] yields the entries of the map. *)
Definition Metrics (order : list (string * loc)) : M (list loc) :=
  dirty <~ gets sortedDirty ;;
  (if dirty then
     modify (set_sortedDirty false) ;;;
     modify (set_sorted []) ;;;
     forRange order
       (λ _ km, modify (λ st, set_sorted (sorted st ++ [km.2]) st)) tt ;;;
     modify (λ st, set_sorted (sortSlice (lessByName st) (sorted st)) st)
   else ret tt) ;;;
  gets sorted.

(** ** Prometheus exposition format *)

Definition newline : string := String "010"%char "".

(** [WritePrometheusExpositionFormat(w)]; the writer is the text written to
    it so far, and the result is that text after the call. *)
Definition WritePrometheusExpositionFormat
    (order : list (string * loc)) (w : string) : M string :=
  ms <~ Metrics order ;;
  forRange ms
    (λ w m,
       ty <~ Type' m ;;
       nm <~ Name m ;;
       let w := if ty =? TypeGauge
                then w +:+ "# TYPE " +:+ nm +:+ " gauge" +:+ newline
                else if ty =? TypeCounter
                then w +:+ "# TYPE " +:+ nm +:+ " counter" +:+ newline
                else w in
       nm <~ Name m ;;
       val <~ Value m ;;
       ret (w +:+ nm +:+ " " +:+ pretty val +:+ newline))
    w.

(** ** The delta encoder *)

Definition metricLogNameFrequency : Time.Duration := 4 * Time.Hour.
Definition minMetricEncodeInterval : Time.Duration := 15 * Time.Second.

(** [writeHexVarint] writes x to the buffer as a hex-encoded varint. *)
Definition writeHexVarint (b : deltaEncBuf) (x : Z) : option deltaEncBuf :=
  match Binary.PutVarint (scratch b) x with
  | None => None
  | Some (scratch', n) =>
      let hexBuf := Hex.Encode (take (Z.to_nat n) scratch') in
      Some (mkEnc (buf b +:+ hexBuf) scratch')
  end.

Definition WriteByte (c : ascii) (b : deltaEncBuf) : deltaEncBuf :=
  mkEnc (buf b +:+ String c "") (scratch b).

Definition WriteString (s : string) (b : deltaEncBuf) : deltaEncBuf :=
  mkEnc (buf b +:+ s) (scratch b).

(** [writeName] writes a "name" (N) record to the buffer. *)
Definition writeName (b : deltaEncBuf) (nm : string) : option deltaEncBuf :=
  let b := WriteByte "N" b in
  b ← writeHexVarint b (Z.of_nat (String.length nm));
  Some (WriteString nm b).

(** [writeValue] writes a "set" (S) record to the buffer. *)
Definition writeValue (b : deltaEncBuf) (wid : Z) (x : Z) : option deltaEncBuf :=
  let b := WriteByte "S" b in
  b ← writeHexVarint b wid;
  writeHexVarint b x.

(** [writeDelta] writes an "increment" (I) record to the buffer. *)
Definition writeDelta (b : deltaEncBuf) (wid : Z) (x : Z) : option deltaEncBuf :=
  let b := WriteByte "I" b in
  b ← writeHexVarint b wid;
  writeHexVarint b x.

(** [deltaPool.Get()]: a buffer that was put back, or a new one. *)
Definition poolGet : M deltaEncBuf :=
  λ st, match deltaPool st with
        | e :: p => (Ok e, set_deltaPool p st)
        | [] => (Ok newDeltaEncBuf, st)
        end.

Definition poolPut (e : deltaEncBuf) : M unit :=
  modify (λ st, set_deltaPool (e :: deltaPool st) st).

(** [enc.buf.Reset()] *)
Definition Reset (e : deltaEncBuf) : deltaEncBuf := mkEnc "" (scratch e).

(** [if enc == nil]: take a buffer from [deltaPool] and reset its text. *)
Definition lazyBuf (enc : option deltaEncBuf) : M deltaEncBuf :=
  match enc with
  | None => e <~ poolGet ;; ret (Reset e)
  | Some e => ret e
  end.

(** The loop body from [m.lastLogVal = val] on, reached when [delta] is not
    zero; [e] is the buffer. *)
Definition encodeChanged (now : Time.Time) (m : loc) (val delta : Z)
    (e : deltaEncBuf) : M (option deltaEncBuf) :=
  update m (set_lastLogVal val) ;;;
  wid <~ gets (λ st, wireID (deref st m)) ;;
  (if wid =? 0 then
     modify (λ st, set_numWireID (Int64.add (numWireID st) 1) st) ;;;
     n <~ gets numWireID ;;
     update m (set_wireID n)
   else ret tt) ;;;
  named <~ gets (λ st, lastNamed (deref st m)) ;;
  if Time.IsZero named || (Time.Sub now named >? metricLogNameFrequency) then
    nm <~ Name m ;;
    e <~ liftBuf (writeName e nm) ;;
    update m (set_lastNamed now) ;;;
    wid <~ gets (λ st, wireID (deref st m)) ;;
    e <~ liftBuf (writeValue e wid val) ;;
    ret (Some e)
  else
    wid <~ gets (λ st, wireID (deref st m)) ;;
    e <~ liftBuf (writeDelta e wid delta) ;;
    ret (Some e).

(** The body of the loop over [metrics], for the entry [km]; [enc] is the
    lazily taken buffer. *)
Definition encodeMetric (now : Time.Time) (enc : option deltaEncBuf)
    (km : string * loc) : M (option deltaEncBuf) :=
  let m := km.2 in
  val <~ Value m ;;
  last <~ gets (λ st, lastLogVal (deref st m)) ;;
  let delta := Int64.sub val last in
  if delta =? 0 then ret enc
  else
    e <~ lazyBuf enc ;;
    encodeChanged now m val delta e.

(** The scan of [EncodeLogTailMetricsDelta]: the loop over [metrics] and the
    return of the text; the deferred [deltaPool.Put] runs once the result
    string is built. *)
Definition scanMetrics (now : Time.Time) (order : list (string * loc))
    : M string :=
  enc <~ forRange order (encodeMetric now) None ;;
  match enc with
  | None => ret ""
  | Some e =>
      let s := buf e in
      poolPut e ;;;
      ret s
  end.

(** [EncodeLogTailMetricsDelta] returns an encoded string representing the
    metrics differences since the previous call. [now] is the reading of
    [time.Now()] and [order] the order of [range metrics]. *)
Definition EncodeLogTailMetricsDelta (now : Time.Time)
    (order : list (string * loc)) : M string :=
  last <~ gets lastDelta ;;
  if negb (Time.IsZero last) && (Time.Sub now last <? minMetricEncodeInterval)
  then ret ""
  else
    modify (set_lastDelta now) ;;;
    scanMetrics now order.

(** ** The wire format, in the words of its description

    The definitions of this module follow the description of the format
    ('N' + hex(varint(len(name))) + name, 'S' + hex(varint(wireid)) +
    hex(varint(value)), 'I' + hex(varint(wireid)) + hex(varint(value))), not
    the encoder; the theorems below compare the two. *)

Module Wire.
(** Zig-zag: 0, -1, 1, -2, 2, ... are sent as 0, 1, 2, 3, 4, ... *)
Definition zigzag (x : Z) : Z := if 0 <=? x then 2 * x else - 2 * x - 1.

Definition unzigzag (u : Z) : Z := if Z.even u then u / 2 else - ((u + 1) / 2).

(** Base 128, least significant group first, the high bit of a byte saying
    that another byte follows; [n] bounds the number of bytes. *)
Fixpoint base128 (n : nat) (u : Z) : list Z :=
  match n with
  | O => []
  | S n' => if u <? 128 then [u] else (u mod 128 + 128) :: base128 n' (u / 128)
  end.

(** The signed varint of a 64-bit integer: at most ten bytes. *)
Definition varint (x : Z) : list Z := base128 10 (zigzag x).

(** The lowercase hexadecimal digit of a value below 16. *)
Definition hexDigit (d : Z) : ascii :=
  ascii_of_N (Z.to_N (if d <? 10 then 48 + d else 87 + d)).

Definition isLowerHex (c : ascii) : bool :=
  let n := Z.of_N (N_of_ascii c) in
  (48 <=? n) && (n <=? 57) || (97 <=? n) && (n <=? 102).

Fixpoint hexBytes (l : list Z) : string :=
  match l with
  | [] => ""
  | b :: l' => String (hexDigit (b / 16)) (String (hexDigit (b mod 16)) (hexBytes l'))
  end.

Definition hexVarint (x : Z) : string := hexBytes (varint x).

Inductive record : Type :=
| NameRec (nm : string)
| ValueRec (wid : Z) (x : Z)
| IncRec (wid : Z) (d : Z).

Definition render (r : record) : string :=
  match r with
  | NameRec nm => "N" +:+ hexVarint (Z.of_nat (String.length nm)) +:+ nm
  | ValueRec wid x => "S" +:+ hexVarint wid +:+ hexVarint x
  | IncRec wid d => "I" +:+ hexVarint wid +:+ hexVarint d
  end.

Fixpoint renderAll (rs : list record) : string :=
  match rs with
  | [] => ""
  | r :: rs' => render r +:+ renderAll rs'
  end.

(** *** Reading a frame back *)

Definition unhexDigit (c : ascii) : option Z :=
  let n := Z.of_N (N_of_ascii c) in
  if (48 <=? n) && (n <=? 57) then Some (n - 48)
  else if (97 <=? n) && (n <=? 102) then Some (n - 87)
  else None.

(** A base-128 number in hexadecimal, and what follows it. *)
Fixpoint readUvarint (s : string) : option (Z * string) :=
  match s with
  | String c1 (String c2 rest) =>
      match unhexDigit c1, unhexDigit c2 with
      | Some hi, Some lo =>
          let b := 16 * hi + lo in
          if b <? 128 then Some (b, rest)
          else match readUvarint rest with
               | Some (u, rest') => Some (b - 128 + 128 * u, rest')
               | None => None
               end
      | _, _ => None
      end
  | _ => None
  end.

Definition readVarint (s : string) : option (Z * string) :=
  match readUvarint s with
  | Some (u, rest) => Some (unzigzag u, rest)
  | None => None
  end.

(** The first [n] bytes of [s] and the rest, when [s] has that many. *)
Fixpoint splitAt (n : nat) (s : string) : option (string * string) :=
  match n, s with
  | O, _ => Some ("", s)
  | S n', String c s' =>
      match splitAt n' s' with
      | Some (a, b) => Some (String c a, b)
      | None => None
      end
  | S _, EmptyString => None
  end.

Definition readRecord (s : string) : option (record * string) :=
  match s with
  | String "N" s1 =>
      '(len, s2) ← readVarint s1;
      if len <? 0 then None
      else '(nm, s3) ← splitAt (Z.to_nat len) s2; Some (NameRec nm, s3)
  | String "S" s1 =>
      '(wid, s2) ← readVarint s1;
      '(x, s3) ← readVarint s2;
      Some (ValueRec wid x, s3)
  | String "I" s1 =>
      '(wid, s2) ← readVarint s1;
      '(d, s3) ← readVarint s2;
      Some (IncRec wid d, s3)
  | _ => None
  end.

(** Records are read one after the other until the input is exhausted;
    [fuel] bounds their number. *)
Fixpoint readFrame (fuel : nat) (s : string) : option (list record) :=
  match s with
  | EmptyString => Some []
  | _ =>
      match fuel with
      | O => None
      | S fuel' =>
          '(r, rest) ← readRecord s;
          rs ← readFrame fuel' rest;
          Some (r :: rs)
      end
  end.

(** A frame of [n] bytes holds fewer than [n + 1] records. *)
Definition decode (s : string) : option (list record) :=
  readFrame (String.length s) s.

(** *** The consumer's view: names and values by wireID *)

Record Consumer : Type := mkConsumer {
  pendingName : option string;      (* a name record awaiting its value record *)
  names : gmap Z string;
  values : gmap Z Z
}.

Definition emptyConsumer : Consumer := mkConsumer None ∅ ∅.

Definition apply (c : Consumer) (r : record) : Consumer :=
  match r with
  | NameRec nm => mkConsumer (Some nm) (names c) (values c)
  | ValueRec wid x =>
      mkConsumer None
        (match pendingName c with
         | Some nm => <[wid := nm]> (names c)
         | None => names c
         end)
        (<[wid := x]> (values c))
  | IncRec wid d =>
      mkConsumer None (names c)
        (<[wid := Int64.add (default 0 (values c !! wid)) d]> (values c))
  end.

Definition applyAll (c : Consumer) (rs : list record) : Consumer :=
  foldl apply c rs.

(** The effect of a frame on the consumer; a frame that does not parse has
    none. *)
Definition consume (c : Consumer) (frame : string) : option Consumer :=
  applyAll c <$> decode frame.
End Wire.

(** ** Names, invariants and reachable states *)

(** A byte of the set [A-Za-z0-9_]. *)
Definition isNameChar (c : ascii) : bool :=
  let b := Z.of_N (N_of_ascii c) in
  (97 <=? b) && (b <=? 122) || (65 <=? b) && (b <=? 90)
  || (48 <=? b) && (b <=? 57) || (b =? 95).

Fixpoint allNameChars (s : string) : bool :=
  match s with
  | EmptyString => true
  | String c s' => isNameChar c && allNameChars s'
  end.

(** A name that matches [[A-Za-z0-9_]+]. *)
Definition validName (nm : string) : bool :=
  negb (String.eqb nm "") && allNameChars nm.

(** Control characters: below U+0020, and DEL. *)
Definition isControl (c : ascii) : bool :=
  let b := Z.of_N (N_of_ascii c) in (b <? 32) || (b =? 127).

(** The alphabet of a frame, and the bytes that a JSON string literal takes
    without escaping: all but the double quote (34), the backslash (92) and
    the control characters. *)
Definition isFrameChar (c : ascii) : bool :=
  Ascii.eqb c "N" || Ascii.eqb c "S" || Ascii.eqb c "I"
  || Wire.isLowerHex c || isNameChar c.

Definition isJSONSafe (c : ascii) : bool :=
  negb (Ascii.eqb c "034" || Ascii.eqb c "092" || isControl c).

Fixpoint allChars (p : ascii → bool) (s : string) : bool :=
  match s with
  | EmptyString => true
  | String c s' => p c && allChars p s'
  end.

(** How many objects of the store have a wireID. *)
Fixpoint assigned (h : list Metric) : Z :=
  match h with
  | [] => 0
  | mt :: h' => (if wireID mt =? 0 then 0 else 1) + assigned h'
  end.

(** The pointers held by the registry map. *)
Definition registered (st : State) : list loc := (map_to_list (metrics st)).*2.

(** [order] is an order in which [range metrics] can yield the map. *)
Definition rangeOrder (st : State) (order : list (string * loc)) : Prop :=
  order ≡ₚ map_to_list (metrics st).

(** Ascending by name. *)
Definition nameLt (st : State) (a b : loc) : Prop :=
  String.ltb (name (deref st a)) (name (deref st b)) = true.

Definition sortedByName (st : State) (l : list loc) : Prop :=
  StronglySorted (nameLt st) l.

(** What holds of every state the package can be in. The bound on the size
    of the store stands for the finiteness of memory: a Go program cannot
    hold [2^63] objects, nor a string that long. *)
Record Inv (st : State) : Prop := mkInv {
  inv_registered :
    ∀ k m, metrics st !! k = Some m →
           ∃ mt, heap st !! m = Some mt ∧ name mt = k;
  inv_names :
    ∀ m mt, heap st !! m = Some mt →
            validName (name mt) = true
            ∧ Z.of_nat (String.length (name mt)) <= Int64.max_int;
  inv_values :
    ∀ m mt, heap st !! m = Some mt →
            Int64.in_range (v mt) ∧ Int64.in_range (lastLogVal mt);
  inv_wire_range :
    ∀ m mt, heap st !! m = Some mt → 0 <= wireID mt <= numWireID st;
  inv_wire_inj :
    ∀ m1 m2 mt1 mt2,
      heap st !! m1 = Some mt1 → heap st !! m2 = Some mt2 →
      wireID mt1 ≠ 0 → wireID mt1 = wireID mt2 → m1 = m2;
  inv_wire_count : numWireID st = assigned (heap st);
  inv_heap_size : Z.of_nat (length (heap st)) <= Int64.max_int;
  inv_pool :
    Forall (λ e, length (scratch e) = Binary.MaxVarintLen64) (deltaPool st);
  inv_sorted :
    sortedDirty st = false →
    sorted st ≡ₚ registered st ∧ sortedByName st (sorted st)
}.

(** The calls of the package's API. *)
Inductive call : Type :=
| CallNewUnpublished (nm : string) (ty : Type_)
| CallPublish (m : loc)
| CallNewCounter (nm : string)
| CallNewGauge (nm : string)
| CallAdd (m : loc) (n : Z)
| CallSet (m : loc) (x : Z)
| CallMetrics (order : list (string * loc))
| CallWritePrometheus (order : list (string * loc)) (w : string)
| CallEncode (now : Time.Time) (order : list (string * loc)).

Definition exec (c : call) : M unit :=
  match c with
  | CallNewUnpublished nm ty => NewUnpublished nm ty ;;; ret tt
  | CallPublish m => Publish m
  | CallNewCounter nm => NewCounter nm ;;; ret tt
  | CallNewGauge nm => NewGauge nm ;;; ret tt
  | CallAdd m n => Add m n
  | CallSet m x => Set' m x
  | CallMetrics order => Metrics order ;;; ret tt
  | CallWritePrometheus order w => WritePrometheusExpositionFormat order w ;;; ret tt
  | CallEncode now order => EncodeLogTailMetricsDelta now order ;;; ret tt
  end.

(** The calls a program can make in a state: arguments of their Go types,
    pointers obtained from [NewUnpublished], [NewCounter] or [NewGauge],
    room in memory for a new object, and an iteration order of the map as it
    is. *)
Definition admissible (c : call) (st : State) : Prop :=
  match c with
  | CallNewUnpublished nm ty =>
      Z.of_nat (String.length nm) <= Int64.max_int
      ∧ Z.of_nat (length (heap st)) < Int64.max_int
      ∧ 0 <= ty < 256
  | CallNewCounter nm | CallNewGauge nm =>
      Z.of_nat (String.length nm) <= Int64.max_int
      ∧ Z.of_nat (length (heap st)) < Int64.max_int
  | CallPublish m => (m < length (heap st))%nat
  | CallAdd m n => (m < length (heap st))%nat ∧ Int64.in_range n
  | CallSet m x => (m < length (heap st))%nat ∧ Int64.in_range x
  | CallMetrics order | CallWritePrometheus order _ | CallEncode _ order =>
      rangeOrder st order
  end.

(** States reached from process start by calls of the API; a call that
    panics leaves the state it had reached. *)
Inductive reachable : State → Prop :=
| reachable_initial : reachable initial
| reachable_call st c :
    reachable st → admissible c st → reachable (exec c st).2.

(** ** The effect of one encoder scan, metric by metric *)

(** Whether the scan names the metric: never named, or named longer ago
    than [metricLogNameFrequency]. *)
Definition dueName (now : Time.Time) (mt : Metric) : bool :=
  Time.IsZero (lastNamed mt)
  || (Time.Sub now (lastNamed mt) >? metricLogNameFrequency).

(** The loop body on one metric, without the buffer: the records it writes,
    the metric it leaves and the new [numWireID]. *)
Definition scanMetric (now : Time.Time) (n : Z) (mt : Metric)
    : list Wire.record * Metric * Z :=
  let val := v mt in
  let delta := Int64.sub val (lastLogVal mt) in
  if delta =? 0 then ([], mt, n)
  else
    let n' := if wireID mt =? 0 then Int64.add n 1 else n in
    let wid := if wireID mt =? 0 then n' else wireID mt in
    if dueName now mt then
      ([Wire.NameRec (name mt); Wire.ValueRec wid val],
       mkMetric val (name mt) (typ mt) wid now val, n')
    else
      ([Wire.IncRec wid delta],
       mkMetric val (name mt) (typ mt) wid (lastNamed mt) val, n').

(** The whole loop: the records of each entry of [order], the store and
    [numWireID] at the end. *)
Fixpoint scan (now : Time.Time) (order : list (string * loc))
    (h : list Metric) (n : Z) : list (list Wire.record) * list Metric * Z :=
  match order with
  | [] => ([], h, n)
  | km :: rest =>
      let '(r, mt', n') := scanMetric now n (default zeroMetric (h !! km.2)) in
      let '(rs, h', n'') := scan now rest (<[km.2 := mt']> h) n' in
      (r :: rs, h', n'')
  end.

(** The metric of an entry gets a wireID in a scan of the state: its value
    changed and it has none. *)
Definition needsID (st : State) (km : string * loc) : Prop :=
  v (deref st km.2) ≠ lastLogVal (deref st km.2)
  ∧ wireID (deref st km.2) = 0.

#[global] Instance needsID_dec st km : Decision (needsID st km).
Proof. unfold needsID. apply _. Defined.

(** The number of entries before position [i] that get a wireID in a scan
    of the state. *)
Definition newlyNamed (st : State) (order : list (string * loc)) (i : nat) : Z :=
  Z.of_nat (length (filter (needsID st) (take i order))).

(** The encoder is not rate-limited at [now]. *)
Definition notLimited (st : State) (now : Time.Time) : Prop :=
  Time.IsZero (lastDelta st) = true
  ∨ minMetricEncodeInterval <= Time.Sub now (lastDelta st).

(** [p] holds of every integer from 0 below [n]; used to settle facts about
    bytes by enumeration. *)
Fixpoint allBelow (n : nat) (p : Z → bool) : bool :=
  match n with
  | O => true
  | S n' => p (Z.of_nat n') && allBelow n' p
  end.

(** A value of Go's [byte]. *)
Definition isByte (b : Z) : Prop := 0 <= b < 256.

(** The scratch array of a buffer has its declared size. *)
Definition encOK (e : deltaEncBuf) : Prop :=
  length (scratch e) = Binary.MaxVarintLen64.

(** A record whose fields are in the range of their Go types. *)
Definition wfRecord (r : Wire.record) : Prop :=
  match r with
  | Wire.NameRec nm => Z.of_nat (String.length nm) <= Int64.max_int
  | Wire.ValueRec wid x => Int64.in_range wid ∧ Int64.in_range x
  | Wire.IncRec wid d => Int64.in_range wid ∧ Int64.in_range d
  end.

(** ** The exposition text, in the words of its description

    For each metric of one of the two declared kinds a type-declaration
    line naming it as [gauge] or [counter], then a [<name> <value>] line; a
    metric whose [Type] value is neither has the [<name> <value>] line
    only. *)

Definition typeWord (ty : Type_) : option string :=
  if ty =? TypeGauge then Some "gauge"
  else if ty =? TypeCounter then Some "counter"
  else None.

Definition typeLine (mt : Metric) : string :=
  match typeWord (typ mt) with
  | Some kw => "# TYPE " +:+ name mt +:+ " " +:+ kw +:+ newline
  | None => ""
  end.

Definition valueLine (mt : Metric) : string :=
  name mt +:+ " " +:+ pretty (v mt) +:+ newline.

Definition expositionOf (mt : Metric) : string :=
  typeLine mt +:+ valueLine mt.

(** The two lines of a metric when every metric is taken to have a
    type-declaration line: the declaration with the word [kw], then the
    value. *)
Definition declaredLines (kw : string) (mt : Metric) : string :=
  "# TYPE " +:+ name mt +:+ " " +:+ kw +:+ newline +:+ valueLine mt.

Fixpoint exposition (st : State) (ms : list loc) : string :=
  match ms with
  | [] => ""
  | m :: ms' => expositionOf (deref st m) +:+ exposition st ms'
  end.

(** The object that [NewUnpublished] makes for a name. *)
Definition fresh (nm : string) (ty : Type_) : Metric :=
  mkMetric 0 nm ty 0 Time.zero 0.

(** The text in the lazily taken buffer. *)
Definition bufOf (enc : option deltaEncBuf) : string :=
  match enc with
  | Some e => buf e
  | None => ""
  end.

Definition encOKopt (enc : option deltaEncBuf) : Prop :=
  ∀ e, enc = Some e → encOK e.

(** Every pointer of the iteration order is in the store. *)
Definition live (h : list Metric) (order : list (string * loc)) : Prop :=
  Forall (λ km : string * loc, is_Some (h !! km.2)) order.

(** States reached from a state by calls of the API. *)
Inductive reaches (st : State) : State → Prop :=
| reaches_refl : reaches st st
| reaches_call st' c :
    reaches st st' → admissible c st' → reaches st (exec c st').2.

(** ** A sample run, at which the theorems are instantiated *)

(** An instant of the year 2022, in nanoseconds since the zero instant. *)
Definition sampleNow : Time.Time := 63800000000 * Time.Second.

(** A counter registered and incremented once, not yet encoded. *)
Definition sampleState : State :=
  (exec (CallAdd 0 10) (exec (CallNewCounter "foo_total") initial).2).2.

Definition sampleOrder : list (string * loc) :=
  map_to_list (metrics sampleState).

(** The sample state after a first encode, and after a decrement and a
    second encode sixteen seconds later. *)
Definition sampleEncoded : State :=
  (exec (CallEncode sampleNow sampleOrder) sampleState).2.

Definition sampleLater : State :=
  (exec (CallEncode (sampleNow + 16 * Time.Second) sampleOrder)
     (exec (CallAdd 0 (-4)) sampleEncoded).2).2.

(** A metric made with a [Type] value that is neither declared constant,
    registered and set to 4. *)
Definition oddState : State :=
  (exec (CallSet 0 4)
     (exec (CallPublish 0)
        (exec (CallNewUnpublished "odd" 2) initial).2).2).2.

Definition oddOrder : list (string * loc) :=
  map_to_list (metrics oddState).

(** How wireIDs evolve from a state to a later one: [numWireID] does not
    decrease, a wireID that is set stays, and a wireID that is set in the
    later state was the same in the earlier one or is greater than the
    earlier [numWireID]. *)
Definition wireStep (st st' : State) : Prop :=
  numWireID st <= numWireID st'
  ∧ (∀ m mt, heap st !! m = Some mt → wireID mt ≠ 0 →
             ∃ mt', heap st' !! m = Some mt' ∧ wireID mt' = wireID mt)
  ∧ (∀ m mt', heap st' !! m = Some mt' → wireID mt' ≠ 0 →
              wireID (deref st m) = wireID mt' ∨ numWireID st < wireID mt').

(** Two gauges registered as [a] then [b]; [b] changes and is encoded
    first, [a] changes and is encoded sixteen seconds later. *)
Definition crossedRun : M (Z * Z) :=
  (a <~ NewGauge "a" ;;
   b <~ NewGauge "b" ;;
   order <~ gets (λ st, map_to_list (metrics st)) ;;
   Set' b 7 ;;;
   EncodeLogTailMetricsDelta sampleNow order ;;;
   Set' a 9 ;;;
   EncodeLogTailMetricsDelta (sampleNow + 16 * Time.Second) order ;;;
   ida <~ gets (λ st, wireID (deref st a)) ;;
   idb <~ gets (λ st, wireID (deref st b)) ;;
   ret (ida, idb))%go.

(** The scenario of the round trip: a counter is registered and incremented
    by 5, the encoder runs, the counter is incremented by 3 and the encoder
    runs again; the result is the counter and the two frames. *)
Definition roundTripRun (nm : string) (now1 now2 : Time.Time)
    (order1 order2 : list (string * loc)) : M (loc * string * string) :=
  (m <~ NewCounter nm ;;
   Add m 5 ;;;
   f1 <~ EncodeLogTailMetricsDelta now1 order1 ;;
   Add m 3 ;;;
   f2 <~ EncodeLogTailMetricsDelta now2 order2 ;;
   ret (m, f1, f2))%go.

(** The concrete scenario: counter [foo_total], [Add(10)], encode,
    [Add(-4)], encode sixteen seconds later, exposition dump. *)
Definition scenarioRun : M (string * string * string) :=
  (m <~ NewCounter "foo_total" ;;
   Add m 10 ;;;
   order <~ gets (λ st, map_to_list (metrics st)) ;;
   f1 <~ EncodeLogTailMetricsDelta sampleNow order ;;
   Add m (-4) ;;;
   f2 <~ EncodeLogTailMetricsDelta (sampleNow + 16 * Time.Second) order ;;
   dump <~ WritePrometheusExpositionFormat order "" ;;
   ret (f1, f2, dump))%go.

(** ** What the encoder has done to a metric, and the reader of its frames *)

(** An object without a wireID has never been named nor logged; an object
    with a wireID is registered under its name. *)
Definition logged (st : State) : Prop :=
  ∀ m mt, heap st !! m = Some mt →
    (wireID mt = 0 → lastNamed mt = Time.zero ∧ lastLogVal mt = 0)
    ∧ (wireID mt ≠ 0 → metrics st !! name mt = Some m).

(** The objects of the store that have a wireID. *)
Definition wired (h : list Metric) : list Metric :=
  filter (λ mt, wireID mt ≠ 0) h.

(** The grammar of a frame: a name record is immediately followed by a
    value record, and an increment record stands alone. *)
Fixpoint framed (rs : list Wire.record) : bool :=
  match rs with
  | [] => true
  | Wire.NameRec _ :: Wire.ValueRec _ _ :: rs' => framed rs'
  | Wire.IncRec _ _ :: rs' => framed rs'
  | _ => false
  end.

(** The wireID a record is about. *)
Definition recordID (r : Wire.record) : option Z :=
  match r with
  | Wire.NameRec _ => None
  | Wire.ValueRec wid _ | Wire.IncRec wid _ => Some wid
  end.

(** A consumer of the frames knows the metrics as last logged: for every
    object with a wireID, its name and its [lastLogVal]; no name record
    awaits its value record. *)
Definition inSync (c : Wire.Consumer) (st : State) : Prop :=
  Wire.pendingName c = None
  ∧ ∀ m mt, heap st !! m = Some mt → wireID mt ≠ 0 →
      Wire.values c !! wireID mt = Some (lastLogVal mt)
      ∧ Wire.names c !! wireID mt = Some (name mt).

(** What a call sends to the consumer: the frame that an encoder call
    returns. *)
Definition deliver (c : Wire.Consumer) (cl : call) (st : State)
    : Wire.Consumer :=
  match cl with
  | CallEncode now order =>
      match (EncodeLogTailMetricsDelta now order st).1 with
      | Ok frame => default c (Wire.consume c frame)
      | Panic _ => c
      end
  | _ => c
  end.

(** A run of the package from process start, with a consumer that starts
    empty and is sent every frame. *)
Inductive fed : State → Wire.Consumer → Prop :=
| fed_initial : fed initial Wire.emptyConsumer
| fed_call st c cl :
    fed st c → admissible cl st → fed (exec cl st).2 (deliver c cl st).
(** ** Strings *)

Section strings.
Implicit Types s t u : string.

Lemma app_cons c s t : String c s +:+ t = String c (s +:+ t).
Proof. reflexivity. Qed.

Lemma app_empty_l s : "" +:+ s = s.
Proof. reflexivity. Qed.

Lemma app_empty_r s : s +:+ "" = s.
Proof. induction s as [|c s IH]; [done|]. by rewrite app_cons, IH. Qed.

Lemma app_assoc_s s t u : (s +:+ t) +:+ u = s +:+ (t +:+ u).
Proof. induction s as [|c s IH]; [done|]. by rewrite !app_cons, IH. Qed.

Lemma length_app_s s t :
  String.length (s +:+ t) = (String.length s + String.length t)%nat.
Proof. induction s as [|c s IH]; [done|]. rewrite app_cons. simpl. by rewrite IH. Qed.

Lemma allChars_app p s t :
  allChars p (s +:+ t) = allChars p s && allChars p t.
Proof.
  induction s as [|c s IH]; [done|].
  rewrite app_cons. simpl. rewrite IH. by rewrite andb_assoc.
Qed.

Lemma allChars_impl (p q : ascii → bool) s :
  (∀ c, p c = true → q c = true) → allChars p s = true → allChars q s = true.
Proof.
  intros Hpq. induction s as [|c s IH]; simpl; [done|].
  rewrite !andb_true_iff. intros [? ?]. auto.
Qed.
End strings.

(** ** Checking a property of every byte *)

Lemma allBelow_spec n p :
  allBelow n p = true → ∀ z, 0 <= z < Z.of_nat n → p z = true.
Proof.
  induction n as [|n IH]; intros Hall z Hz; [lia|].
  simpl in Hall. apply andb_true_iff in Hall as [Hn Hrest].
  destruct (decide (z = Z.of_nat n)) as [->|]; [done|].
  apply IH; [done|lia].
Qed.

(** ** 64-bit arithmetic *)

Module Int64Facts.
Import Int64.

Ltac solve_wrap :=
  unfold in_range, add, sub, wrap, to_uint64, min_int, max_int in *;
  Z.div_mod_to_equations; lia.

Lemma wrap_in_range z : in_range (wrap z).
Proof. solve_wrap. Qed.

Lemma wrap_id z : in_range z → wrap z = z.
Proof. intros Hz. solve_wrap. Qed.

(** The difference of two 64-bit values is zero modulo [2^64] only when
    they are equal. *)
Lemma sub_eq_0 a b : in_range a → in_range b → sub a b = 0 ↔ a = b.
Proof. intros Ha Hb. split; intros H; [|subst a]; solve_wrap. Qed.

Lemma sub_eqb_0 a b :
  in_range a → in_range b → (sub a b =? 0) = (a =? b).
Proof.
  intros Ha Hb. destruct (Z.eqb_spec a b) as [->|Hne].
  - apply Z.eqb_eq. by apply sub_eq_0.
  - apply Z.eqb_neq. intros H. apply Hne. by apply sub_eq_0.
Qed.

(** Adding the wrapped difference back, with wrap-around, gives the
    minuend. *)
Lemma add_sub a b : in_range a → in_range b → add b (sub a b) = a.
Proof. intros Ha Hb. solve_wrap. Qed.

Lemma sub_exact a b : in_range (a - b) → sub a b = a - b.
Proof. intros H. solve_wrap. Qed.

Lemma add_exact a b : in_range (a + b) → add a b = a + b.
Proof. intros H. solve_wrap. Qed.

Lemma lxor_ones a :
  0 <= a < 2 ^ 64 → not_u64 a = 2 ^ 64 - 1 - a.
Proof.
  intros Ha. unfold not_u64.
  change (Z.lxor a (2 ^ 64 - 1)) with (Z.lxor a (Z.ones 64)).
  transitivity (Z.land (Z.lnot a) (Z.ones 64)).
  - apply Z.bits_inj'. intros n Hn.
    rewrite Z.lxor_spec, Z.land_spec, Z.lnot_spec by done.
    destruct (Z.lt_ge_cases n 64) as [Hlt|Hge].
    + rewrite Z.ones_spec_low by lia. by destruct (Z.testbit a n).
    + rewrite Z.ones_spec_high by lia.
      assert (Z.testbit a n = false) as ->; [|done].
      destruct (decide (a = 0)) as [->|]; [apply Z.bits_0|].
      apply Z.bits_above_log2; [lia|].
      assert (Z.log2 a < 64); [|lia].
      apply Z.log2_lt_pow2; lia.
  - rewrite Z.land_ones by lia. unfold Z.lnot, Z.pred.
    replace (- a + -1) with ((2 ^ 64 - 1 - a) + (-1) * 2 ^ 64) by lia.
    rewrite Z.mod_add by lia. apply Z.mod_small. lia.
Qed.
End Int64Facts.

(** ** Varints and hexadecimal: the encoder's helpers meet the format *)

Module VarintFacts.
Import Binary Wire.

Lemma lor_continuation_bytes :
  allBelow 256 (λ b, Z.lor b 128 =? b mod 128 + 128) = true.
Proof. vm_compute. reflexivity. Qed.

Lemma lor_continuation x : Z.lor (byte x) 128 = x mod 128 + 128.
Proof.
  unfold byte.
  assert (Hb : 0 <= x mod 256 < Z.of_nat 256)
    by (change (Z.of_nat 256) with 256; apply Z.mod_pos_bound; lia).
  pose proof (allBelow_spec 256 _ lor_continuation_bytes _ Hb) as H.
  apply Z.eqb_eq in H. rewrite H.
  Z.div_mod_to_equations. lia.
Qed.

Lemma base128_isByte n u : 0 <= u → Forall isByte (base128 n u).
Proof.
  revert u. induction n as [|n IH]; intros u Hu; simpl; [constructor|].
  destruct (Z.ltb_spec u 128).
  - repeat constructor; lia.
  - constructor.
    + unfold isByte. Z.div_mod_to_equations. lia.
    + apply IH. apply Z.div_pos; lia.
Qed.

Lemma base128_nonempty n u : base128 (S n) u ≠ [].
Proof. simpl. by destruct (u <? 128). Qed.

Lemma pow128_succ n : 2 ^ (7 * Z.of_nat (S n)) = 128 * 2 ^ (7 * Z.of_nat n).
Proof.
  replace (7 * Z.of_nat (S n)) with (7 + 7 * Z.of_nat n) by lia.
  rewrite Z.pow_add_r by lia. reflexivity.
Qed.

(** [PutUvarint] writes the base-128 bytes at the front of a buffer that
    can hold them. *)
Lemma PutUvarint_base128 buf x :
  buf ≠ [] → 0 <= x < 2 ^ (7 * Z.of_nat (length buf)) →
  let bs := base128 (length buf) x in
  PutUvarint buf x = Some ((bs ++ drop (length bs) buf)%list, Z.of_nat (length bs)).
Proof.
  revert x. induction buf as [|b0 rest IH]; intros x Hne Hx; [done|].
  cbn zeta. cbn [length] in Hx. rewrite pow128_succ in Hx.
  cbn [PutUvarint length base128].
  destruct (Z.ltb_spec x 128) as [Hlt|Hge].
  - assert ((128 <=? x) = false) as -> by (apply Z.leb_gt; lia).
    unfold byte. rewrite Z.mod_small by lia. reflexivity.
  - assert ((128 <=? x) = true) as -> by (apply Z.leb_le; lia).
    rewrite Z.shiftr_div_pow2 by lia. change (2 ^ 7) with 128.
    assert (Hq : 0 < x / 128 < 2 ^ (7 * Z.of_nat (length rest))).
    { split; [apply Z.div_str_pos; lia|].
      apply Z.div_lt_upper_bound; lia. }
    assert (Hrest : rest ≠ []).
    { intros ->. simpl in Hq. lia. }
    rewrite (IH (x / 128) Hrest) by lia.
    rewrite lor_continuation. cbn [length app drop].
    do 2 f_equal. lia.
Qed.

Lemma zigzag_bounds x : Int64.in_range x → 0 <= zigzag x < 2 ^ 64.
Proof.
  unfold Int64.in_range, Int64.min_int, Int64.max_int, zigzag.
  intros Hx. destruct (Z.leb_spec 0 x); lia.
Qed.

Lemma zigzag_nonneg x : 0 <= zigzag x.
Proof. unfold zigzag. destruct (Z.leb_spec 0 x); lia. Qed.

(** The shifts and the complement of [PutVarint] compute the zig-zag. *)
Lemma PutVarint_zigzag x :
  Int64.in_range x →
  (if x <? 0
   then Int64.not_u64 (Int64.shl1_u64 (Int64.to_uint64 x))
   else Int64.shl1_u64 (Int64.to_uint64 x)) = zigzag x.
Proof.
  intros Hx. unfold Int64.shl1_u64, Int64.to_uint64, zigzag.
  rewrite Z.shiftl_mul_pow2 by lia. change (2 ^ 1) with 2.
  unfold Int64.in_range, Int64.min_int, Int64.max_int in Hx.
  destruct (Z.ltb_spec x 0) as [Hneg|Hpos].
  - assert ((0 <=? x) = false) as -> by (apply Z.leb_gt; lia).
    rewrite Int64Facts.lxor_ones by (apply Z.mod_pos_bound; lia).
    Z.div_mod_to_equations. lia.
  - assert ((0 <=? x) = true) as -> by (apply Z.leb_le; lia).
    Z.div_mod_to_equations. lia.
Qed.

(** The zig-zag as protobuf writes it for [sint64]:
    [(x << 1) ^ (x >> 63)], with an arithmetic right shift. *)
Lemma zigzag_shifts x :
  Int64.in_range x → zigzag x = Z.lxor (Z.shiftl x 1) (Z.shiftr x 63).
Proof.
  unfold Int64.in_range, Int64.min_int, Int64.max_int, zigzag. intros Hx.
  rewrite Z.shiftl_mul_pow2, Z.shiftr_div_pow2 by lia.
  change (2 ^ 1) with 2.
  destruct (Z.leb_spec 0 x).
  - rewrite Z.div_small by lia. rewrite Z.lxor_0_r. lia.
  - assert (x / 2 ^ 63 = -1) as -> by (Z.div_mod_to_equations; lia).
    rewrite Z.lxor_m1_r. unfold Z.lnot, Z.pred. lia.
Qed.

Lemma varint_isByte x : Forall isByte (varint x).
Proof. apply base128_isByte, zigzag_nonneg. Qed.

Lemma varint_nonempty x : varint x ≠ [].
Proof. apply base128_nonempty. Qed.

Lemma varint_length x : (1 <= length (varint x) <= 10)%nat.
Proof.
  split.
  - pose proof (varint_nonempty x). destruct (varint x); simpl; [done|lia].
  - unfold varint. generalize (zigzag x). generalize 10%nat.
    induction n as [|n IH]; intros u; simpl; [lia|].
    destruct (u <? 128); simpl; [lia|]. specialize (IH (u / 128)). lia.
Qed.

Lemma PutVarint_varint scr x :
  length scr = MaxVarintLen64 → Int64.in_range x →
  PutVarint scr x
  = Some ((varint x ++ drop (length (varint x)) scr)%list,
          Z.of_nat (length (varint x))).
Proof.
  intros Hlen Hx. unfold PutVarint. cbn zeta.
  rewrite PutVarint_zigzag by done.
  pose proof (zigzag_bounds x Hx).
  rewrite PutUvarint_base128.
  - rewrite Hlen. reflexivity.
  - intros ->. discriminate Hlen.
  - rewrite Hlen. change (2 ^ (7 * Z.of_nat MaxVarintLen64)) with (2 ^ 70). lia.
Qed.

(** Even outside the 64-bit range of its argument, [PutVarint] stays
    inside a buffer of [MaxVarintLen64] bytes. *)
Lemma PutVarint_fits scr x :
  length scr = MaxVarintLen64 →
  ∃ scr' n, PutVarint scr x = Some (scr', n) ∧ length scr' = MaxVarintLen64.
Proof.
  intros Hlen. unfold PutVarint. cbn zeta.
  set (ux := if x <? 0 then _ else _).
  assert (Hux : 0 <= ux < 2 ^ 64).
  { subst ux. unfold Int64.shl1_u64, Int64.to_uint64.
    assert (Hm : 0 <= Z.shiftl (x mod 2 ^ 64) 1 mod 2 ^ 64 < 2 ^ 64)
      by (apply Z.mod_pos_bound; lia).
    destruct (x <? 0); [|done].
    rewrite Int64Facts.lxor_ones by done. lia. }
  rewrite PutUvarint_base128.
  - eexists _, _. split; [done|].
    rewrite length_app, length_drop.
    assert (length (base128 (length scr) ux) ≤ length scr)%nat; [|lia].
    generalize ux. generalize (length scr). clear.
    induction n as [|n IH]; intros u; simpl; [lia|].
    destruct (u <? 128); simpl; [lia|]. specialize (IH (u / 128)). lia.
  - intros ->. discriminate Hlen.
  - rewrite Hlen. change (2 ^ (7 * Z.of_nat MaxVarintLen64)) with (2 ^ 70). lia.
Qed.

Lemma hextable_bytes :
  allBelow 256
    (λ b, Ascii.eqb (Hex.at_ (Z.shiftr b 4)) (hexDigit (b / 16))
          && Ascii.eqb (Hex.at_ (Z.land b 15)) (hexDigit (b mod 16))) = true.
Proof. vm_compute. reflexivity. Qed.

(** [hex.Encode] renders a byte as its two lowercase hexadecimal digits. *)
Lemma Encode_hexBytes l : Forall isByte l → Hex.Encode l = hexBytes l.
Proof.
  induction 1 as [|b l Hb _ IH]; [done|]. simpl. rewrite IH.
  pose proof (allBelow_spec 256 _ hextable_bytes b Hb) as H.
  apply andb_true_iff in H as [H1 H2].
  apply Ascii.eqb_eq in H1, H2. by rewrite H1, H2.
Qed.

Lemma hexDigit_lower :
  allBelow 16 (λ d, isLowerHex (hexDigit d)) = true.
Proof. vm_compute. reflexivity. Qed.

Lemma hexBytes_lower l :
  Forall isByte l → allChars isLowerHex (hexBytes l) = true.
Proof.
  induction 1 as [|b l Hb _ IH]; [done|]. simpl. rewrite IH.
  unfold isByte in Hb.
  rewrite !(allBelow_spec 16 _ hexDigit_lower); [done| |].
  - change (Z.of_nat 16) with 16. apply Z.mod_pos_bound. lia.
  - change (Z.of_nat 16) with 16. Z.div_mod_to_equations. lia.
Qed.

Lemma hexBytes_length l :
  String.length (hexBytes l) = (2 * length l)%nat.
Proof. induction l as [|b l IH]; simpl; [done|]. rewrite IH. lia. Qed.

Lemma hexVarint_lower x : allChars isLowerHex (hexVarint x) = true.
Proof. apply hexBytes_lower, varint_isByte. Qed.

(** *** Reading back *)

Lemma unhex_bytes :
  allBelow 256
    (λ b, match unhexDigit (hexDigit (b / 16)),
                unhexDigit (hexDigit (b mod 16)) with
          | Some hi, Some lo => 16 * hi + lo =? b
          | _, _ => false
          end) = true.
Proof. vm_compute. reflexivity. Qed.

Lemma readUvarint_hexBytes n u rest :
  0 <= u < 2 ^ (7 * Z.of_nat n) →
  (0 < n)%nat →
  readUvarint (hexBytes (base128 n u) +:+ rest) = Some (u, rest).
Proof.
  revert u. induction n as [|n IH]; intros u Hu Hn; [lia|].
  rewrite pow128_succ in Hu. cbn [base128].
  assert (Hstep : ∀ b tl, isByte b →
    readUvarint (hexBytes (b :: tl) +:+ rest)
    = if b <? 128 then Some (b, hexBytes tl +:+ rest)
      else match readUvarint (hexBytes tl +:+ rest) with
           | Some (u', rest') => Some (b - 128 + 128 * u', rest')
           | None => None
           end).
  { intros b tl Hb. cbn [hexBytes]. rewrite !app_cons. cbn [readUvarint].
    pose proof (allBelow_spec 256 _ unhex_bytes b Hb) as H.
    cbv beta in H.
    destruct (unhexDigit (hexDigit (b / 16))) as [hi|]; [|done].
    destruct (unhexDigit (hexDigit (b mod 16))) as [lo|]; [|done].
    apply Z.eqb_eq in H. by rewrite H. }
  destruct (Z.ltb_spec u 128) as [Hlt|Hge].
  - rewrite Hstep by (unfold isByte; lia).
    assert ((u <? 128) = true) as -> by (apply Z.ltb_lt; lia). done.
  - rewrite Hstep by (unfold isByte; Z.div_mod_to_equations; lia).
    assert ((u mod 128 + 128 <? 128) = false) as ->
      by (apply Z.ltb_ge; Z.div_mod_to_equations; lia).
    assert (Hq : 0 < u / 128 < 2 ^ (7 * Z.of_nat n)).
    { split; [apply Z.div_str_pos; lia|].
      apply Z.div_lt_upper_bound; lia. }
    assert (0 < n)%nat.
    { destruct n; [simpl in Hq; lia|lia]. }
    rewrite IH by lia. do 2 f_equal.
    Z.div_mod_to_equations. lia.
Qed.

Lemma unzigzag_zigzag x : unzigzag (zigzag x) = x.
Proof.
  unfold unzigzag, zigzag. destruct (Z.leb_spec 0 x).
  - rewrite Z.even_mul. simpl. Z.div_mod_to_equations. lia.
  - replace (- 2 * x - 1) with (1 + 2 * (- x - 1)) by lia.
    rewrite Z.even_add_mul_2. simpl. Z.div_mod_to_equations. lia.
Qed.

(** A signed varint in hexadecimal reads back as the integer, whatever
    follows it. *)
Lemma readVarint_hexVarint x rest :
  Int64.in_range x → readVarint (hexVarint x +:+ rest) = Some (x, rest).
Proof.
  intros Hx. unfold readVarint, hexVarint, varint.
  pose proof (zigzag_bounds x Hx).
  rewrite readUvarint_hexBytes.
  - by rewrite unzigzag_zigzag.
  - change (2 ^ (7 * Z.of_nat 10)) with (2 ^ 70). lia.
  - lia.
Qed.
End VarintFacts.

(** ** The buffer writers and the records they produce *)

Module EncFacts.
Import Binary Wire VarintFacts.

Lemma newDeltaEncBuf_OK : encOK newDeltaEncBuf.
Proof. reflexivity. Qed.

Lemma Reset_OK e : encOK e → encOK (Reset e).
Proof. done. Qed.

Lemma writeHexVarint_spec b x :
  encOK b → Int64.in_range x →
  ∃ b', writeHexVarint b x = Some b'
        ∧ buf b' = buf b +:+ hexVarint x ∧ encOK b'.
Proof.
  intros Hb Hx. unfold writeHexVarint.
  rewrite PutVarint_varint by done.
  eexists. split; [done|]. cbn [buf scratch]. split.
  - rewrite Nat2Z.id, take_app_length.
    by rewrite Encode_hexBytes by apply varint_isByte.
  - unfold encOK in *. cbn [scratch].
    pose proof (varint_length x).
    rewrite length_app, length_drop, Hb. unfold MaxVarintLen64. lia.
Qed.

Lemma length_nonneg_in_range n :
  Z.of_nat n <= Int64.max_int → Int64.in_range (Z.of_nat n).
Proof. unfold Int64.in_range, Int64.min_int. lia. Qed.

Lemma writeName_spec b nm :
  encOK b → Z.of_nat (String.length nm) <= Int64.max_int →
  ∃ b', writeName b nm = Some b'
        ∧ buf b' = buf b +:+ render (NameRec nm) ∧ encOK b'.
Proof.
  intros Hb Hnm. unfold writeName.
  destruct (writeHexVarint_spec (WriteByte "N" b) (Z.of_nat (String.length nm)))
    as (b1 & -> & Hbuf & Hok); [done|by apply length_nonneg_in_range|].
  eexists. split; [done|]. split; [|done].
  cbn [WriteString buf render]. rewrite Hbuf. cbn [WriteByte buf].
  by rewrite !app_assoc_s.
Qed.

Lemma writeValue_spec b wid x :
  encOK b → Int64.in_range wid → Int64.in_range x →
  ∃ b', writeValue b wid x = Some b'
        ∧ buf b' = buf b +:+ render (ValueRec wid x) ∧ encOK b'.
Proof.
  intros Hb Hwid Hx. unfold writeValue.
  destruct (writeHexVarint_spec (WriteByte "S" b) wid)
    as (b1 & -> & Hbuf1 & Hok1); [done..|].
  destruct (writeHexVarint_spec b1 x) as (b2 & H2 & Hbuf2 & Hok2); [done..|].
  exists b2. split; [done|]. split; [|done].
  rewrite Hbuf2, Hbuf1. cbn [WriteByte buf render].
  by rewrite !app_assoc_s.
Qed.

Lemma writeDelta_spec b wid d :
  encOK b → Int64.in_range wid → Int64.in_range d →
  ∃ b', writeDelta b wid d = Some b'
        ∧ buf b' = buf b +:+ render (IncRec wid d) ∧ encOK b'.
Proof.
  intros Hb Hwid Hd. unfold writeDelta.
  destruct (writeHexVarint_spec (WriteByte "I" b) wid)
    as (b1 & -> & Hbuf1 & Hok1); [done..|].
  destruct (writeHexVarint_spec b1 d) as (b2 & H2 & Hbuf2 & Hok2); [done..|].
  exists b2. split; [done|]. split; [|done].
  rewrite Hbuf2, Hbuf1. cbn [WriteByte buf render].
  by rewrite !app_assoc_s.
Qed.

Lemma renderAll_app rs1 rs2 :
  renderAll (rs1 ++ rs2) = renderAll rs1 +:+ renderAll rs2.
Proof.
  induction rs1 as [|r rs1 IH]; [done|].
  cbn [renderAll app]. by rewrite IH, app_assoc_s.
Qed.

(** *** A rendered frame reads back as its records *)

Lemma splitAt_app a b : splitAt (String.length a) (a +:+ b) = Some (a, b).
Proof.
  induction a as [|c a IH]; [by destruct b|].
  rewrite app_cons. cbn [String.length splitAt]. by rewrite IH.
Qed.

Lemma readRecord_render r rest :
  wfRecord r → readRecord (render r +:+ rest) = Some (r, rest).
Proof.
  destruct r as [nm|wid x|wid d]; cbn [wfRecord render]; intros Hwf.
  - rewrite !app_cons, app_empty_l, app_assoc_s. cbn [readRecord].
    rewrite readVarint_hexVarint by by apply length_nonneg_in_range.
    cbn [mbind option_bind].
    assert ((Z.of_nat (String.length nm) <? 0) = false) as ->
      by (apply Z.ltb_ge; lia).
    by rewrite Nat2Z.id, splitAt_app.
  - destruct Hwf as [Hwid Hx].
    rewrite !app_cons, app_empty_l, app_assoc_s. cbn [readRecord].
    rewrite readVarint_hexVarint by done. cbn [mbind option_bind].
    by rewrite readVarint_hexVarint by done.
  - destruct Hwf as [Hwid Hd].
    rewrite !app_cons, app_empty_l, app_assoc_s. cbn [readRecord].
    rewrite readVarint_hexVarint by done. cbn [mbind option_bind].
    by rewrite readVarint_hexVarint by done.
Qed.

Lemma render_cons r : ∃ c s, render r = String c s.
Proof. destruct r; cbn [render]; rewrite app_cons; eauto. Qed.

Lemma readFrame_renderAll fuel rs :
  Forall wfRecord rs → (length rs ≤ fuel)%nat →
  readFrame fuel (renderAll rs) = Some rs.
Proof.
  intros Hwf. revert fuel.
  induction Hwf as [|r rs Hr _ IH]; intros fuel Hfuel; [by destruct fuel|].
  cbn [length] in Hfuel. destruct fuel as [|fuel]; [lia|].
  cbn [renderAll].
  destruct (render_cons r) as (c & s & Hrs).
  assert (Hshape : ∃ s', render r +:+ renderAll rs = String c s')
    by (rewrite Hrs, app_cons; eauto).
  destruct Hshape as [s' Hs'].
  transitivity ('(r0, rest) ← readRecord (render r +:+ renderAll rs);
                rs0 ← readFrame fuel rest; Some (r0 :: rs0)).
  { rewrite Hs'. reflexivity. }
  rewrite readRecord_render by done. cbn [mbind option_bind].
  rewrite IH by lia. reflexivity.
Qed.

Lemma renderAll_nil_inv rs : renderAll rs = "" → rs = [].
Proof.
  destruct rs as [|r rs]; [done|]. cbn [renderAll].
  destruct (render_cons r) as (c & s & ->). by rewrite app_cons.
Qed.

Lemma concat_nil_inv {A} (ls : list (list A)) :
  concat ls = [] → ∀ l, l ∈ ls → l = [].
Proof.
  induction ls as [|l0 ls IH]; intros Hc l Hin; [by apply elem_of_nil in Hin|].
  cbn [concat] in Hc. apply app_eq_nil in Hc as [-> Hc].
  apply elem_of_cons in Hin as [->|Hin]; [done|by apply IH].
Qed.

Lemma renderAll_length rs : (length rs ≤ String.length (renderAll rs))%nat.
Proof.
  induction rs as [|r rs IH]; [done|].
  cbn [renderAll length]. rewrite length_app_s.
  destruct (render_cons r) as (c & s & ->). cbn [String.length]. lia.
Qed.

Lemma decode_renderAll rs :
  Forall wfRecord rs → decode (renderAll rs) = Some rs.
Proof.
  intros Hwf. apply readFrame_renderAll; [done|]. apply renderAll_length.
Qed.

(** *** The alphabet of a rendered frame *)

Lemma isLowerHex_frame c : isLowerHex c = true → isFrameChar c = true.
Proof. unfold isFrameChar. intros ->. by rewrite !orb_true_r. Qed.

Lemma isNameChar_frame c : isNameChar c = true → isFrameChar c = true.
Proof. unfold isFrameChar. intros ->. by rewrite !orb_true_r. Qed.

Lemma hexVarint_frame x : allChars isFrameChar (hexVarint x) = true.
Proof.
  eapply allChars_impl; [apply isLowerHex_frame|apply hexVarint_lower].
Qed.

Lemma allNameChars_allChars s : allNameChars s = allChars isNameChar s.
Proof. induction s as [|c s IH]; simpl; [done|]. by rewrite IH. Qed.

Lemma render_frame r :
  match r with
  | NameRec nm => allNameChars nm = true
  | _ => True
  end →
  allChars isFrameChar (render r) = true.
Proof.
  destruct r as [nm|wid x|wid d]; intros Hr; cbn [render];
    rewrite !app_cons, app_empty_l, ?allChars_app; cbn [allChars];
    rewrite ?allChars_app, ?hexVarint_frame; try done.
  cbn. eapply allChars_impl; [apply isNameChar_frame|].
  by rewrite <- allNameChars_allChars.
Qed.

(** No byte of the alphabet needs escaping in a JSON string. *)
Lemma isFrameChar_JSONSafe c : isFrameChar c = true → isJSONSafe c = true.
Proof.
  destruct c as [[] [] [] [] [] [] [] []]; vm_compute; congruence.
Qed.
End EncFacts.

(** ** Names *)

Module NameFacts.
(** [isIllegalMetricRune] rejects exactly the bytes outside
    [[A-Za-z0-9_]]. *)
Lemma isIllegalMetricRune_runeAt c :
  isIllegalMetricRune (runeAt c) = negb (isNameChar c).
Proof. destruct c as [[] [] [] [] [] [] [] []]; vm_compute; reflexivity. Qed.

Lemma indexFuncFrom_range i s f :
  indexFuncFrom i s f = -1 ∨ i <= indexFuncFrom i s f.
Proof.
  revert i. induction s as [|c s IH]; intros i; simpl; [by left|].
  destruct (f (runeAt c)); [right; lia|].
  destruct (IH (i + 1)) as [?|?]; [by left|right; lia].
Qed.

Lemma indexFuncFrom_none i s :
  0 <= i →
  indexFuncFrom i s isIllegalMetricRune = -1 ↔ allNameChars s = true.
Proof.
  revert i. induction s as [|c s IH]; intros i Hi; simpl; [done|].
  rewrite isIllegalMetricRune_runeAt.
  destruct (isNameChar c); simpl.
  - apply IH. lia.
  - split; [lia|done].
Qed.

Lemma IndexFunc_none s :
  IndexFunc s isIllegalMetricRune = -1 ↔ allNameChars s = true.
Proof. by apply indexFuncFrom_none. Qed.

(** The test of [NewUnpublished] is the negation of [validName]. *)
Lemma illegal_test nm :
  String.eqb nm "" || negb (IndexFunc nm isIllegalMetricRune =? -1)
  = negb (validName nm).
Proof.
  unfold validName. rewrite negb_andb, negb_involutive. f_equal.
  destruct (allNameChars nm) eqn:Hall.
  - apply IndexFunc_none in Hall. by rewrite Hall.
  - destruct (Z.eqb_spec (IndexFunc nm isIllegalMetricRune) (-1)) as [H|]; [|done].
    apply IndexFunc_none in H. congruence.
Qed.

Lemma validName_nonempty nm : validName nm = true → nm ≠ "".
Proof.
  unfold validName. intros Hv ->. discriminate Hv.
Qed.

Lemma validName_chars nm : validName nm = true → allNameChars nm = true.
Proof. unfold validName. intros Hv. by apply andb_true_iff in Hv as [_ ?]. Qed.

(** *** The order of names *)

Lemma compare_refl s : (s ?= s)%string = Eq.
Proof.
  induction s as [|c s IH]; simpl; [done|].
  unfold Ascii.compare. by rewrite N.compare_refl.
Qed.

Lemma ltb_leb s t : String.ltb s t = true ↔ String.leb s t = true ∧ s ≠ t.
Proof.
  unfold String.ltb, String.leb.
  destruct (s ?= t)%string eqn:Hc.
  - apply String.compare_eq_iff in Hc. split; [done|]. by intros [_ Hne].
  - split; [|done]. intros _. split; [done|].
    intros ->. by rewrite compare_refl in Hc.
  - split; [done|]. by intros [? _].
Qed.

Lemma ltb_irrefl s : String.ltb s s = false.
Proof. unfold String.ltb. by rewrite compare_refl. Qed.

Lemma ltb_trans s t u :
  String.ltb s t = true → String.ltb t u = true → String.ltb s u = true.
Proof.
  rewrite !ltb_leb. intros [Hst Hne1] [Htu Hne2].
  assert (Hsu : String.le s u).
  { transitivity t; unfold String.le; by apply Is_true_true. }
  split; [by apply Is_true_true|].
  intros ->. apply Hne1. by apply String.leb_antisym.
Qed.

Lemma ltb_total s t :
  s ≠ t → String.ltb s t = false → String.ltb t s = true.
Proof.
  unfold String.ltb. rewrite (String.compare_antisym t s).
  destruct (s ?= t)%string eqn:Hc; simpl; try done.
  apply String.compare_eq_iff in Hc. done.
Qed.

Lemma ltb_asym s t : String.ltb s t = true → String.ltb t s = false.
Proof.
  unfold String.ltb. rewrite (String.compare_antisym t s).
  by destruct (s ?= t)%string.
Qed.
End NameFacts.

(** ** Sorting a slice whose keys are pairwise distinct *)

Section sorting.
Context {A : Type} (key : A → string).

Let less (a b : A) : bool := String.ltb (key a) (key b).
Let lt (a b : A) : Prop := less a b = true.

Lemma insertBy_perm (f : A → A → bool) x l : insertBy f x l ≡ₚ x :: l.
Proof.
  induction l as [|y l IH]; simpl; [done|].
  destruct (f x y); [done|]. rewrite IH. apply perm_swap.
Qed.

Lemma sortSlice_perm (f : A → A → bool) l : sortSlice f l ≡ₚ l.
Proof.
  induction l as [|x l IH]; simpl; [done|].
  fold (sortSlice f l). by rewrite insertBy_perm, IH.
Qed.

Lemma insertBy_sorted x l :
  key x ∉ key <$> l →
  StronglySorted lt l → StronglySorted lt (insertBy less x l).
Proof.
  intros Hx Hl. induction Hl as [|y l Hl IH Hy]; simpl.
  - repeat constructor.
  - rewrite fmap_cons, not_elem_of_cons in Hx. destruct Hx as [Hxy Hx].
    destruct (less x y) eqn:Hless.
    + constructor; [by constructor|].
      constructor; [done|].
      eapply Forall_impl; [exact Hy|]. intros z Hz.
      unfold lt, less in *. by eapply NameFacts.ltb_trans.
    + constructor; [by apply IH|].
      rewrite insertBy_perm. constructor; [|done].
      unfold lt, less in *. by apply NameFacts.ltb_total.
Qed.

Lemma sortSlice_sorted l :
  NoDup (key <$> l) → StronglySorted lt (sortSlice less l).
Proof.
  induction l as [|x l IH]; simpl; [constructor|].
  rewrite NoDup_cons. intros [Hx Hl]. fold (sortSlice less l).
  apply insertBy_sorted; [|by apply IH].
  by rewrite sortSlice_perm.
Qed.

(** Whatever the algorithm, there is one ascending arrangement. *)
Lemma sorted_by_key_unique l1 l2 :
  StronglySorted lt l1 → StronglySorted lt l2 → l1 ≡ₚ l2 → l1 = l2.
Proof.
  apply StronglySorted_unique_strong.
  intros a b _ _ Hab Hba. unfold lt, less in *.
  apply NameFacts.ltb_asym in Hab. congruence.
Qed.

Lemma sorted_by_key_NoDup l : StronglySorted lt l → NoDup l.
Proof.
  induction 1 as [|x l Hl IH Hx]; constructor; [|done].
  intros Hin. rewrite Forall_forall in Hx. specialize (Hx x Hin).
  unfold lt, less in Hx. by rewrite NameFacts.ltb_irrefl in Hx.
Qed.
End sorting.

(** ** The store *)

Section store.
Implicit Types (h : list Metric) (m : loc) (mt : Metric) (st : State).

Lemma alter_insert h m mt (f : Metric → Metric) :
  h !! m = Some mt → alter f m h = <[m := f mt]> h.
Proof.
  revert m. induction h as [|x h IH]; intros [|m] Hm; simplify_eq/=; [done|].
  f_equal. by apply IH.
Qed.

Lemma deref_Some st m mt : heap st !! m = Some mt → deref st m = mt.
Proof. unfold deref. by intros ->. Qed.

Lemma assigned_app h1 h2 : assigned (h1 ++ h2) = assigned h1 + assigned h2.
Proof. induction h1 as [|x h1 IH]; simpl; [done|]. rewrite IH. lia. Qed.

Lemma assigned_bounds h : 0 <= assigned h <= Z.of_nat (length h).
Proof.
  induction h as [|x h IH]; simpl; [lia|]. destruct (wireID x =? 0); lia.
Qed.

(** An object without a wireID leaves room for one more. *)
Lemma assigned_lt h m mt :
  h !! m = Some mt → wireID mt = 0 → assigned h < Z.of_nat (length h).
Proof.
  revert m. induction h as [|x h IH]; intros [|m] Hm Hw; simplify_eq/=.
  - rewrite Hw. simpl. pose proof (assigned_bounds h). lia.
  - specialize (IH _ Hm Hw). destruct (wireID x =? 0); lia.
Qed.

Lemma assigned_insert h m mt mt' :
  h !! m = Some mt →
  assigned (<[m := mt']> h)
  = assigned h - (if wireID mt =? 0 then 0 else 1)
    + (if wireID mt' =? 0 then 0 else 1).
Proof.
  revert m. induction h as [|x h IH]; intros [|m] Hm; simplify_eq/=; [lia|].
  rewrite (IH _ Hm). lia.
Qed.

Lemma StronglySorted_ext {A} (R1 R2 : A → A → Prop) (l : list A) :
  (∀ a b, a ∈ l → b ∈ l → R1 a b → R2 a b) →
  StronglySorted R1 l → StronglySorted R2 l.
Proof.
  intros HR Hl. induction Hl as [|x l Hl IH Hx]; constructor.
  - apply IH. intros a b Ha Hb. apply HR; by right.
  - rewrite Forall_forall in *. intros y Hy.
    apply HR; [by left|by right|by apply Hx].
Qed.

Lemma sortedByName_ext st st' (l : list loc) :
  (∀ m, m ∈ l → name (deref st' m) = name (deref st m)) →
  sortedByName st l → sortedByName st' l.
Proof.
  intros Hn. apply StronglySorted_ext. intros a b Ha Hb.
  unfold nameLt. by rewrite !Hn.
Qed.

Lemma registered_elem st m :
  m ∈ registered st ↔ ∃ k, metrics st !! k = Some m.
Proof.
  unfold registered. rewrite list_elem_of_fmap. split.
  - intros ([k m'] & -> & Hin). exists k. by apply elem_of_map_to_list.
  - intros [k Hk]. exists (k, m). split; [done|]. by apply elem_of_map_to_list.
Qed.
End store.

(** ** The registry invariant *)

Module InvFacts.
Implicit Types (h : list Metric) (m : loc) (mt : Metric) (st : State).

Lemma Inv_initial : Inv initial.
Proof.
  split; simpl; try done.
  intros _. split; [|constructor].
  unfold registered. simpl. by rewrite map_to_list_empty.
Qed.

Lemma registered_live st m :
  Inv st → m ∈ registered st → ∃ mt, heap st !! m = Some mt.
Proof.
  intros HI [k Hk]%registered_elem.
  destruct (inv_registered st HI k m Hk) as (mt & ? & _). eauto.
Qed.

(** The names of the registered metrics are those of the map's keys,
    hence pairwise distinct. *)
Lemma registered_names st order :
  Inv st → rangeOrder st order →
  (λ km : string * loc, name (deref st km.2)) <$> order = order.*1.
Proof.
  intros HI Ho. apply list_eq_Forall2. rewrite Forall2_fmap.
  apply Forall_Forall2_diag, Forall_forall. intros [k m] Hin.
  rewrite Ho in Hin. apply elem_of_map_to_list in Hin.
  destruct (inv_registered st HI k m Hin) as (mt & Hm & <-).
  simpl. by rewrite (deref_Some _ _ _ Hm).
Qed.

Lemma rangeOrder_NoDup_fst st order :
  rangeOrder st order → NoDup order.*1.
Proof. intros ->. apply NoDup_fst_map_to_list. Qed.

Lemma rangeOrder_NoDup_snd st order :
  Inv st → rangeOrder st order → NoDup order.*2.
Proof.
  intros HI Ho.
  apply (NoDup_fmap_1 (λ m, name (deref st m))).
  rewrite <- list_fmap_compose.
  change ((λ m, name (deref st m)) ∘ snd)
    with (λ km : string * loc, name (deref st km.2)).
  rewrite (registered_names st order HI Ho).
  by eapply rangeOrder_NoDup_fst.
Qed.

Lemma rangeOrder_registered st order :
  rangeOrder st order → order.*2 ≡ₚ registered st.
Proof. intros Ho. unfold registered. by rewrite Ho. Qed.

Lemma rangeOrder_lookup st order i k m :
  Inv st → rangeOrder st order → order !! i = Some (k, m) →
  ∃ mt, heap st !! m = Some mt ∧ name mt = k.
Proof.
  intros HI Ho Hi. apply (inv_registered st HI).
  apply elem_of_map_to_list. rewrite <- Ho.
  by eapply list_elem_of_lookup_2.
Qed.

(** A new object, as [NewUnpublished] makes it. *)
Lemma Inv_alloc st nm ty :
  Inv st → validName nm = true →
  Z.of_nat (String.length nm) <= Int64.max_int →
  Z.of_nat (length (heap st)) < Int64.max_int →
  Inv (set_heap (heap st ++ [mkMetric 0 nm ty 0 Time.zero 0]) st).
Proof.
  intros [Hreg Hnames Hvals Hrange Hinj Hcount Hsize Hpool Hsorted] Hv Hlen Hroom.
  assert (Hnew : ∀ m mt,
    (heap st ++ [mkMetric 0 nm ty 0 Time.zero 0])%list !! m = Some mt →
    heap st !! m = Some mt ∨ mt = mkMetric 0 nm ty 0 Time.zero 0).
  { intros m mt [[_ ?]|[_ <-]]%lookup_snoc_Some; auto. }
  split; simpl.
  - intros k m Hk. destruct (Hreg k m Hk) as (mt & Hm & Hn).
    exists mt. split; [|done]. by apply lookup_app_l_Some.
  - intros m mt [Hm| ->]%Hnew; [by eapply Hnames|done].
  - intros m mt [Hm| ->]%Hnew; [by eapply Hvals|].
    simpl. unfold Int64.in_range, Int64.min_int, Int64.max_int. lia.
  - intros m mt [Hm| ->]%Hnew; [by eapply Hrange|].
    simpl. pose proof (assigned_bounds (heap st)). lia.
  - intros m1 m2 mt1 mt2 H1 H2 Hne Heq.
    apply lookup_snoc_Some in H1 as [[_ H1]|[_ <-]]; [|done].
    apply lookup_snoc_Some in H2 as [[_ H2]|[_ <-]]; [by eapply Hinj|].
    simpl in Heq. done.
  - rewrite assigned_app. simpl. lia.
  - rewrite length_app. simpl. lia.
  - done.
  - intros Hd. destruct (Hsorted Hd) as [Hperm Hs]. split; [done|].
    eapply sortedByName_ext; [|exact Hs].
    intros m Hm. rewrite Hperm in Hm.
    apply registered_elem in Hm as [k Hk].
    destruct (Hreg k m Hk) as (mt & Hmt & _).
    unfold deref. simpl. by rewrite (lookup_app_l_Some _ _ _ _ Hmt), Hmt.
Qed.

(** An entry added to the map, as [Publish] does it. *)
Lemma Inv_publish st m mt :
  Inv st → heap st !! m = Some mt → metrics st !! name mt = None →
  Inv (set_sortedDirty true (set_metrics (<[name mt := m]> (metrics st)) st)).
Proof.
  intros [Hreg Hnames Hvals Hrange Hinj Hcount Hsize Hpool Hsorted] Hm Hfresh.
  split; simpl; try done.
  intros k m' Hk. destruct (decide (name mt = k)) as [<-|Hne].
  - rewrite lookup_insert_eq in Hk. simplify_eq. eauto.
  - rewrite lookup_insert_ne in Hk by done. by apply Hreg.
Qed.

(** A change of one object that keeps its name and its wireID. *)
Lemma Inv_update st m (f : Metric → Metric) :
  Inv st →
  (∀ mt, heap st !! m = Some mt →
         name (f mt) = name mt ∧ wireID (f mt) = wireID mt
         ∧ Int64.in_range (v (f mt)) ∧ Int64.in_range (lastLogVal (f mt))) →
  Inv (set_heap (alter f m (heap st)) st).
Proof.
  intros [Hreg Hnames Hvals Hrange Hinj Hcount Hsize Hpool Hsorted] Hf.
  destruct (heap st !! m) as [mt0|] eqn:Hm0; cycle 1.
  { assert (alter f m (heap st) = heap st) as ->.
    { apply list_eq. intros i. rewrite list_lookup_alter.
      case_decide; [subst; by rewrite Hm0|done]. }
    by destruct st. }
  destruct (Hf mt0 eq_refl) as (Hn0 & Hw0 & Hv0 & Hl0).
  rewrite (alter_insert _ _ _ _ Hm0).
  assert (Hlt : (m < length (heap st))%nat) by by eapply lookup_lt_Some.
  assert (Hlook : ∀ i mt, <[m := f mt0]> (heap st) !! i = Some mt →
    ∃ mt1, heap st !! i = Some mt1 ∧ name mt = name mt1
           ∧ wireID mt = wireID mt1
           ∧ Int64.in_range (v mt) ∧ Int64.in_range (lastLogVal mt)).
  { intros i mt Hi. destruct (decide (m = i)) as [<-|Hne].
    - rewrite list_lookup_insert_eq in Hi by done. simplify_eq. eauto 10.
    - rewrite list_lookup_insert_ne in Hi by done.
      destruct (Hvals i mt Hi). eauto 10. }
  split; simpl.
  - intros k m' Hk. destruct (Hreg k m' Hk) as (mt & Hmt & Hn).
    destruct (decide (m = m')) as [<-|Hne].
    + rewrite list_lookup_insert_eq by done. simplify_eq. eauto.
    + rewrite list_lookup_insert_ne by done. eauto.
  - intros i mt (mt1 & H1 & -> & _)%Hlook. by eapply Hnames.
  - intros i mt (mt1 & H1 & _ & _ & ? & ?)%Hlook. done.
  - intros i mt (mt1 & H1 & _ & -> & _)%Hlook. by eapply Hrange.
  - intros i1 i2 mt1 mt2 (a1 & H1 & _ & -> & _)%Hlook
      (a2 & H2 & _ & -> & _)%Hlook. by eapply Hinj.
  - rewrite (assigned_insert _ _ _ _ Hm0), Hw0. lia.
  - by rewrite length_insert.
  - done.
  - intros Hd. destruct (Hsorted Hd) as [Hperm Hs]. split; [done|].
    eapply sortedByName_ext; [|exact Hs].
    intros i _. unfold deref. simpl.
    destruct (decide (m = i)) as [<-|Hne].
    + rewrite list_lookup_insert_eq by done. by rewrite Hm0.
    + by rewrite list_lookup_insert_ne by done.
Qed.

Lemma Inv_set_lastDelta st t : Inv st → Inv (set_lastDelta t st).
Proof. intros []. by split. Qed.

Lemma Inv_set_deltaPool st p :
  Inv st → Forall encOK p → Inv (set_deltaPool p st).
Proof. intros [] ?. by split. Qed.
End InvFacts.

(** ** Registration, the sorted view and the exposition text *)

Module RegistryFacts.
Import NameFacts InvFacts.
Implicit Types (m : loc) (mt : Metric) (st : State).
Implicit Types (order : list (string * loc)).

Lemma NewUnpublished_valid nm ty st :
  validName nm = true →
  NewUnpublished nm ty st
  = (Ok (length (heap st)),
     set_heap (heap st ++ [mkMetric 0 nm ty 0 Time.zero 0]) st).
Proof.
  intros Hv. unfold NewUnpublished. cbn zeta. by rewrite illegal_test, Hv.
Qed.

Lemma NewUnpublished_invalid nm ty st :
  validName nm = false →
  NewUnpublished nm ty st
  = (Panic (PanicIllegalName nm (IndexFunc nm isIllegalMetricRune)), st).
Proof.
  intros Hv. unfold NewUnpublished. cbn zeta. by rewrite illegal_test, Hv.
Qed.

Lemma Publish_unnamed m st :
  name (deref st m) = "" → Publish m st = (Panic PanicUnnamed, st).
Proof. intros Hn. unfold Publish, bind, gets. by rewrite Hn. Qed.

Lemma Publish_duplicate m st :
  name (deref st m) ≠ "" → is_Some (metrics st !! name (deref st m)) →
  Publish m st = (Panic (PanicDuplicate (name (deref st m))), st).
Proof.
  intros Hn [m' Hdup]. unfold Publish, bind, gets.
  apply String.eqb_neq in Hn. by rewrite Hn, Hdup.
Qed.

Lemma Publish_fresh m st :
  name (deref st m) ≠ "" → metrics st !! name (deref st m) = None →
  Publish m st
  = (Ok tt,
     set_sortedDirty true
       (set_metrics (<[name (deref st m) := m]> (metrics st)) st)).
Proof.
  intros Hn Hfresh. unfold Publish, bind, gets.
  apply String.eqb_neq in Hn. by rewrite Hn, Hfresh.
Qed.

Lemma deref_alloc st mt :
  deref (set_heap (heap st ++ [mt]) st) (length (heap st)) = mt.
Proof. unfold deref. simpl. by rewrite list_lookup_middle. Qed.

(** Construct-then-register, for either type. *)
Lemma register_invalid nm ty st :
  validName nm = false →
  (m <~ NewUnpublished nm ty ;; Publish m ;;; ret m) st
  = (Panic (PanicIllegalName nm (IndexFunc nm isIllegalMetricRune)), st).
Proof. intros Hv. unfold bind. by rewrite NewUnpublished_invalid. Qed.

Lemma register_duplicate nm ty st :
  validName nm = true → is_Some (metrics st !! nm) →
  (m <~ NewUnpublished nm ty ;; Publish m ;;; ret m) st
  = (Panic (PanicDuplicate nm), set_heap (heap st ++ [fresh nm ty]) st).
Proof.
  intros Hv Hdup. unfold bind at 1. rewrite NewUnpublished_valid by done.
  unfold bind. rewrite Publish_duplicate; rewrite deref_alloc; simpl; try done.
  by apply validName_nonempty.
Qed.

Lemma register_fresh nm ty st :
  validName nm = true → metrics st !! nm = None →
  (m <~ NewUnpublished nm ty ;; Publish m ;;; ret m) st
  = (Ok (length (heap st)),
     set_sortedDirty true
       (set_metrics (<[nm := length (heap st)]> (metrics st))
          (set_heap (heap st ++ [fresh nm ty]) st))).
Proof.
  intros Hv Hfresh. unfold bind at 1. rewrite NewUnpublished_valid by done.
  unfold bind. rewrite Publish_fresh; rewrite deref_alloc; simpl; try done.
  by apply validName_nonempty.
Qed.

(** *** [Metrics] *)

Lemma forRange_append order st :
  forRange order
    (λ _ km, modify (λ st, set_sorted (sorted st ++ [km.2]) st)) tt st
  = (Ok tt, set_sorted (sorted st ++ order.*2) st).
Proof.
  revert st. induction order as [|km order IH]; intros st.
  - simpl. unfold ret. rewrite app_nil_r. by destruct st.
  - cbn [forRange]. unfold bind, modify at 1. rewrite IH.
    destruct st. simpl. unfold set_sorted. simpl.
    by rewrite <- app_assoc.
Qed.

Lemma Metrics_dirty order st :
  sortedDirty st = true →
  Metrics order st
  = (Ok (sortSlice (lessByName st) order.*2),
     set_sorted (sortSlice (lessByName st) order.*2)
       (set_sortedDirty false st)).
Proof.
  intros Hd. unfold Metrics. unfold bind at 1. unfold gets at 1. rewrite Hd.
  unfold bind at 1. unfold bind at 1. unfold bind at 1. unfold bind at 1.
  unfold modify at 1. unfold modify at 1.
  rewrite forRange_append.
  by destruct st.
Qed.

Lemma Metrics_clean order st :
  sortedDirty st = false → Metrics order st = (Ok (sorted st), st).
Proof.
  intros Hd. unfold Metrics, bind, gets. by rewrite Hd.
Qed.

Lemma lessByName_key st :
  lessByName st = λ a b, String.ltb (name (deref st a)) (name (deref st b)).
Proof. reflexivity. Qed.

(** What [Metrics] returns and leaves, in a state of the registry. *)
Lemma Metrics_spec order st :
  Inv st → rangeOrder st order →
  ∃ l, Metrics order st = (Ok l, set_sorted l (set_sortedDirty false st))
       ∧ l ≡ₚ registered st ∧ sortedByName st l
       ∧ Inv (set_sorted l (set_sortedDirty false st)).
Proof.
  intros HI Ho. destruct (sortedDirty st) eqn:Hd.
  - eexists. split; [by apply Metrics_dirty|].
    assert (Hperm : sortSlice (lessByName st) order.*2 ≡ₚ registered st).
    { rewrite sortSlice_perm. by apply rangeOrder_registered. }
    assert (Hs : sortedByName st (sortSlice (lessByName st) order.*2)).
    { unfold sortedByName, nameLt. rewrite lessByName_key.
      apply (sortSlice_sorted (λ m, name (deref st m))).
      rewrite <- list_fmap_compose.
      change ((λ m, name (deref st m)) ∘ snd)
        with (λ km : string * loc, name (deref st km.2)).
      rewrite (registered_names st order HI Ho).
      by eapply rangeOrder_NoDup_fst. }
    split; [done|]. split; [done|].
    destruct HI. by split.
  - exists (sorted st).
    assert (set_sorted (sorted st) (set_sortedDirty false st) = st) as ->.
    { destruct st. simpl in Hd. by subst. }
    split; [by apply Metrics_clean|].
    destruct (inv_sorted st HI Hd). done.
Qed.

(** *** [WritePrometheusExpositionFormat] *)

Lemma exposition_loop ms w st :
  forRange ms
    (λ w m,
       ty <~ Type' m ;;
       nm <~ Name m ;;
       let w := if ty =? TypeGauge
                then w +:+ "# TYPE " +:+ nm +:+ " gauge" +:+ newline
                else if ty =? TypeCounter
                then w +:+ "# TYPE " +:+ nm +:+ " counter" +:+ newline
                else w in
       nm <~ Name m ;;
       val <~ Value m ;;
       ret (w +:+ nm +:+ " " +:+ pretty val +:+ newline))
    w st
  = (Ok (w +:+ exposition st ms), st).
Proof.
  revert w. induction ms as [|m ms IH]; intros w.
  - simpl. unfold ret. by rewrite app_empty_r.
  - cbn [forRange exposition]. unfold bind at 1.
    unfold bind at 1, Type' at 1, gets at 1.
    unfold bind at 1, Name at 1, gets at 1. cbn zeta.
    unfold bind at 1, Name at 1, gets at 1.
    unfold bind at 1, Value at 1, gets at 1. unfold ret at 1.
    rewrite IH. do 2 f_equal.
    unfold expositionOf, typeLine, valueLine, typeWord.
    destruct (typ (deref st m) =? TypeGauge);
      [|destruct (typ (deref st m) =? TypeCounter)];
      rewrite ?app_assoc_s, ?app_empty_l; reflexivity.
Qed.

Lemma exposition_heap st' st ms :
  heap st' = heap st → exposition st' ms = exposition st ms.
Proof.
  intros Hh. induction ms as [|m ms IH]; [done|].
  cbn [exposition]. unfold deref. by rewrite Hh, IH.
Qed.

Lemma WritePrometheus_spec order w st :
  Inv st → rangeOrder st order →
  ∃ l, WritePrometheusExpositionFormat order w st
       = (Ok (w +:+ exposition st l), set_sorted l (set_sortedDirty false st))
       ∧ l ≡ₚ registered st ∧ sortedByName st l
       ∧ Inv (set_sorted l (set_sortedDirty false st)).
Proof.
  intros HI Ho. destruct (Metrics_spec order st HI Ho) as (l & HM & Hp & Hs & HI').
  exists l. split; [|done].
  unfold WritePrometheusExpositionFormat. unfold bind at 1. rewrite HM.
  rewrite exposition_loop.
  by rewrite (exposition_heap _ st) by by destruct st.
Qed.

(** *** [Add] and [Set] *)

Lemma Inv_Add st m n : Inv st → Inv (Add m n st).2.
Proof.
  intros HI. apply Inv_update; [done|]. intros mt Hm. simpl.
  destruct (inv_values st HI m mt Hm).
  split; [done|]. split; [done|]. split; [|done].
  apply Int64Facts.wrap_in_range.
Qed.

Lemma Inv_Set st m x : Inv st → Int64.in_range x → Inv (Set' m x st).2.
Proof.
  intros HI Hx. apply Inv_update; [done|]. intros mt Hm. simpl.
  by destruct (inv_values st HI m mt Hm).
Qed.

Lemma Inv_NewUnpublished st nm ty :
  Inv st → Z.of_nat (String.length nm) <= Int64.max_int →
  Z.of_nat (length (heap st)) < Int64.max_int →
  Inv (NewUnpublished nm ty st).2.
Proof.
  intros HI Hlen Hroom. destruct (validName nm) eqn:Hv.
  - rewrite NewUnpublished_valid by done. by apply Inv_alloc.
  - by rewrite NewUnpublished_invalid.
Qed.

Lemma Inv_Publish st m : Inv st → Inv (Publish m st).2.
Proof.
  intros HI. destruct (decide (name (deref st m) = "")) as [Hn|Hn].
  { by rewrite Publish_unnamed. }
  destruct (metrics st !! name (deref st m)) as [m'|] eqn:Hdup.
  { by rewrite Publish_duplicate. }
  rewrite Publish_fresh by done. simpl.
  destruct (heap st !! m) as [mt|] eqn:Hm.
  - rewrite (deref_Some _ _ _ Hm) in *. by apply Inv_publish.
  - unfold deref in Hn. rewrite Hm in Hn. done.
Qed.

Lemma Inv_register st nm ty :
  Inv st → Z.of_nat (String.length nm) <= Int64.max_int →
  Z.of_nat (length (heap st)) < Int64.max_int →
  Inv ((m <~ NewUnpublished nm ty ;; Publish m ;;; ret m) st).2.
Proof.
  intros HI Hlen Hroom. destruct (validName nm) eqn:Hv.
  - assert (HI' : Inv (set_heap (heap st ++ [fresh nm ty]) st))
      by by apply Inv_alloc.
    destruct (metrics st !! nm) as [m'|] eqn:Hdup.
    + by rewrite register_duplicate.
    + rewrite register_fresh by done. simpl.
      apply (Inv_publish _ (length (heap st)) (fresh nm ty) HI'); simpl.
      * by rewrite list_lookup_middle.
      * done.
  - by rewrite register_invalid.
Qed.
End RegistryFacts.

(** ** The encoder: the loop body and the scan *)

Module EncoderFacts.
Import InvFacts EncFacts.
Implicit Types (h : list Metric) (m : loc) (mt : Metric) (st : State).
Implicit Types (order : list (string * loc)).

Lemma alter_insert_same h m mt (f : Metric → Metric) :
  (m < length h)%nat → alter f m (<[m := mt]> h) = <[m := f mt]> h.
Proof.
  intros Hlt.
  rewrite (alter_insert _ _ mt) by by apply list_lookup_insert_eq.
  by rewrite list_insert_insert_eq.
Qed.

Lemma wire_in_range st m mt :
  Inv st → heap st !! m = Some mt → Int64.in_range (wireID mt).
Proof.
  intros HI Hm. pose proof (inv_wire_range st HI m mt Hm).
  pose proof (inv_wire_count st HI). pose proof (inv_heap_size st HI).
  pose proof (assigned_bounds (heap st)).
  unfold Int64.in_range, Int64.min_int, Int64.max_int in *. lia.
Qed.

Lemma next_wire_exact st m mt :
  Inv st → heap st !! m = Some mt → wireID mt = 0 →
  Int64.add (numWireID st) 1 = numWireID st + 1
  ∧ 0 < numWireID st + 1 <= Int64.max_int.
Proof.
  intros HI Hm Hw.
  pose proof (inv_wire_count st HI). pose proof (inv_heap_size st HI).
  pose proof (assigned_bounds (heap st)).
  pose proof (assigned_lt _ _ _ Hm Hw).
  assert (0 < numWireID st + 1 <= Int64.max_int) by lia.
  split; [|done]. apply Int64Facts.add_exact.
  unfold Int64.in_range, Int64.min_int, Int64.max_int in *. lia.
Qed.

Lemma encodeChanged_spec now m st mt e :
  Inv st → heap st !! m = Some mt → encOK e →
  (Int64.sub (v mt) (lastLogVal mt) =? 0) = false →
  ∃ e',
    encodeChanged now m (v mt) (Int64.sub (v mt) (lastLogVal mt)) e st
    = (Ok (Some e'),
       set_numWireID (scanMetric now (numWireID st) mt).2
         (set_heap (<[m := (scanMetric now (numWireID st) mt).1.2]> (heap st)) st))
    ∧ encOK e'
    ∧ buf e' = buf e +:+ Wire.renderAll (scanMetric now (numWireID st) mt).1.1.
Proof.
  intros HI Hm He Hdelta.
  pose proof (wire_in_range st m mt HI Hm) as Hwr.
  destruct (inv_values st HI m mt Hm) as [Hv Hl].
  destruct (inv_names st HI m mt Hm) as [_ Hlen].
  assert (Hlt : (m < length (heap st))%nat) by by eapply lookup_lt_Some.
  unfold scanMetric. cbn zeta. rewrite Hdelta.
  unfold encodeChanged, dueName.
  destruct st as [h ms n ld sd so pool]. simpl in *.
  unfold bind, update, modify, gets, ret, Name, deref.
  unfold set_heap, set_numWireID. simpl.
  rewrite (alter_insert _ _ _ _ Hm).
  rewrite !list_lookup_insert_eq by done. simpl.
  destruct (wireID mt =? 0) eqn:Hw.
  - apply Z.eqb_eq in Hw.
    destruct (next_wire_exact _ m mt HI Hm Hw) as [Hadd Hnext].
    simpl in Hadd, Hnext.
    assert (Hnr : Int64.in_range (n + 1))
      by (unfold Int64.in_range, Int64.min_int in *; lia).
    simpl. rewrite Hadd.
    rewrite !alter_insert_same by done.
    rewrite !list_lookup_insert_eq by done. simpl.
    destruct (Time.IsZero (lastNamed mt) || (Time.Sub now (lastNamed mt) >? metricLogNameFrequency)) eqn:Hdue.
    + simpl. rewrite !list_lookup_insert_eq by done. simpl.
      destruct (writeName_spec e (name mt) He Hlen) as (e1 & -> & Hb1 & Hok1).
      simpl. rewrite !alter_insert_same by done.
      rewrite !list_lookup_insert_eq by done. simpl.
      destruct (writeValue_spec e1 (n + 1) (v mt) Hok1 Hnr Hv) as (e2 & -> & Hb2 & Hok2).
      simpl. exists e2. split; [reflexivity|]. split; [done|].
      rewrite Hb2, Hb1. by rewrite app_assoc_s, app_empty_r.
    + simpl. rewrite !list_lookup_insert_eq by done. simpl.
      destruct (writeDelta_spec e (n + 1) (Int64.sub (v mt) (lastLogVal mt)) He Hnr (Int64Facts.wrap_in_range _)) as (e1 & -> & Hb1 & Hok1).
      simpl. exists e1. split; [reflexivity|]. split; [done|].
      by rewrite Hb1, app_empty_r.
  - simpl. rewrite ?list_lookup_insert_eq by done. simpl.
    destruct (Time.IsZero (lastNamed mt) || (Time.Sub now (lastNamed mt) >? metricLogNameFrequency)) eqn:Hdue.
    + simpl. rewrite !list_lookup_insert_eq by done. simpl.
      destruct (writeName_spec e (name mt) He Hlen) as (e1 & -> & Hb1 & Hok1).
      simpl. rewrite !alter_insert_same by done.
      rewrite !list_lookup_insert_eq by done. simpl.
      destruct (writeValue_spec e1 (wireID mt) (v mt) Hok1 Hwr Hv) as (e2 & -> & Hb2 & Hok2).
      simpl. exists e2. split; [reflexivity|]. split; [done|].
      rewrite Hb2, Hb1. by rewrite app_assoc_s, app_empty_r.
    + simpl. rewrite !list_lookup_insert_eq by done. simpl.
      destruct (writeDelta_spec e (wireID mt) (Int64.sub (v mt) (lastLogVal mt)) He Hwr (Int64Facts.wrap_in_range _)) as (e1 & -> & Hb1 & Hok1).
      simpl. exists e1. split; [reflexivity|]. split; [done|].
      by rewrite Hb1, app_empty_r.
Qed.

Lemma lazyBuf_spec enc st :
  Forall encOK (deltaPool st) → encOKopt enc →
  ∃ e pool',
    lazyBuf enc st = (Ok e, set_deltaPool pool' st)
    ∧ encOK e ∧ buf e = bufOf enc ∧ Forall encOK pool'.
Proof.
  intros Hpool Henc. destruct enc as [e|]; simpl.
  - exists e, (deltaPool st). unfold ret. split; [by destruct st|].
    split; [by apply Henc|done].
  - unfold bind, poolGet. destruct (deltaPool st) as [|e p] eqn:Hp.
    + exists (Reset newDeltaEncBuf), []. unfold ret.
      split; [destruct st; simpl in *; by subst|]. done.
    + exists (Reset e), p. unfold ret. split; [done|].
      apply Forall_cons in Hpool as [He Hp']. done.
Qed.

(** One object replaced by one of the same name, with the same wireID or
    with the next one. *)
Lemma Inv_insert st m mt mt' n' :
  Inv st → heap st !! m = Some mt →
  name mt' = name mt →
  Int64.in_range (v mt') → Int64.in_range (lastLogVal mt') →
  (wireID mt' = wireID mt ∧ n' = numWireID st)
  ∨ (wireID mt = 0 ∧ wireID mt' = numWireID st + 1 ∧ n' = numWireID st + 1) →
  Inv (set_numWireID n' (set_heap (<[m := mt']> (heap st)) st)).
Proof.
  intros [Hreg Hnames Hvals Hrange Hinj Hcount Hsize Hpool Hsorted]
    Hm Hn Hv Hl Hw.
  assert (Hlt : (m < length (heap st))%nat) by by eapply lookup_lt_Some.
  pose proof (Hrange m mt Hm) as Hmr.
  assert (Hn' : numWireID st <= n') by (destruct Hw as [[_ ->]|(_ & _ & ->)]; lia).
  assert (Hw' : 0 <= wireID mt' <= n') by (destruct Hw as [[-> ->]|(_ & -> & ->)]; lia).
  assert (Hlook : ∀ i a, <[m := mt']> (heap st) !! i = Some a →
    (i = m ∧ a = mt') ∨ (i ≠ m ∧ heap st !! i = Some a)).
  { intros i a Hi. destruct (decide (m = i)) as [<-|Hne].
    - rewrite list_lookup_insert_eq in Hi by done. left. by simplify_eq.
    - rewrite list_lookup_insert_ne in Hi by done. by right. }
  split; simpl.
  - intros k m' Hk. destruct (Hreg k m' Hk) as (a & Ha & Hna).
    destruct (decide (m = m')) as [<-|Hne].
    + rewrite list_lookup_insert_eq by done. simplify_eq. eauto.
    + rewrite list_lookup_insert_ne by done. eauto.
  - intros i a [[-> ->]|[_ Hi]]%Hlook; [rewrite Hn|]; by eapply Hnames.
  - intros i a [[-> ->]|[_ Hi]]%Hlook; [done|by eapply Hvals].
  - intros i a [[-> ->]|[_ Hi]]%Hlook; [done|].
    pose proof (Hrange i a Hi). lia.
  - intros i1 i2 a1 a2 [[-> ->]|[Hne1 H1]]%Hlook [[-> ->]|[Hne2 H2]]%Hlook
      Hnz Heq; [done| | |by eapply Hinj].
    + destruct Hw as [[Hsame _]|(_ & Hnew & _)].
      * rewrite Hsame in *. by eapply Hinj.
      * pose proof (Hrange i2 a2 H2). lia.
    + destruct Hw as [[Hsame _]|(_ & Hnew & _)].
      * rewrite Hsame in *. by eapply Hinj.
      * pose proof (Hrange i1 a1 H1). lia.
  - rewrite (assigned_insert _ _ _ _ Hm).
    destruct Hw as [[-> ->]|(Hz & Hnew & ->)]; [lia|].
    rewrite Hz, Hnew. simpl.
    assert ((numWireID st + 1 =? 0) = false) as -> by (apply Z.eqb_neq; lia).
    lia.
  - by rewrite length_insert.
  - done.
  - intros Hd. destruct (Hsorted Hd) as [Hperm Hs]. split; [done|].
    eapply sortedByName_ext; [|exact Hs].
    intros i _. unfold deref. simpl.
    destruct (decide (m = i)) as [<-|Hne].
    + rewrite list_lookup_insert_eq by done. by rewrite Hm.
    + by rewrite list_lookup_insert_ne by done.
Qed.

(** What the loop body makes of a metric, case by case. *)
Lemma scanMetric_unchanged now n mt :
  (Int64.sub (v mt) (lastLogVal mt) =? 0) = true →
  scanMetric now n mt = ([], mt, n).
Proof. intros H. unfold scanMetric. cbn zeta. by rewrite H. Qed.

Lemma scanMetric_changed now n mt :
  (Int64.sub (v mt) (lastLogVal mt) =? 0) = false →
  scanMetric now n mt
  = (if dueName now mt
     then [Wire.NameRec (name mt);
           Wire.ValueRec (if wireID mt =? 0 then Int64.add n 1 else wireID mt)
             (v mt)]
     else [Wire.IncRec (if wireID mt =? 0 then Int64.add n 1 else wireID mt)
             (Int64.sub (v mt) (lastLogVal mt))],
     mkMetric (v mt) (name mt) (typ mt)
       (if wireID mt =? 0 then Int64.add n 1 else wireID mt)
       (if dueName now mt then now else lastNamed mt) (v mt),
     if wireID mt =? 0 then Int64.add n 1 else n).
Proof.
  intros H. unfold scanMetric. cbn zeta. rewrite H.
  by destruct (wireID mt =? 0), (dueName now mt).
Qed.

Lemma scanMetric_name now n mt : name (scanMetric now n mt).1.2 = name mt.
Proof.
  destruct (Int64.sub (v mt) (lastLogVal mt) =? 0) eqn:H.
  - by rewrite scanMetric_unchanged.
  - by rewrite scanMetric_changed.
Qed.

Lemma Inv_scanMetric now st m mt :
  Inv st → heap st !! m = Some mt →
  Inv (set_numWireID (scanMetric now (numWireID st) mt).2
         (set_heap (<[m := (scanMetric now (numWireID st) mt).1.2]> (heap st)) st)).
Proof.
  intros HI Hm.
  destruct (inv_values st HI m mt Hm) as [Hv Hl].
  destruct (Int64.sub (v mt) (lastLogVal mt) =? 0) eqn:Hdelta.
  - rewrite scanMetric_unchanged by done. simpl.
    rewrite list_insert_id by done. by destruct st.
  - rewrite scanMetric_changed by done. cbn [fst snd].
    eapply Inv_insert; try done.
    destruct (wireID mt =? 0) eqn:Hw; cbn [wireID].
    + apply Z.eqb_eq in Hw.
      destruct (next_wire_exact st m mt HI Hm Hw) as [-> _]. by right.
    + by left.
Qed.

Lemma scanMetric_wf now st m mt :
  Inv st → heap st !! m = Some mt →
  Forall wfRecord (scanMetric now (numWireID st) mt).1.1.
Proof.
  intros HI Hm.
  destruct (inv_values st HI m mt Hm) as [Hv Hl].
  destruct (inv_names st HI m mt Hm) as [_ Hlen].
  pose proof (wire_in_range st m mt HI Hm) as Hwr.
  destruct (Int64.sub (v mt) (lastLogVal mt) =? 0) eqn:Hdelta.
  - rewrite scanMetric_unchanged by done. constructor.
  - rewrite scanMetric_changed by done. cbn [fst snd].
    assert (Hwid : Int64.in_range
              (if wireID mt =? 0 then Int64.add (numWireID st) 1 else wireID mt)).
    { destruct (wireID mt =? 0); [apply Int64Facts.wrap_in_range|done]. }
    destruct (dueName now mt).
    + constructor; [exact Hlen|]. constructor; [by split|constructor].
    + constructor; [|constructor].
      split; [done|apply Int64Facts.wrap_in_range].
Qed.

(** The loop body of the encoder does to the store and to the buffer what
    [scanMetric] says. *)
Lemma encodeMetric_spec now enc k m st mt :
  Inv st → heap st !! m = Some mt → encOKopt enc →
  ∃ enc' pool',
    encodeMetric now enc (k, m) st
    = (Ok enc',
       set_deltaPool pool'
         (set_numWireID (scanMetric now (numWireID st) mt).2
            (set_heap (<[m := (scanMetric now (numWireID st) mt).1.2]> (heap st)) st)))
    ∧ Forall encOK pool' ∧ encOKopt enc'
    ∧ bufOf enc'
      = bufOf enc +:+ Wire.renderAll (scanMetric now (numWireID st) mt).1.1.
Proof.
  intros HI Hm Henc.
  unfold encodeMetric. cbn [snd].
  unfold bind at 1, Value at 1, gets at 1.
  unfold bind at 1, gets at 1. rewrite (deref_Some _ _ _ Hm). cbn zeta.
  destruct (Int64.sub (v mt) (lastLogVal mt) =? 0) eqn:Hdelta.
  - rewrite scanMetric_unchanged by done. cbn [fst snd].
    exists enc, (deltaPool st). unfold ret.
    rewrite list_insert_id by done.
    split; [by destruct st|]. split; [by apply (inv_pool st HI)|].
    split; [done|]. by rewrite app_empty_r.
  - destruct (lazyBuf_spec enc st (inv_pool st HI) Henc)
      as (e & pool' & Hlazy & He & Hbuf & Hpool').
    unfold bind at 1. rewrite Hlazy.
    assert (HI' : Inv (set_deltaPool pool' st))
      by by apply Inv_set_deltaPool.
    destruct (encodeChanged_spec now m (set_deltaPool pool' st) mt e HI' Hm He Hdelta)
      as (e' & Hrun & He' & Hbuf').
    exists (Some e'), pool'. rewrite Hrun.
    split; [by destruct st|]. split; [done|].
    split; [by intros ? [= <-]|].
    cbn [bufOf]. by rewrite Hbuf', Hbuf.
Qed.

(** *** The loop *)

Lemma scan_cons now k m order h n :
  scan now ((k, m) :: order) h n
  = let s := scanMetric now n (default zeroMetric (h !! m)) in
    let t := scan now order (<[m := s.1.2]> h) s.2 in
    (s.1.1 :: t.1.1, t.1.2, t.2).
Proof.
  cbn [scan snd].
  destruct (scanMetric now n (default zeroMetric (h !! m))) as [[r mt'] n'].
  cbn [fst snd]. by destruct (scan now order (<[m:=mt']> h) n') as [[rs h'] n''].
Qed.

Lemma live_insert h order m mt :
  live h order → live (<[m := mt]> h) order.
Proof.
  intros Hl. eapply Forall_impl; [exact Hl|]. intros km Hkm.
  cbv beta in *. apply lookup_lt_is_Some. rewrite length_insert.
  by apply lookup_lt_is_Some.
Qed.

Lemma rangeOrder_live st order :
  Inv st → rangeOrder st order → live (heap st) order.
Proof.
  intros HI Ho. apply Forall_forall. intros [k m] Hin.
  apply list_elem_of_lookup in Hin as [i Hi].
  destruct (rangeOrder_lookup st order i k m HI Ho Hi) as (mt & Hm & _).
  by exists mt.
Qed.

Lemma Inv_scan now order st :
  Inv st → live (heap st) order →
  Inv (set_numWireID (scan now order (heap st) (numWireID st)).2
         (set_heap (scan now order (heap st) (numWireID st)).1.2 st)).
Proof.
  revert st. induction order as [|[k m] order IH]; intros st HI Hlive.
  - simpl. by destruct st.
  - apply Forall_cons in Hlive as [[mt Hm] Hlive]. simpl in Hm.
    rewrite scan_cons. cbn zeta. cbn [fst snd]. rewrite Hm. cbn [default].
    pose proof (Inv_scanMetric now st m mt HI Hm) as HI1.
    specialize (IH _ HI1). simpl in IH.
    specialize (IH (live_insert _ _ _ _ Hlive)).
    by destruct st.
Qed.

Lemma scan_loop now order st enc :
  Inv st → live (heap st) order → encOKopt enc →
  ∃ enc' pool',
    forRange order (encodeMetric now) enc st
    = (Ok enc',
       set_deltaPool pool'
         (set_numWireID (scan now order (heap st) (numWireID st)).2
            (set_heap (scan now order (heap st) (numWireID st)).1.2 st)))
    ∧ Forall encOK pool' ∧ encOKopt enc'
    ∧ bufOf enc'
      = bufOf enc
        +:+ Wire.renderAll (concat (scan now order (heap st) (numWireID st)).1.1).
Proof.
  revert st enc. induction order as [|[k m] order IH]; intros st enc HI Hlive Henc.
  - exists enc, (deltaPool st). simpl. unfold ret.
    split; [by destruct st|]. split; [by apply (inv_pool st HI)|].
    split; [done|]. by rewrite app_empty_r.
  - apply Forall_cons in Hlive as [[mt Hm] Hlive]. simpl in Hm.
    destruct (encodeMetric_spec now enc k m st mt HI Hm Henc)
      as (enc1 & pool1 & Hrun1 & Hpool1 & Henc1 & Hbuf1).
    cbn [forRange]. unfold bind at 1. rewrite Hrun1.
    pose proof (Inv_scanMetric now st m mt HI Hm) as HI1.
    apply (Inv_set_deltaPool _ pool1) in HI1; [|done].
    destruct (IH _ enc1 HI1) as (enc2 & pool2 & Hrun2 & Hpool2 & Henc2 & Hbuf2).
    { simpl. by apply live_insert. }
    { done. }
    exists enc2, pool2. rewrite Hrun2.
    rewrite scan_cons. cbn zeta. cbn [fst snd]. rewrite Hm. cbn [default].
    split; [by destruct st|]. split; [done|]. split; [done|].
    rewrite Hbuf2, Hbuf1. cbn [concat heap numWireID set_deltaPool set_numWireID set_heap].
    by rewrite renderAll_app, app_assoc_s.
Qed.

(** *** [EncodeLogTailMetricsDelta] as a whole *)

Lemma Encode_limited now order st :
  Time.IsZero (lastDelta st) = false →
  Time.Sub now (lastDelta st) < minMetricEncodeInterval →
  EncodeLogTailMetricsDelta now order st = (Ok "", st).
Proof.
  intros Hz Hsub. unfold EncodeLogTailMetricsDelta, bind, gets.
  rewrite Hz. apply Z.ltb_lt in Hsub. by rewrite Hsub.
Qed.

Lemma notLimited_test st now :
  notLimited st now →
  negb (Time.IsZero (lastDelta st))
  && (Time.Sub now (lastDelta st) <? minMetricEncodeInterval) = false.
Proof.
  intros [Hz|Hge]; [by rewrite Hz|].
  apply andb_false_iff. right. by apply Z.ltb_ge.
Qed.

Lemma Encode_scan now order st :
  Inv st → rangeOrder st order → notLimited st now →
  ∃ pool',
    EncodeLogTailMetricsDelta now order st
    = (Ok (Wire.renderAll (concat (scan now order (heap st) (numWireID st)).1.1)),
       set_deltaPool pool'
         (set_lastDelta now
            (set_numWireID (scan now order (heap st) (numWireID st)).2
               (set_heap (scan now order (heap st) (numWireID st)).1.2 st))))
    ∧ Inv (set_deltaPool pool'
             (set_lastDelta now
                (set_numWireID (scan now order (heap st) (numWireID st)).2
                   (set_heap (scan now order (heap st) (numWireID st)).1.2 st)))).
Proof.
  intros HI Ho Hnl.
  pose proof (rangeOrder_live st order HI Ho) as Hlive.
  unfold EncodeLogTailMetricsDelta. unfold bind at 1, gets at 1.
  rewrite notLimited_test by done.
  unfold bind at 1, modify at 1. unfold scanMetrics.
  destruct (scan_loop now order (set_lastDelta now st) None)
    as (enc' & pool' & Hrun & Hpool & Henc & Hbuf).
  { by apply Inv_set_lastDelta. }
  { done. }
  { by intros ? [=]. }
  unfold bind at 1. rewrite Hrun. cbn [bufOf] in Hbuf.
  rewrite app_empty_l in Hbuf.
  cbn [heap numWireID set_lastDelta] in *.
  pose proof (Inv_scan now order st HI Hlive) as HI'.
  destruct enc' as [e|]; cbn [bufOf] in Hbuf.
  - exists (e :: pool'). unfold bind, poolPut, modify, ret. rewrite Hbuf.
    split; [by destruct st|].
    apply Inv_set_deltaPool; [by apply Inv_set_lastDelta|].
    constructor; [by apply Henc|done].
  - exists pool'. unfold ret. rewrite <- Hbuf.
    split; [by destruct st|].
    apply Inv_set_deltaPool; [by apply Inv_set_lastDelta|done].
Qed.

Lemma Encode_records_first now order st :
  notLimited st now →
  EncodeLogTailMetricsDelta now order st
  = scanMetrics now order (set_lastDelta now st).
Proof.
  intros Hnl. unfold EncodeLogTailMetricsDelta. unfold bind at 1, gets at 1.
  by rewrite notLimited_test by done.
Qed.
End EncoderFacts.

(** ** Reachable states satisfy the invariant *)

Module ReachFacts.
Import InvFacts RegistryFacts EncoderFacts.
Implicit Types (m : loc) (mt : Metric) (st : State).
Implicit Types (order : list (string * loc)).

Lemma discard_result {A} (c : M A) st : ((c ;;; ret tt) st).2 = (c st).2.
Proof. unfold bind, ret. by destruct (c st) as [[a|p] st']. Qed.

Lemma NewCounter_unfold nm :
  NewCounter nm = (m <~ NewUnpublished nm TypeCounter ;; Publish m ;;; ret m).
Proof. reflexivity. Qed.

Lemma NewGauge_unfold nm :
  NewGauge nm = (m <~ NewUnpublished nm TypeGauge ;; Publish m ;;; ret m).
Proof. reflexivity. Qed.

Lemma Inv_Encode now order st :
  Inv st → rangeOrder st order →
  Inv (EncodeLogTailMetricsDelta now order st).2.
Proof.
  intros HI Ho.
  destruct (negb (Time.IsZero (lastDelta st))
            && (Time.Sub now (lastDelta st) <? minMetricEncodeInterval))
    eqn:Htest.
  - apply andb_true_iff in Htest as [Hz Hlt].
    apply negb_true_iff in Hz. apply Z.ltb_lt in Hlt.
    by rewrite Encode_limited.
  - assert (Hnl : notLimited st now).
    { apply andb_false_iff in Htest as [Hz|Hge].
      - left. by apply negb_false_iff in Hz.
      - right. by apply Z.ltb_ge in Hge. }
    destruct (Encode_scan now order st HI Ho Hnl) as (pool' & -> & HI').
    done.
Qed.

Lemma Inv_exec c st : Inv st → admissible c st → Inv (exec c st).2.
Proof.
  intros HI Hadm. destruct c; simpl in Hadm; cbn [exec].
  - rewrite discard_result. destruct Hadm as (? & ? & _). by apply Inv_NewUnpublished.
  - by apply Inv_Publish.
  - rewrite discard_result, NewCounter_unfold. destruct Hadm.
    by apply Inv_register.
  - rewrite discard_result, NewGauge_unfold. destruct Hadm.
    by apply Inv_register.
  - by apply Inv_Add.
  - destruct Hadm. by apply Inv_Set.
  - rewrite discard_result.
    by destruct (Metrics_spec order st HI Hadm) as (l & -> & _ & _ & ?).
  - rewrite discard_result.
    by destruct (WritePrometheus_spec order w st HI Hadm) as (l & -> & _ & _ & ?).
  - rewrite discard_result. by apply Inv_Encode.
Qed.

Lemma reachable_Inv st : reachable st → Inv st.
Proof.
  induction 1 as [|st c _ IH Hadm]; [apply Inv_initial|by apply Inv_exec].
Qed.

Lemma reaches_Inv st st' : Inv st → reaches st st' → Inv st'.
Proof.
  intros HI. induction 1 as [|st' c _ IH Hadm]; [done|by apply Inv_exec].
Qed.

Lemma reaches_reachable st st' : reachable st → reaches st st' → reachable st'.
Proof.
  intros Hr. induction 1 as [|st' c _ IH Hadm]; [done|by constructor].
Qed.
End ReachFacts.

(** ** The scan, entry by entry *)

Module ScanFacts.
Import InvFacts EncFacts EncoderFacts.
Implicit Types (h : list Metric) (m : loc) (mt : Metric) (st : State).
Implicit Types (order : list (string * loc)).

Lemma scan_app now o1 o2 h n :
  scan now (o1 ++ o2) h n
  = let s := scan now o1 h n in
    let t := scan now o2 s.1.2 s.2 in
    (s.1.1 ++ t.1.1, t.1.2, t.2).
Proof.
  revert h n. induction o1 as [|[k m] o1 IH]; intros h n.
  - simpl. by destruct (scan now o2 h n) as [[??]?].
  - rewrite <- app_comm_cons, !scan_cons. cbn zeta. rewrite IH. done.
Qed.

Lemma scan_records_length now order h n :
  length (scan now order h n).1.1 = length order.
Proof.
  revert h n. induction order as [|[k m] order IH]; intros h n; [done|].
  rewrite scan_cons. cbn zeta. cbn [fst snd length]. by rewrite IH.
Qed.

Lemma scan_heap_length now order h n :
  length (scan now order h n).1.2 = length h.
Proof.
  revert h n. induction order as [|[k m] order IH]; intros h n; [done|].
  rewrite scan_cons. cbn zeta. cbn [fst snd]. by rewrite IH, length_insert.
Qed.

(** The scan leaves alone what the iteration order does not reach. *)
Lemma scan_frame now order h n m :
  m ∉ order.*2 → (scan now order h n).1.2 !! m = h !! m.
Proof.
  revert h n. induction order as [|[k m'] order IH]; intros h n Hm; [done|].
  rewrite fmap_cons in Hm. apply not_elem_of_cons in Hm as [Hne Hm].
  rewrite scan_cons. cbn zeta. cbn [fst snd]. rewrite IH by done.
  by rewrite list_lookup_insert_ne.
Qed.

Lemma filter_length_ext {A} (P Q : A → Prop)
    `{!∀ x, Decision (P x), !∀ x, Decision (Q x)} (l : list A) :
  (∀ x, x ∈ l → P x ↔ Q x) →
  length (filter P l) = length (filter Q l).
Proof.
  induction l as [|x l IH]; intros HPQ; [done|].
  rewrite !filter_cons.
  assert (HPQx : P x ↔ Q x) by (apply HPQ; by left).
  assert (IH' : length (filter P l) = length (filter Q l))
    by (apply IH; intros y Hy; apply HPQ; by right).
  destruct (decide (P x)), (decide (Q x)); simpl; try lia; tauto.
Qed.

(** [scanMetric] gives a wireID exactly to a metric that [needsID]. *)
Lemma scanMetric_num now st k m mt :
  Inv st → heap st !! m = Some mt →
  (scanMetric now (numWireID st) mt).2
  = numWireID st + (if decide (needsID st (k, m)) then 1 else 0).
Proof.
  intros HI Hm.
  destruct (inv_values st HI m mt Hm) as [Hv Hl].
  assert (Hiff : needsID st (k, m) ↔ v mt ≠ lastLogVal mt ∧ wireID mt = 0).
  { unfold needsID. cbn [snd]. by rewrite (deref_Some _ _ _ Hm). }
  destruct (Int64.sub (v mt) (lastLogVal mt) =? 0) eqn:Hdelta.
  - rewrite scanMetric_unchanged by done. cbn [snd].
    rewrite Int64Facts.sub_eqb_0 in Hdelta by done.
    apply Z.eqb_eq in Hdelta.
    destruct (decide _) as [Hn|]; [|lia].
    apply Hiff in Hn as [? _]. done.
  - rewrite scanMetric_changed by done. cbn [snd].
    rewrite Int64Facts.sub_eqb_0 in Hdelta by done.
    apply Z.eqb_neq in Hdelta.
    destruct (wireID mt =? 0) eqn:Hw.
    + apply Z.eqb_eq in Hw.
      destruct (next_wire_exact st m mt HI Hm Hw) as [-> _].
      destruct (decide _) as [|Hn]; [done|]. destruct Hn. by apply Hiff.
    + apply Z.eqb_neq in Hw.
      destruct (decide _) as [Hn|]; [|lia].
      apply Hiff in Hn as [_ ?]. done.
Qed.

Lemma needsID_frame st st' km :
  heap st' !! km.2 = heap st !! km.2 → needsID st' km ↔ needsID st km.
Proof. intros Hh. unfold needsID, deref. by rewrite Hh. Qed.

(** [numWireID] grows by the number of metrics that get a wireID. *)
Lemma scan_count now order st :
  Inv st → live (heap st) order → NoDup order.*2 →
  (scan now order (heap st) (numWireID st)).2
  = numWireID st + Z.of_nat (length (filter (needsID st) order)).
Proof.
  revert st. induction order as [|[k m] order IH]; intros st HI Hlive Hnd.
  - simpl. lia.
  - apply Forall_cons in Hlive as [[mt Hm] Hlive]. simpl in Hm.
    rewrite fmap_cons in Hnd. apply NoDup_cons in Hnd as [Hnotin Hnd].
    rewrite scan_cons. cbn zeta. cbn [fst snd]. rewrite Hm.
    change (default zeroMetric (Some mt)) with mt.
    pose proof (Inv_scanMetric now st m mt HI Hm) as HI1.
    specialize (IH _ HI1). cbn [heap numWireID set_numWireID set_heap] in IH.
    rewrite IH; [|by apply live_insert|done].
    rewrite (scanMetric_num now st k m mt HI Hm).
    rewrite filter_cons.
    rewrite (filter_length_ext _ (needsID st)).
    + destruct (decide (needsID st (k, m))); simpl; lia.
    + intros [k' m'] Hin. apply needsID_frame. cbn [snd heap set_numWireID set_heap].
      apply list_lookup_insert_ne. intros <-. apply Hnotin.
      by apply (list_elem_of_fmap_2 snd) in Hin.
Qed.

(** The entry in the middle of an iteration order: its records and what
    becomes of its metric. *)
Lemma scan_middle now o1 k m o2 st mt :
  Inv st → live (heap st) (o1 ++ (k, m) :: o2) →
  NoDup (o1 ++ (k, m) :: o2).*2 →
  heap st !! m = Some mt →
  let n1 := numWireID st + Z.of_nat (length (filter (needsID st) o1)) in
  (scan now (o1 ++ (k, m) :: o2) (heap st) (numWireID st)).1.1 !! length o1
  = Some (scanMetric now n1 mt).1.1
  ∧ (scan now (o1 ++ (k, m) :: o2) (heap st) (numWireID st)).1.2 !! m
    = Some (scanMetric now n1 mt).1.2.
Proof.
  intros HI Hlive Hnd Hm n1.
  rewrite fmap_app, fmap_cons in Hnd. cbn [snd] in Hnd.
  apply NoDup_app in Hnd as (Hnd1 & Hdisj & Hnd2).
  apply NoDup_cons in Hnd2 as [Hnot2 Hnd2].
  assert (Hnot1 : m ∉ o1.*2).
  { intros Hin. apply (Hdisj m Hin). by left. }
  apply Forall_app in Hlive as [Hlive1 Hlive2].
  rewrite scan_app. cbn zeta. cbn [fst snd].
  rewrite scan_cons. cbn zeta. cbn [fst snd].
  rewrite (scan_frame now o1 _ _ m Hnot1), Hm.
  change (default zeroMetric (Some mt)) with mt.
  rewrite (scan_count now o1 st HI Hlive1 Hnd1). fold n1.
  split.
  - rewrite lookup_app_r by (rewrite scan_records_length; lia).
    by rewrite scan_records_length, Nat.sub_diag.
  - rewrite scan_frame by done.
    apply list_lookup_insert_eq.
    rewrite scan_heap_length. by eapply lookup_lt_Some.
Qed.

Lemma scan_at now order st i k m mt :
  Inv st → rangeOrder st order →
  order !! i = Some (k, m) → heap st !! m = Some mt →
  (scan now order (heap st) (numWireID st)).1.1 !! i
  = Some (scanMetric now (numWireID st + newlyNamed st order i) mt).1.1
  ∧ (scan now order (heap st) (numWireID st)).1.2 !! m
    = Some (scanMetric now (numWireID st + newlyNamed st order i) mt).1.2.
Proof.
  intros HI Ho Hi Hm.
  pose proof (rangeOrder_live st order HI Ho) as Hlive.
  pose proof (rangeOrder_NoDup_snd st order HI Ho) as Hnd.
  assert (Hlen : length (take i order) = i).
  { apply length_take_le. apply lookup_lt_Some in Hi. lia. }
  rewrite <- (take_drop_middle order i (k, m) Hi) in Hlive, Hnd.
  destruct (scan_middle now (take i order) k m (drop (S i) order) st mt
              HI Hlive Hnd Hm) as [Hr Hh].
  rewrite (take_drop_middle order i (k, m) Hi), Hlen in Hr.
  rewrite (take_drop_middle order i (k, m) Hi) in Hh.
  done.
Qed.

(** A property of the records of every metric holds of the whole frame. *)
Lemma scan_records (P : Wire.record → Prop) now order st :
  (∀ st m mt, Inv st → heap st !! m = Some mt →
              Forall P (scanMetric now (numWireID st) mt).1.1) →
  Inv st → live (heap st) order →
  Forall P (concat (scan now order (heap st) (numWireID st)).1.1).
Proof.
  intros HP. revert st. induction order as [|[k m] order IH]; intros st HI Hlive.
  - constructor.
  - apply Forall_cons in Hlive as [[mt Hm] Hlive]. simpl in Hm.
    rewrite scan_cons. cbn zeta. cbn [fst snd concat]. rewrite Hm.
    change (default zeroMetric (Some mt)) with mt.
    apply Forall_app. split; [by apply (HP st m mt)|].
    pose proof (Inv_scanMetric now st m mt HI Hm) as HI1.
    specialize (IH _ HI1). cbn [heap numWireID set_numWireID set_heap] in IH.
    apply IH. by apply live_insert.
Qed.
End ScanFacts.

(** ** One invocation of the encoder, in terms of its entries *)

Module EncodeFacts.
Import InvFacts EncFacts EncoderFacts ScanFacts ReachFacts.
Implicit Types (m : loc) (mt : Metric) (st : State).
Implicit Types (order : list (string * loc)).

Lemma newlyNamed_all st order :
  newlyNamed st order (length order)
  = Z.of_nat (length (filter (needsID st) order)).
Proof. unfold newlyNamed. by rewrite take_ge. Qed.

Lemma newlyNamed_S st order i km :
  order !! i = Some km →
  newlyNamed st order (S i)
  = newlyNamed st order i + (if decide (needsID st km) then 1 else 0).
Proof.
  intros Hi. unfold newlyNamed. rewrite (take_S_r _ _ _ Hi), filter_app.
  rewrite length_app, filter_cons, filter_nil.
  destruct (decide (needsID st km)); simpl; lia.
Qed.

Lemma newlyNamed_mono st order i j :
  (i ≤ j)%nat → newlyNamed st order i <= newlyNamed st order j.
Proof.
  induction 1 as [|j Hle IH]; [lia|].
  destruct (order !! j) as [km|] eqn:Hj.
  - rewrite (newlyNamed_S _ _ _ _ Hj). destruct (decide _); lia.
  - apply lookup_ge_None in Hj. unfold newlyNamed in *.
    rewrite (take_ge _ (S j)) by lia. by rewrite (take_ge _ j) in IH by lia.
Qed.

Lemma newlyNamed_nonneg st order i : 0 <= newlyNamed st order i.
Proof. unfold newlyNamed. lia. Qed.

(** An entry that gets a wireID is counted from the next position on. *)
Lemma newlyNamed_lt st order i j km :
  order !! i = Some km → needsID st km → (i < j)%nat →
  newlyNamed st order i + 1 <= newlyNamed st order j.
Proof.
  intros Hi Hn Hlt.
  pose proof (newlyNamed_mono st order (S i) j ltac:(lia)) as Hm.
  rewrite (newlyNamed_S _ _ _ _ Hi) in Hm.
  destruct (decide (needsID st km)); [lia|done].
Qed.

(** The test of the loop on the naming time, without the saturation of
    [Time.Sub]. *)
Lemma dueName_iff now mt :
  dueName now mt = true
  ↔ lastNamed mt = Time.zero ∨ 4 * Time.Hour < now - lastNamed mt.
Proof.
  unfold dueName, Time.IsZero, Time.Sub, Time.zero, metricLogNameFrequency,
    Time.minDuration, Time.maxDuration, Int64.min_int, Int64.max_int,
    Time.Hour, Time.Minute, Time.Second, Time.Millisecond, Time.Microsecond,
    Time.Nanosecond.
  rewrite orb_true_iff, Z.eqb_eq, Z.gtb_ltb, Z.ltb_lt.
  destruct (Z.ltb_spec (now - lastNamed mt) (- 2 ^ 63));
    [|destruct (Z.ltb_spec (2 ^ 63 - 1) (now - lastNamed mt))]; lia.
Qed.

Lemma Encode_entries now order st :
  Inv st → rangeOrder st order → notLimited st now →
  ∃ rs st',
    EncodeLogTailMetricsDelta now order st
    = (Ok (Wire.renderAll (concat rs)), st')
    ∧ Inv st'
    ∧ length rs = length order
    ∧ lastDelta st' = now
    ∧ metrics st' = metrics st
    ∧ sorted st' = sorted st ∧ sortedDirty st' = sortedDirty st
    ∧ length (heap st') = length (heap st)
    ∧ numWireID st' = numWireID st + newlyNamed st order (length order)
    ∧ Forall wfRecord (concat rs)
    ∧ (∀ i k m, order !! i = Some (k, m) →
         rs !! i
         = Some (scanMetric now (numWireID st + newlyNamed st order i)
                   (deref st m)).1.1
         ∧ deref st' m
           = (scanMetric now (numWireID st + newlyNamed st order i)
                (deref st m)).1.2)
    ∧ (∀ m, m ∉ order.*2 → heap st' !! m = heap st !! m).
Proof.
  intros HI Ho Hnl.
  destruct (Encode_scan now order st HI Ho Hnl) as (pool' & Hrun & HI').
  pose proof (rangeOrder_live st order HI Ho) as Hlive.
  pose proof (rangeOrder_NoDup_snd st order HI Ho) as Hnd.
  eexists _, _. split; [exact Hrun|]. split; [exact HI'|].
  cbn [heap metrics numWireID lastDelta sortedDirty sorted
       set_deltaPool set_lastDelta set_numWireID set_heap].
  split; [apply scan_records_length|]. split; [done|].
  split; [done|]. split; [done|]. split; [done|].
  split; [apply scan_heap_length|].
  split; [by rewrite scan_count, newlyNamed_all|].
  split; [apply scan_records; [apply scanMetric_wf|done..]|].
  split.
  - intros i k m Hi.
    destruct (rangeOrder_lookup st order i k m HI Ho Hi) as (mt & Hm & _).
    destruct (scan_at now order st i k m mt HI Ho Hi Hm) as [Hr Hh].
    rewrite (deref_Some _ _ _ Hm). split; [done|].
    unfold deref.
    cbn [heap set_deltaPool set_lastDelta set_numWireID set_heap].
    by rewrite Hh.
  - intros m Hm. by apply scan_frame.
Qed.
End EncodeFacts.

(** ** The sample run *)

Lemma sample_reachable : reachable sampleState.
Proof.
  unfold sampleState.
  apply reachable_call; [apply reachable_call; [apply reachable_initial|]|].
  - split; vm_compute; [discriminate|reflexivity].
  - split; [vm_compute; lia|]. split; vm_compute; discriminate.
Qed.

Lemma sample_rangeOrder : rangeOrder sampleState sampleOrder.
Proof. unfold rangeOrder, sampleOrder. reflexivity. Qed.

Lemma sample_notLimited : notLimited sampleState sampleNow.
Proof. left. reflexivity. Qed.

(** ** The delta encoder, metric by metric *)

Section encoder_properties.
Import InvFacts EncFacts EncoderFacts ScanFacts ReachFacts EncodeFacts.
Implicit Types (m : loc) (mt : Metric) (st : State).
Implicit Types (order : list (string * loc)).

(** What [scanMetric] does, in the words of the protocol, for a metric of
    a state of the registry whose turn comes when [numWireID] is [n]. *)
Lemma scanMetric_words now n mt :
  Int64.in_range (v mt) → Int64.in_range (lastLogVal mt) →
  0 <= wireID mt → 0 <= n → Int64.in_range (n + 1) →
  let r := (scanMetric now n mt).1.1 in
  let mt' := (scanMetric now n mt).1.2 in
  lastLogVal mt' = v mt ∧ v mt' = v mt ∧ name mt' = name mt
  ∧ (v mt = lastLogVal mt → r = [] ∧ mt' = mt)
  ∧ (v mt ≠ lastLogVal mt →
       (wireID mt ≠ 0 → wireID mt' = wireID mt)
       ∧ (wireID mt = 0 → wireID mt' = n + 1)
       ∧ 0 < wireID mt'
       ∧ (lastNamed mt = Time.zero ∨ 4 * Time.Hour < now - lastNamed mt →
            r = [Wire.NameRec (name mt); Wire.ValueRec (wireID mt') (v mt)]
            ∧ lastNamed mt' = now)
       ∧ (¬ (lastNamed mt = Time.zero ∨ 4 * Time.Hour < now - lastNamed mt) →
            r = [Wire.IncRec (wireID mt')
                   (Int64.sub (v mt) (lastLogVal mt))]
            ∧ lastNamed mt' = lastNamed mt)).
Proof.
  intros Hv Hl Hw Hn Hn1. cbn zeta.
  destruct (Int64.sub (v mt) (lastLogVal mt) =? 0) eqn:Hdelta.
  - rewrite scanMetric_unchanged by done. cbn [fst snd].
    rewrite Int64Facts.sub_eqb_0 in Hdelta by done.
    apply Z.eqb_eq in Hdelta. by rewrite Hdelta.
  - rewrite scanMetric_changed by done. cbn [fst snd lastLogVal v name wireID lastNamed].
    rewrite Int64Facts.sub_eqb_0 in Hdelta by done.
    apply Z.eqb_neq in Hdelta.
    rewrite (Int64Facts.add_exact n 1) by done.
    split; [done|]. split; [done|]. split; [done|]. split; [done|].
    intros _.
    split; [intros Hnz; apply Z.eqb_neq in Hnz; by rewrite Hnz|].
    split; [intros Hz; apply Z.eqb_eq in Hz; by rewrite Hz|].
    split; [destruct (Z.eqb_spec (wireID mt) 0); lia|].
    split.
    + intros Hdue%dueName_iff. by rewrite Hdue.
    + intros Hdue. rewrite <- dueName_iff in Hdue.
      apply not_true_is_false in Hdue. by rewrite Hdue.
Qed.

(** One entry of an invocation that is not rate-limited, in the words of
    the protocol, from what [scanMetric] makes of its metric. *)
Lemma entry_words st st' now order (rs : list (list Wire.record)) i k m :
  Inv st → Inv st' → rangeOrder st order →
  order !! i = Some (k, m) →
  numWireID st' = numWireID st + newlyNamed st order (length order) →
  rs !! i
  = Some (scanMetric now (numWireID st + newlyNamed st order i)
            (deref st m)).1.1 →
  deref st' m
  = (scanMetric now (numWireID st + newlyNamed st order i) (deref st m)).1.2 →
  ∃ r, rs !! i = Some r
  ∧ lastLogVal (deref st' m) = v (deref st m)
  ∧ v (deref st' m) = v (deref st m)
  ∧ name (deref st' m) = name (deref st m)
  ∧ (v (deref st m) = lastLogVal (deref st m) →
       r = [] ∧ deref st' m = deref st m)
  ∧ (v (deref st m) ≠ lastLogVal (deref st m) →
       (wireID (deref st m) ≠ 0 →
          wireID (deref st' m) = wireID (deref st m))
       ∧ (wireID (deref st m) = 0 →
            wireID (deref st' m)
            = numWireID st + newlyNamed st order i + 1)
       ∧ 0 < wireID (deref st' m)
       ∧ (lastNamed (deref st m) = Time.zero
          ∨ 4 * Time.Hour < now - lastNamed (deref st m) →
            r = [Wire.NameRec (name (deref st m));
                 Wire.ValueRec (wireID (deref st' m)) (v (deref st m))]
            ∧ lastNamed (deref st' m) = now)
       ∧ (¬ (lastNamed (deref st m) = Time.zero
             ∨ 4 * Time.Hour < now - lastNamed (deref st m)) →
            r = [Wire.IncRec (wireID (deref st' m))
                   (Int64.sub (v (deref st m)) (lastLogVal (deref st m)))]
            ∧ lastNamed (deref st' m) = lastNamed (deref st m)
            ∧ Int64.add (lastLogVal (deref st m))
                (Int64.sub (v (deref st m)) (lastLogVal (deref st m)))
              = v (deref st m)
            ∧ (Int64.in_range (v (deref st m) - lastLogVal (deref st m)) →
               Int64.sub (v (deref st m)) (lastLogVal (deref st m))
               = v (deref st m) - lastLogVal (deref st m)))).
Proof.
  intros HI HI' Ho Hi Hnum Hr Hd.
  destruct (rangeOrder_lookup st order i k m HI Ho Hi) as (mt & Hm & _).
  rewrite (deref_Some _ _ _ Hm) in *.
  destruct (inv_values st HI m mt Hm) as [Hv Hl].
  pose proof (inv_wire_range st HI m mt Hm) as Hw.
  pose proof (newlyNamed_nonneg st order i) as Hnn.
  pose proof (newlyNamed_mono st order i (length order)) as Hmono.
  assert (Hile : (i ≤ length order)%nat)
    by (apply lookup_lt_Some in Hi; lia).
  specialize (Hmono Hile).
  set (n := numWireID st + newlyNamed st order i) in *.
  eexists. split; [exact Hr|]. rewrite Hd.
  destruct (decide (v mt ≠ lastLogVal mt ∧ wireID mt = 0)) as [[Hne Hz]|Hno].
  - (* the metric gets a wireID: there is room for it *)
    assert (Hneeds : needsID st (k, m)).
    { unfold needsID. cbn [snd]. by rewrite (deref_Some _ _ _ Hm). }
    pose proof (newlyNamed_lt st order i (length order) (k, m) Hi Hneeds
                  ltac:(by eapply lookup_lt_Some)) as Hroom.
    pose proof (inv_wire_count st' HI') as Hc'.
    pose proof (inv_heap_size st' HI') as Hs'.
    pose proof (assigned_bounds (heap st')) as Hb'.
    assert (Hn1 : Int64.in_range (n + 1)).
    { unfold Int64.in_range, Int64.min_int, Int64.max_int in *. lia. }
    destruct (scanMetric_words now n mt Hv Hl ltac:(lia) ltac:(lia) Hn1)
      as (H1 & H2 & H3 & H4 & H5).
    split; [done|]. split; [done|]. split; [done|]. split; [done|].
    intros Hne'. destruct (H5 Hne') as (G1 & G2 & G3 & G4 & G5).
    split; [done|]. split; [done|]. split; [done|]. split; [done|].
    intros Hnd. destruct (G5 Hnd) as [-> ->].
    split; [done|]. split; [done|].
    split; [by apply Int64Facts.add_sub|apply Int64Facts.sub_exact].
  - (* no new wireID: the result does not depend on [n] *)
    destruct (Int64.sub (v mt) (lastLogVal mt) =? 0) eqn:Hdelta.
    + rewrite scanMetric_unchanged by done. cbn [fst snd].
      rewrite Int64Facts.sub_eqb_0 in Hdelta by done.
      apply Z.eqb_eq in Hdelta.
      split; [by rewrite Hdelta|]. split; [done|]. split; [done|].
      split; [done|]. intros Hne. done.
    + rewrite Int64Facts.sub_eqb_0 in Hdelta by done.
      apply Z.eqb_neq in Hdelta.
      assert (Hnz : wireID mt ≠ 0) by (intros Hz; by apply Hno).
      rewrite scanMetric_changed
        by (rewrite Int64Facts.sub_eqb_0 by done; by apply Z.eqb_neq).
      apply Z.eqb_neq in Hnz as Hnzb. rewrite Hnzb.
      cbn [fst snd lastLogVal v name wireID lastNamed].
      split; [done|]. split; [done|]. split; [done|]. split; [done|].
      intros _. split; [done|]. split; [done|]. split; [lia|].
      split.
      * intros Hdue%dueName_iff. by rewrite Hdue.
      * intros Hdue. rewrite <- dueName_iff in Hdue.
        apply not_true_is_false in Hdue. rewrite Hdue.
        split; [done|]. split; [done|].
        split; [by apply Int64Facts.add_sub|apply Int64Facts.sub_exact].
Qed.

(** C1 — In one invocation of [EncodeLogTailMetricsDelta] that is not
    rate-limited, the frame is the concatenation, in the order of the scan,
    of the records of the registered metrics ([rs], one list per entry).
    A metric whose value equals [lastLogVal] produces no record and is left
    as it was. A metric whose value differs gets the next sequential
    positive wireID if it has none; if it was never named, or named more
    than four hours before [now], its records are a name record
    immediately followed by a value record with the current value, and its
    naming time becomes [now]; otherwise its only record is an increment
    record with the signed ([int64]) difference between the current value
    and [lastLogVal]. In every case [lastLogVal] becomes the current
    value. *)
Theorem encode_delta_per_metric st now order :
  reachable st → rangeOrder st order → notLimited st now →
  ∃ rs st',
    EncodeLogTailMetricsDelta now order st
    = (Ok (Wire.renderAll (concat rs)), st')
    ∧ length rs = length order
    ∧ ∀ i k m, order !! i = Some (k, m) →
        ∃ r, rs !! i = Some r
        ∧ lastLogVal (deref st' m) = v (deref st m)
        ∧ v (deref st' m) = v (deref st m)
        ∧ name (deref st' m) = name (deref st m)
        ∧ (v (deref st m) = lastLogVal (deref st m) →
             r = [] ∧ deref st' m = deref st m)
        ∧ (v (deref st m) ≠ lastLogVal (deref st m) →
             (wireID (deref st m) ≠ 0 →
                wireID (deref st' m) = wireID (deref st m))
             ∧ (wireID (deref st m) = 0 →
                  wireID (deref st' m)
                  = numWireID st + newlyNamed st order i + 1)
             ∧ 0 < wireID (deref st' m)
             ∧ (lastNamed (deref st m) = Time.zero
                ∨ 4 * Time.Hour < now - lastNamed (deref st m) →
                  r = [Wire.NameRec (name (deref st m));
                       Wire.ValueRec (wireID (deref st' m)) (v (deref st m))]
                  ∧ lastNamed (deref st' m) = now)
             ∧ (¬ (lastNamed (deref st m) = Time.zero
                   ∨ 4 * Time.Hour < now - lastNamed (deref st m)) →
                  r = [Wire.IncRec (wireID (deref st' m))
                         (Int64.sub (v (deref st m)) (lastLogVal (deref st m)))]
                  ∧ lastNamed (deref st' m) = lastNamed (deref st m)
                  ∧ Int64.add (lastLogVal (deref st m))
                      (Int64.sub (v (deref st m)) (lastLogVal (deref st m)))
                    = v (deref st m)
                  ∧ (Int64.in_range (v (deref st m) - lastLogVal (deref st m)) →
                     Int64.sub (v (deref st m)) (lastLogVal (deref st m))
                     = v (deref st m) - lastLogVal (deref st m)))).
Proof.
  intros Hreach Ho Hnl. pose proof (reachable_Inv st Hreach) as HI.
  destruct (Encode_entries now order st HI Ho Hnl)
    as (rs & st' & Hrun & HI' & Hlen & _ & _ & _ & _ & _ & Hnum & _ & Hent & _).
  exists rs, st'. split; [exact Hrun|]. split; [exact Hlen|].
  intros i k m Hi. destruct (Hent i k m Hi) as [Hr Hd].
  by eapply entry_words.
Qed.

Lemma encode_delta_per_metric_witness :
  ∃ rs st',
    EncodeLogTailMetricsDelta sampleNow sampleOrder sampleState
    = (Ok (Wire.renderAll (concat rs)), st')
    ∧ length rs = length sampleOrder.
Proof.
  destruct (encode_delta_per_metric sampleState sampleNow sampleOrder
              sample_reachable sample_rangeOrder sample_notLimited)
    as (rs & st' & Hrun & Hlen & _).
  exists rs, st'. split; [exact Hrun|exact Hlen].
Defined.
End encoder_properties.

(** ** The rate limit *)

Section rate_limit_properties.
Import InvFacts EncoderFacts ReachFacts EncodeFacts.
Implicit Types (m : loc) (st : State).
Implicit Types (order : list (string * loc)).

(** C3 — An invocation that is not rate-limited, made when the clock reads
    [now1] (a reading of the clock is never the zero instant), records
    [now1] as the last-invocation time before it scans the metrics: the
    scan runs from the state in which [lastDelta] is already [now1], and
    [lastDelta] is [now1] afterwards whatever the frame, the empty one
    included. From then on, in whatever state the registry is with that
    last-invocation time (values may have changed, metrics may have been
    registered), an invocation less than 15 seconds after [now1] returns
    the empty string and leaves the whole state as it was. *)
Theorem rate_limit_window st now1 order1 :
  reachable st → rangeOrder st order1 → notLimited st now1 →
  Time.IsZero now1 = false →
  ∃ out1 st1,
    EncodeLogTailMetricsDelta now1 order1 st = (Ok out1, st1)
    ∧ EncodeLogTailMetricsDelta now1 order1 st
      = scanMetrics now1 order1 (set_lastDelta now1 st)
    ∧ lastDelta st1 = now1
    ∧ ∀ st2 now2 order2,
        lastDelta st2 = now1 →
        Time.Sub now2 now1 < 15 * Time.Second →
        EncodeLogTailMetricsDelta now2 order2 st2 = (Ok "", st2).
Proof.
  intros Hreach Ho Hnl Hnz. pose proof (reachable_Inv st Hreach) as HI.
  destruct (Encode_entries now1 order1 st HI Ho Hnl)
    as (rs & st1 & Hrun & _ & _ & Hld & _).
  eexists _, st1. split; [exact Hrun|].
  split; [by apply Encode_records_first|]. split; [done|].
  intros st2 now2 order2 Hld2 Hsub.
  apply Encode_limited; by rewrite Hld2.
Qed.

Lemma sample_clock : Time.IsZero sampleNow = false.
Proof. reflexivity. Qed.

Lemma rate_limit_window_witness :
  ∃ out1 st1,
    EncodeLogTailMetricsDelta sampleNow sampleOrder sampleState = (Ok out1, st1)
    ∧ lastDelta st1 = sampleNow
    ∧ EncodeLogTailMetricsDelta (sampleNow + 14 * Time.Second) sampleOrder
        (Add 0 3 st1).2
      = (Ok "", (Add 0 3 st1).2).
Proof.
  destruct (rate_limit_window sampleState sampleNow sampleOrder
              sample_reachable sample_rangeOrder sample_notLimited
              sample_clock)
    as (out1 & st1 & Hrun & _ & Hld & Hnext).
  exists out1, st1. split; [exact Hrun|]. split; [exact Hld|].
  apply Hnext; [exact Hld|]. vm_compute. reflexivity.
Defined.

(** C10 — When no invocation time has been recorded (the zero timestamp),
    [EncodeLogTailMetricsDelta] is not rate-limited, whatever the clock
    reads: it records the invocation time and scans the registry, so that
    afterwards [lastDelta] is [now] and every registered metric has been
    visited (its [lastLogVal] is its value); the frame is empty only if no
    registered metric had a change to report. *)
Theorem first_invocation_not_limited st now order :
  reachable st → rangeOrder st order →
  Time.IsZero (lastDelta st) = true →
  ∃ out st',
    EncodeLogTailMetricsDelta now order st = (Ok out, st')
    ∧ EncodeLogTailMetricsDelta now order st
      = scanMetrics now order (set_lastDelta now st)
    ∧ lastDelta st' = now
    ∧ (∀ k m, metrics st !! k = Some m →
         lastLogVal (deref st' m) = v (deref st m)
         ∧ v (deref st' m) = v (deref st m))
    ∧ (out = "" →
       ∀ k m, metrics st !! k = Some m →
              v (deref st m) = lastLogVal (deref st m)).
Proof.
  intros Hreach Ho Hz. pose proof (reachable_Inv st Hreach) as HI.
  assert (Hnl : notLimited st now) by by left.
  destruct (Encode_entries now order st HI Ho Hnl)
    as (rs & st' & Hrun & HI' & Hlen & Hld & _ & _ & _ & _ & Hnum & _ & Hent0 & _).
  assert (Hent := λ i k m Hi,
    entry_words st st' now order rs i k m HI HI' Ho Hi Hnum
      (proj1 (Hent0 i k m Hi)) (proj2 (Hent0 i k m Hi))).
  eexists _, st'. split; [exact Hrun|].
  split; [by apply Encode_records_first|]. split; [done|].
  assert (Hpos : ∀ k m, metrics st !! k = Some m → ∃ i, order !! i = Some (k, m)).
  { intros k m Hk. apply list_elem_of_lookup. rewrite Ho.
    by apply elem_of_map_to_list. }
  split.
  - intros k m [i Hi]%Hpos.
    destruct (Hent i k m Hi) as (r & _ & H1 & H2 & _). done.
  - intros Hempty k m [i Hi]%Hpos.
    destruct (Hent i k m Hi) as (r & Hr & _ & _ & _ & _ & Hch).
    destruct (decide (v (deref st m) = lastLogVal (deref st m))) as [|Hne];
      [done|exfalso].
    destruct (Hch Hne) as (_ & _ & _ & Hdue & Hnot).
    apply EncFacts.renderAll_nil_inv in Hempty.
    assert (Hr0 : r = []).
    { apply (EncFacts.concat_nil_inv rs Hempty). by eapply list_elem_of_lookup_2. }
    destruct (decide (lastNamed (deref st m) = Time.zero
                      ∨ 4 * Time.Hour < now - lastNamed (deref st m)))
      as [Hd|Hd].
    + destruct (Hdue Hd) as [-> _]. discriminate Hr0.
    + destruct (Hnot Hd) as [-> _]. discriminate Hr0.
Qed.

Lemma first_invocation_not_limited_witness :
  ∃ out st',
    EncodeLogTailMetricsDelta 1 sampleOrder sampleState = (Ok out, st')
    ∧ lastDelta st' = 1.
Proof.
  destruct (first_invocation_not_limited sampleState 1 sampleOrder
              sample_reachable sample_rangeOrder eq_refl)
    as (out & st' & Hrun & _ & Hld & _).
  exists out, st'. split; [exact Hrun|exact Hld].
Defined.
End rate_limit_properties.

(** ** The wire format *)

Section wire_format_properties.
Import VarintFacts EncFacts.

Example hexVarint_zero : Wire.hexVarint 0 = "00".
Proof. reflexivity. Qed.

Example hexVarint_minus_one : Wire.hexVarint (-1) = "01".
Proof. reflexivity. Qed.

Example hexVarint_one : Wire.hexVarint 1 = "02".
Proof. reflexivity. Qed.

Example hexVarint_300 : Wire.hexVarint 300 = "d804".
Proof. reflexivity. Qed.

Example hexVarint_min : Wire.hexVarint Int64.min_int = "ffffffffffffffffff01".
Proof. reflexivity. Qed.

(** C2 — The writers of [deltaEncBuf] append to the buffer exactly the
    bytes of the format: [writeName] the byte 'N', the hex-encoded signed
    varint of the length of the name and the raw name; [writeValue] the
    byte 'S' and the hex-encoded signed varints of the wireID and of the
    value; [writeDelta] the byte 'I' and the hex-encoded signed varints of
    the wireID and of the delta. The hex-encoded varint that
    [writeHexVarint] appends is the zig-zag of the integer in base 128 with
    continuation bits, each byte rendered as two lowercase hexadecimal
    digits, and it reads back as the integer. *)
Theorem wire_format_records b nm wid x d :
  encOK b →
  Z.of_nat (String.length nm) <= Int64.max_int →
  Int64.in_range wid → Int64.in_range x → Int64.in_range d →
  (∃ b', writeName b nm = Some b'
         ∧ buf b' = buf b +:+ "N"
                    +:+ Wire.hexVarint (Z.of_nat (String.length nm)) +:+ nm)
  ∧ (∃ b', writeValue b wid x = Some b'
           ∧ buf b' = buf b +:+ "S" +:+ Wire.hexVarint wid +:+ Wire.hexVarint x)
  ∧ (∃ b', writeDelta b wid d = Some b'
           ∧ buf b' = buf b +:+ "I" +:+ Wire.hexVarint wid +:+ Wire.hexVarint d)
  ∧ (∃ b', writeHexVarint b x = Some b'
           ∧ buf b' = buf b +:+ Wire.hexVarint x)
  ∧ Wire.hexVarint x = Wire.hexBytes (Wire.base128 10 (Wire.zigzag x))
  ∧ Wire.zigzag x = Z.lxor (Z.shiftl x 1) (Z.shiftr x 63)
  ∧ Forall isByte (Wire.base128 10 (Wire.zigzag x))
  ∧ String.length (Wire.hexVarint x)
    = (2 * length (Wire.base128 10 (Wire.zigzag x)))%nat
  ∧ allChars Wire.isLowerHex (Wire.hexVarint x) = true
  ∧ ∀ rest, Wire.readVarint (Wire.hexVarint x +:+ rest) = Some (x, rest).
Proof.
  intros Hb Hlen Hwid Hx Hd.
  split.
  { destruct (writeName_spec b nm Hb Hlen) as (b' & Hw & Hbuf & _).
    exists b'. split; [exact Hw|]. by rewrite Hbuf. }
  split.
  { destruct (writeValue_spec b wid x Hb Hwid Hx) as (b' & Hw & Hbuf & _).
    exists b'. split; [exact Hw|]. by rewrite Hbuf. }
  split.
  { destruct (writeDelta_spec b wid d Hb Hwid Hd) as (b' & Hw & Hbuf & _).
    exists b'. split; [exact Hw|]. by rewrite Hbuf. }
  split.
  { destruct (writeHexVarint_spec b x Hb Hx) as (b' & Hw & Hbuf & _).
    exists b'. by split. }
  split; [reflexivity|].
  split; [by apply zigzag_shifts|].
  split; [apply varint_isByte|].
  split; [apply hexBytes_length|].
  split; [apply hexVarint_lower|].
  intros rest. by apply readVarint_hexVarint.
Qed.

Lemma wire_format_records_witness :
  ∃ b', writeValue newDeltaEncBuf 1 (-77) = Some b' ∧ buf b' = "S029901".
Proof.
  destruct (wire_format_records newDeltaEncBuf "zeta" 1 (-77) 3)
    as (_ & (b' & Hw & Hbuf) & _).
  - reflexivity.
  - vm_compute. discriminate.
  - split; vm_compute; discriminate.
  - split; vm_compute; discriminate.
  - split; vm_compute; discriminate.
  - exists b'. split; [exact Hw|exact Hbuf].
Defined.
End wire_format_properties.

(** ** The alphabet of a frame *)

Section alphabet_properties.
Import NameFacts InvFacts EncFacts EncoderFacts ScanFacts ReachFacts.
Implicit Types (m : loc) (mt : Metric) (st : State).
Implicit Types (order : list (string * loc)).

Lemma renderAll_allChars (p : ascii → bool) rs :
  Forall (λ r, allChars p (Wire.render r) = true) rs →
  allChars p (Wire.renderAll rs) = true.
Proof.
  induction 1 as [|r rs Hr _ IH]; [done|].
  cbn [Wire.renderAll]. by rewrite allChars_app, Hr, IH.
Qed.

Lemma scanMetric_frame now st m mt :
  Inv st → heap st !! m = Some mt →
  Forall (λ r, allChars isFrameChar (Wire.render r) = true)
    (scanMetric now (numWireID st) mt).1.1.
Proof.
  intros HI Hm. destruct (inv_names st HI m mt Hm) as [Hv _].
  apply validName_chars in Hv.
  destruct (Int64.sub (v mt) (lastLogVal mt) =? 0) eqn:Hdelta.
  - rewrite scanMetric_unchanged by done. constructor.
  - rewrite scanMetric_changed by done. cbn [fst snd].
    destruct (dueName now mt); repeat constructor; by apply render_frame.
Qed.

(** C5 — In every state the package can be in (the names of the
    registered metrics are then all of [[A-Za-z0-9_]+]) and for all values
    of the metrics, [EncodeLogTailMetricsDelta] returns a string made only
    of the bytes 'N', 'S', 'I', lowercase hexadecimal digits and name
    characters; none of them is a double quote, a backslash or a control
    character. *)
Theorem frame_json_safe st now order :
  reachable st → rangeOrder st order →
  ∃ out st',
    EncodeLogTailMetricsDelta now order st = (Ok out, st')
    ∧ allChars isFrameChar out = true
    ∧ allChars isJSONSafe out = true.
Proof.
  intros Hreach Ho. pose proof (reachable_Inv st Hreach) as HI.
  assert (Hframe : ∃ out st',
    EncodeLogTailMetricsDelta now order st = (Ok out, st')
    ∧ allChars isFrameChar out = true).
  { destruct (negb (Time.IsZero (lastDelta st))
              && (Time.Sub now (lastDelta st) <? minMetricEncodeInterval))
      eqn:Htest.
    - apply andb_true_iff in Htest as [Hz Hlt].
      apply negb_true_iff in Hz. apply Z.ltb_lt in Hlt.
      exists "", st. split; [by apply Encode_limited|done].
    - assert (Hnl : notLimited st now).
      { apply andb_false_iff in Htest as [Hz|Hge].
        - left. by apply negb_false_iff in Hz.
        - right. by apply Z.ltb_ge in Hge. }
      destruct (Encode_scan now order st HI Ho Hnl) as (pool' & Hrun & _).
      eexists _, _. split; [exact Hrun|].
      apply renderAll_allChars.
      apply scan_records; [apply scanMetric_frame|done|].
      by apply rangeOrder_live. }
  destruct Hframe as (out & st' & Hrun & Hchars).
  exists out, st'. split; [done|]. split; [done|].
  eapply allChars_impl; [apply isFrameChar_JSONSafe|done].
Qed.

Lemma frame_json_safe_witness :
  ∃ out st',
    EncodeLogTailMetricsDelta sampleNow sampleOrder sampleState = (Ok out, st')
    ∧ allChars isJSONSafe out = true.
Proof.
  destruct (frame_json_safe sampleState sampleNow sampleOrder
              sample_reachable sample_rangeOrder)
    as (out & st' & Hrun & _ & Hsafe).
  exists out, st'. split; [exact Hrun|exact Hsafe].
Defined.
End alphabet_properties.

(** ** Registration and the sorted listing *)

Section registry_properties.
Import NameFacts InvFacts RegistryFacts ReachFacts.
Implicit Types (m : loc) (mt : Metric) (st : State).
Implicit Types (order : list (string * loc)).

(** The names that [NewUnpublished] refuses. *)
Lemma validName_false nm :
  validName nm = false ↔ nm = "" ∨ allChars isNameChar nm = false.
Proof.
  unfold validName. rewrite andb_false_iff, negb_false_iff, String.eqb_eq.
  by rewrite EncFacts.allNameChars_allChars.
Qed.

(** When construct-then-register panics, and what it leaves. *)
Lemma register_panics nm ty st :
  ((∃ p st', (m <~ NewUnpublished nm ty ;; Publish m ;;; ret m) st
             = (Panic p, st'))
   ↔ nm = "" ∨ allChars isNameChar nm = false ∨ is_Some (metrics st !! nm))
  ∧ (∀ p st', (m <~ NewUnpublished nm ty ;; Publish m ;;; ret m) st
              = (Panic p, st') →
       metrics st' = metrics st
       ∧ sortedDirty st' = sortedDirty st ∧ sorted st' = sorted st
       ∧ numWireID st' = numWireID st ∧ lastDelta st' = lastDelta st
       ∧ ∀ m, (m < length (heap st))%nat → heap st' !! m = heap st !! m).
Proof.
  destruct (validName nm) eqn:Hv.
  - assert (Hok : ¬ (nm = "" ∨ allChars isNameChar nm = false)).
    { rewrite <- validName_false. congruence. }
    destruct (metrics st !! nm) as [m'|] eqn:Hdup.
    + rewrite register_duplicate by done. split.
      * split; [intros _; right; right; by eexists|eauto].
      * intros p st' [= _ <-]. simpl. repeat split; try done.
        intros m Hm. by apply lookup_app_l.
    + rewrite register_fresh by done. split.
      * split; [by intros (? & ? & ?)|].
        intros [?|[?|[? ?]]]; [by destruct Hok; left|by destruct Hok; right|done].
      * by intros p st' ?.
  - rewrite register_invalid by done. split.
    + split; [|eauto]. intros _. apply validName_false in Hv. tauto.
    + intros p st' [= _ <-]. done.
Qed.

(** C7 — [NewCounter] and [NewGauge] (construct, then register) panic
    exactly when the name is empty, has a character outside
    [[A-Za-z0-9_]], or is already registered. A panic leaves the registry
    as it was: the map, the sorted cache and its dirty flag, the encoder's
    bookkeeping and every object of the store. Two metrics registered
    under distinct valid names that are not yet taken both register, and
    both are in the list that [Metrics] returns, under their names. *)
Theorem registration_panics_exactly st nm :
  ((∃ p st', NewCounter nm st = (Panic p, st'))
   ↔ nm = "" ∨ allChars isNameChar nm = false ∨ is_Some (metrics st !! nm))
  ∧ ((∃ p st', NewGauge nm st = (Panic p, st'))
     ↔ nm = "" ∨ allChars isNameChar nm = false ∨ is_Some (metrics st !! nm))
  ∧ (∀ p st',
       NewCounter nm st = (Panic p, st') ∨ NewGauge nm st = (Panic p, st') →
       metrics st' = metrics st
       ∧ sortedDirty st' = sortedDirty st ∧ sorted st' = sorted st
       ∧ numWireID st' = numWireID st ∧ lastDelta st' = lastDelta st
       ∧ ∀ m, (m < length (heap st))%nat → heap st' !! m = heap st !! m)
  ∧ (∀ nm2 order,
       validName nm = true → validName nm2 = true → nm ≠ nm2 →
       metrics st !! nm = None → metrics st !! nm2 = None →
       ∃ m1 m2 st2,
         (m1 <~ NewCounter nm ;; m2 <~ NewGauge nm2 ;; ret (m1, m2)) st
         = (Ok (m1, m2), st2)
         ∧ m1 ≠ m2
         ∧ metrics st2 !! nm = Some m1 ∧ metrics st2 !! nm2 = Some m2
         ∧ (rangeOrder st2 order →
            ∃ l st3, Metrics order st2 = (Ok l, st3)
                     ∧ m1 ∈ l ∧ m2 ∈ l
                     ∧ name (deref st3 m1) = nm
                     ∧ name (deref st3 m2) = nm2)).
Proof.
  rewrite NewCounter_unfold, NewGauge_unfold.
  destruct (register_panics nm TypeCounter st) as [Hc1 Hc2].
  destruct (register_panics nm TypeGauge st) as [Hg1 Hg2].
  split; [exact Hc1|]. split; [exact Hg1|].
  split; [intros p st' [H|H]; [by eapply Hc2|by eapply Hg2]|].
  intros nm2 order Hv1 Hv2 Hne Hf1 Hf2.
  unfold bind at 1. rewrite register_fresh by done.
  set (st1 := set_sortedDirty true _).
  assert (Hf2' : metrics st1 !! nm2 = None).
  { subst st1. simpl. by rewrite lookup_insert_ne. }
  unfold bind at 1. rewrite NewGauge_unfold, register_fresh by done.
  set (st2 := set_sortedDirty true _).
  exists (length (heap st)), (length (heap st1)), st2.
  split; [done|].
  assert (Hlen1 : length (heap st1) = S (length (heap st))).
  { subst st1. simpl. rewrite length_app. simpl. lia. }
  split; [lia|].
  assert (Hm1 : metrics st2 !! nm = Some (length (heap st))).
  { subst st2 st1. simpl. rewrite lookup_insert_ne by done.
    by rewrite lookup_insert_eq. }
  assert (Hm2 : metrics st2 !! nm2 = Some (length (heap st1))).
  { subst st2. simpl. by rewrite lookup_insert_eq. }
  split; [done|]. split; [done|].
  intros Ho. rewrite Metrics_dirty by done.
  eexists _, _. split; [done|].
  assert (Hin : ∀ k m, metrics st2 !! k = Some m →
                       m ∈ sortSlice (lessByName st2) order.*2).
  { intros k m Hk. rewrite sortSlice_perm.
    apply (list_elem_of_fmap_2 snd _ (k, m)). rewrite Ho.
    by apply elem_of_map_to_list. }
  split; [by eapply Hin|]. split; [by eapply Hin|].
  unfold deref. subst st2 st1. simpl. split.
  - rewrite lookup_app_l by (rewrite length_app; simpl; lia).
    by rewrite list_lookup_middle.
  - by rewrite list_lookup_middle.
Qed.

Lemma registration_panics_exactly_witness :
  (∃ p st', NewCounter "has-dash" initial = (Panic p, st'))
  ∧ (∃ p st', NewGauge "foo_total" sampleState = (Panic p, st'))
  ∧ ∃ m1 m2 st2,
      (m1 <~ NewCounter "valid_Name123" ;; m2 <~ NewGauge "b" ;; ret (m1, m2))
        initial
      = (Ok (m1, m2), st2)
      ∧ m1 ≠ m2.
Proof.
  split; [|split].
  - apply (proj1 (registration_panics_exactly initial "has-dash")).
    right. left. reflexivity.
  - apply (proj1 (proj2 (registration_panics_exactly sampleState "foo_total"))).
    right. right. vm_compute. eauto.
  - destruct (proj2 (proj2 (proj2
      (registration_panics_exactly initial "valid_Name123"))) "b" [])
      as (m1 & m2 & st2 & Hrun & Hne & _);
      [reflexivity|reflexivity|discriminate|reflexivity|reflexivity|].
    exists m1, m2, st2. split; [exact Hrun|exact Hne].
Defined.

(** C8 — In every state the package can be in, [Metrics] returns the
    registered metrics, each once, in ascending order of name, whether it
    rebuilds the cache (dirty flag set) or returns the cache as it is; it
    changes nothing but the cache and its flag. *)
Theorem Metrics_sorted_listing st order :
  reachable st → rangeOrder st order →
  ∃ l st',
    Metrics order st = (Ok l, st')
    ∧ (∀ m, m ∈ l ↔ ∃ k, metrics st !! k = Some m)
    ∧ NoDup l
    ∧ sortedByName st l
    ∧ (sortedDirty st = false → l = sorted st ∧ st' = st)
    ∧ sorted st' = l ∧ sortedDirty st' = false
    ∧ heap st' = heap st ∧ metrics st' = metrics st
    ∧ numWireID st' = numWireID st ∧ lastDelta st' = lastDelta st.
Proof.
  intros Hreach Ho. pose proof (reachable_Inv st Hreach) as HI.
  destruct (Metrics_spec order st HI Ho) as (l & Hrun & Hperm & Hs & _).
  exists l, (set_sorted l (set_sortedDirty false st)).
  split; [exact Hrun|].
  split; [intros m; by rewrite Hperm, registered_elem|].
  split.
  { eapply (sorted_by_key_NoDup (λ m, name (deref st m))). exact Hs. }
  split; [exact Hs|].
  split; [|done].
  intros Hd. rewrite Metrics_clean in Hrun by done.
  injection Hrun as Hl Hst. by rewrite <- Hst.
Qed.

Lemma Metrics_sorted_listing_witness :
  ∃ l st', Metrics sampleOrder sampleState = (Ok l, st')
           ∧ sortedByName sampleState l.
Proof.
  destruct (Metrics_sorted_listing sampleState sampleOrder
              sample_reachable sample_rangeOrder)
    as (l & st' & Hrun & _ & _ & Hs & _).
  exists l, st'. split; [exact Hrun|exact Hs].
Defined.

Example exposition_foo_total :
  expositionOf (mkMetric 6 "foo_total" TypeCounter 1 sampleNow 6)
  = "# TYPE foo_total counter" +:+ newline +:+ "foo_total 6" +:+ newline.
Proof. vm_compute. reflexivity. Qed.

Lemma odd_reachable : reachable oddState.
Proof.
  unfold oddState.
  apply reachable_call;
    [apply reachable_call; [apply reachable_call; [apply reachable_initial|]|]|].
  - split; [vm_compute; discriminate|].
    split; [vm_compute; reflexivity|lia].
  - vm_compute. lia.
  - split; [vm_compute; lia|]. split; vm_compute; discriminate.
Qed.

Lemma odd_rangeOrder : rangeOrder oddState oddOrder.
Proof. unfold rangeOrder, oddOrder. reflexivity. Qed.

(** The two lines of a metric of a declared kind, and the one line of a
    metric whose [Type] value is neither constant. *)
Lemma expositionOf_cases mt :
  (typ mt = TypeGauge → expositionOf mt = declaredLines "gauge" mt)
  ∧ (typ mt = TypeCounter → expositionOf mt = declaredLines "counter" mt)
  ∧ (typ mt ≠ TypeGauge → typ mt ≠ TypeCounter →
     expositionOf mt = valueLine mt).
Proof.
  unfold expositionOf, declaredLines, typeLine, typeWord.
  split; [|split].
  - intros ->. simpl. by rewrite !app_assoc_s.
  - intros ->. simpl. by rewrite !app_assoc_s.
  - intros Hg Hc. apply Z.eqb_neq in Hg, Hc. by rewrite Hg, Hc.
Qed.

(** Against C9 as it is stated: a metric made by
    [NewUnpublished("odd", 2)], published and set to 4 is registered in a
    reachable state, and the exposition text is the single line [odd 4]:
    there is no [# TYPE] line for it, neither with [gauge] nor with
    [counter]. *)
Lemma exposition_untyped_counterexample :
  reachable oddState ∧ rangeOrder oddState oddOrder
  ∧ metrics oddState !! "odd" = Some 0%nat
  ∧ (WritePrometheusExpositionFormat oddOrder "" oddState).1
    = Ok ("odd 4" +:+ newline)
  ∧ "odd 4" +:+ newline ≠ declaredLines "gauge" (deref oddState 0)
  ∧ "odd 4" +:+ newline ≠ declaredLines "counter" (deref oddState 0).
Proof.
  split; [exact odd_reachable|]. split; [exact odd_rangeOrder|].
  split; [vm_compute; reflexivity|].
  split; [vm_compute; reflexivity|].
  split; vm_compute; discriminate.
Qed.

(** C9 (amended) — [WritePrometheusExpositionFormat] appends to the
    writer, for the registered metrics in ascending order of name: for a
    metric of type [TypeGauge] or [TypeCounter], the line
    [# TYPE <name> gauge] or [# TYPE <name> counter] according to the type
    and then the line [<name> <value>] with the current value; for a metric
    whose [Type] value is neither, the line [<name> <value>] only. It
    leaves the store (the values, [lastLogVal], [lastNamed] and [wireID] of
    every metric), [numWireID], [lastDelta], the map and the buffer pool as
    they were. *)
Theorem exposition_format_frame st order w :
  reachable st → rangeOrder st order →
  ∃ l st',
    WritePrometheusExpositionFormat order w st
    = (Ok (w +:+ exposition st l), st')
    ∧ (∀ m, m ∈ l ↔ ∃ k, metrics st !! k = Some m)
    ∧ NoDup l
    ∧ sortedByName st l
    ∧ (∀ m, m ∈ l →
         (typ (deref st m) = TypeGauge →
          expositionOf (deref st m) = declaredLines "gauge" (deref st m))
         ∧ (typ (deref st m) = TypeCounter →
            expositionOf (deref st m) = declaredLines "counter" (deref st m))
         ∧ (typ (deref st m) ≠ TypeGauge → typ (deref st m) ≠ TypeCounter →
            expositionOf (deref st m) = valueLine (deref st m)))
    ∧ heap st' = heap st
    ∧ numWireID st' = numWireID st ∧ lastDelta st' = lastDelta st
    ∧ metrics st' = metrics st ∧ deltaPool st' = deltaPool st.
Proof.
  intros Hreach Ho. pose proof (reachable_Inv st Hreach) as HI.
  destruct (WritePrometheus_spec order w st HI Ho)
    as (l & Hrun & Hperm & Hs & _).
  exists l, (set_sorted l (set_sortedDirty false st)).
  split; [exact Hrun|].
  split; [intros m; by rewrite Hperm, registered_elem|].
  split.
  { eapply (sorted_by_key_NoDup (λ m, name (deref st m))). exact Hs. }
  split; [exact Hs|].
  split; [intros m _; apply expositionOf_cases|].
  by split.
Qed.

Lemma exposition_format_frame_witness :
  ∃ l st',
    WritePrometheusExpositionFormat sampleOrder "" sampleState
    = (Ok ("" +:+ exposition sampleState l), st')
    ∧ heap st' = heap sampleState.
Proof.
  destruct (exposition_format_frame sampleState sampleOrder ""
              sample_reachable sample_rangeOrder)
    as (l & st' & Hrun & _ & _ & _ & _ & Hheap & _).
  exists l, st'. split; [exact Hrun|exact Hheap].
Defined.
End registry_properties.

(** ** The life of a wireID *)

Section wireID_properties.
Import InvFacts RegistryFacts EncoderFacts ReachFacts EncodeFacts.
Implicit Types (m : loc) (mt : Metric) (st : State).
Implicit Types (order : list (string * loc)).

Lemma wireStep_same st st' :
  heap st' = heap st → numWireID st' = numWireID st → wireStep st st'.
Proof.
  intros Hh Hn. unfold wireStep. rewrite Hh, Hn.
  split; [lia|]. split; [eauto|].
  intros m mt' Hm _. left. by rewrite (deref_Some _ _ _ Hm).
Qed.

Lemma wireStep_alloc st st' mt0 :
  heap st' = heap st ++ [mt0] → wireID mt0 = 0 →
  numWireID st' = numWireID st → wireStep st st'.
Proof.
  intros Hh Hw Hn. unfold wireStep. rewrite Hh, Hn.
  split; [lia|]. split.
  - intros m mt Hm _. exists mt. split; [|done]. by apply lookup_app_l_Some.
  - intros m mt' [[_ Hm]|[_ <-]]%lookup_snoc_Some Hnz; [|done].
    left. by rewrite (deref_Some _ _ _ Hm).
Qed.

Lemma wireStep_alter st st' m0 (f : Metric → Metric) :
  heap st' = alter f m0 (heap st) → (∀ mt, wireID (f mt) = wireID mt) →
  numWireID st' = numWireID st → wireStep st st'.
Proof.
  intros Hh Hf Hn. unfold wireStep. rewrite Hh, Hn.
  split; [lia|]. split.
  - intros m mt Hm _. rewrite list_lookup_alter.
    case_decide; subst; rewrite Hm; simpl; eauto.
  - intros m mt' Hm _. left. rewrite list_lookup_alter in Hm.
    unfold deref. case_decide; subst.
    + destruct (heap st !! m); simplify_eq/=. by rewrite Hf.
    + by rewrite Hm.
Qed.

Lemma wireStep_Encode now order st :
  Inv st → rangeOrder st order →
  wireStep st (EncodeLogTailMetricsDelta now order st).2.
Proof.
  intros HI Ho.
  destruct (negb (Time.IsZero (lastDelta st))
            && (Time.Sub now (lastDelta st) <? minMetricEncodeInterval))
    eqn:Htest.
  { apply andb_true_iff in Htest as [Hz Hlt].
    apply negb_true_iff in Hz. apply Z.ltb_lt in Hlt.
    rewrite Encode_limited by done. by apply wireStep_same. }
  assert (Hnl : notLimited st now).
  { apply andb_false_iff in Htest as [Hz|Hge].
    - left. by apply negb_false_iff in Hz.
    - right. by apply Z.ltb_ge in Hge. }
  destruct (Encode_entries now order st HI Ho Hnl)
    as (rs & st' & -> & HI' & _ & _ & _ & _ & _ & Hlen & Hnum & _ & Hent & Hframe).
  cbn [snd].
  (* what becomes of the wireID of an object of the store *)
  assert (Hcases : ∀ m mt, heap st !! m = Some mt →
    ∃ mt', heap st' !! m = Some mt'
           ∧ (wireID mt' = wireID mt
              ∨ (wireID mt = 0 ∧ numWireID st < wireID mt'))).
  { intros m mt Hm.
    destruct (decide (m ∈ order.*2)) as [Hin|Hout].
    - apply list_elem_of_fmap in Hin as ([k m'] & -> & Hin).
      apply list_elem_of_lookup in Hin as [i Hi]. cbn [snd] in *.
      destruct (Hent i k m' Hi) as [Hr Hd].
      destruct (entry_words st st' now order rs i k m' HI HI' Ho Hi Hnum Hr Hd)
        as (r & _ & _ & _ & _ & Hsame & Hch).
      rewrite (deref_Some _ _ _ Hm) in *.
      assert (Hm' : is_Some (heap st' !! m')).
      { apply lookup_lt_is_Some. rewrite Hlen. by eapply lookup_lt_Some. }
      destruct Hm' as [mt' Hm']. rewrite (deref_Some _ _ _ Hm') in *.
      exists mt'. split; [done|].
      destruct (decide (v mt = lastLogVal mt)) as [Heq|Hne].
      + destruct (Hsame Heq) as [_ ->]. by left.
      + destruct (Hch Hne) as (Hkeep & Hnew & _).
        destruct (decide (wireID mt = 0)) as [Hz|Hnz].
        * right. split; [done|]. rewrite (Hnew Hz).
          pose proof (newlyNamed_nonneg st order i). lia.
        * left. by apply Hkeep.
    - exists mt. rewrite Hframe by done. split; [done|by left]. }
  unfold wireStep. split.
  { rewrite Hnum. pose proof (newlyNamed_nonneg st order (length order)). lia. }
  split.
  - intros m mt Hm Hnz. destruct (Hcases m mt Hm) as (mt' & Hm' & [?|[? _]]);
      [eauto|done].
  - intros m mt' Hm' Hnz.
    assert (Hm : is_Some (heap st !! m)).
    { apply lookup_lt_is_Some. rewrite <- Hlen. by eapply lookup_lt_Some. }
    destruct Hm as [mt Hm]. rewrite (deref_Some _ _ _ Hm).
    destruct (Hcases m mt Hm) as (mt'' & Hm'' & Hw). simplify_eq.
    destruct Hw as [?|[_ ?]]; [by left|by right].
Qed.

Lemma wireStep_register nm ty st :
  wireStep st ((m <~ NewUnpublished nm ty ;; Publish m ;;; ret m) st).2.
Proof.
  destruct (validName nm) eqn:Hv.
  - destruct (metrics st !! nm) as [m'|] eqn:Hdup.
    + rewrite register_duplicate by done. by eapply wireStep_alloc.
    + rewrite register_fresh by done. by eapply wireStep_alloc.
  - rewrite register_invalid by done. by apply wireStep_same.
Qed.

Lemma wireStep_exec c st :
  Inv st → admissible c st → wireStep st (exec c st).2.
Proof.
  intros HI Hadm. destruct c; simpl in Hadm; cbn [exec].
  - rewrite discard_result. destruct (validName nm) eqn:Hv.
    + rewrite NewUnpublished_valid by done. by eapply wireStep_alloc.
    + rewrite NewUnpublished_invalid by done. by apply wireStep_same.
  - destruct (decide (name (deref st m) = "")) as [Hn|Hn].
    { rewrite Publish_unnamed by done. by apply wireStep_same. }
    destruct (metrics st !! name (deref st m)) as [m'|] eqn:Hdup.
    { rewrite Publish_duplicate by done. by apply wireStep_same. }
    rewrite Publish_fresh by done. by apply wireStep_same.
  - rewrite discard_result, NewCounter_unfold. apply wireStep_register.
  - rewrite discard_result, NewGauge_unfold. apply wireStep_register.
  - by eapply wireStep_alter.
  - by eapply wireStep_alter.
  - rewrite discard_result.
    destruct (Metrics_spec order st HI Hadm) as (l & -> & _).
    by apply wireStep_same.
  - rewrite discard_result.
    destruct (WritePrometheus_spec order w st HI Hadm) as (l & -> & _).
    by apply wireStep_same.
  - rewrite discard_result. by apply wireStep_Encode.
Qed.

Lemma wireStep_trans st1 st2 st3 :
  wireStep st1 st2 → wireStep st2 st3 → wireStep st1 st3.
Proof.
  intros (Hn12 & Hk12 & Hb12) (Hn23 & Hk23 & Hb23). unfold wireStep.
  split; [lia|]. split.
  - intros m mt Hm Hnz. destruct (Hk12 m mt Hm Hnz) as (mt2 & Hm2 & Hw2).
    destruct (Hk23 m mt2 Hm2) as (mt3 & Hm3 & Hw3); [congruence|].
    exists mt3. split; [done|congruence].
  - intros m mt3 Hm3 Hnz.
    destruct (Hb23 m mt3 Hm3 Hnz) as [Heq|Hgt]; [|right; lia].
    destruct (heap st2 !! m) as [mt2|] eqn:Hm2.
    + rewrite (deref_Some _ _ _ Hm2) in Heq.
      destruct (Hb12 m mt2 Hm2) as [?|?]; [congruence|left; congruence|right; lia].
    + unfold deref in Heq. rewrite Hm2 in Heq. simpl in Heq. congruence.
Qed.

Lemma reaches_wireStep st st' : Inv st → reaches st st' → wireStep st st'.
Proof.
  intros HI. induction 1 as [|st' c Hr IH Hadm]; [by apply wireStep_same|].
  eapply wireStep_trans; [exact IH|].
  apply wireStep_exec; [by eapply reaches_Inv|done].
Qed.

(** C6 — Along every sequence of calls (from a reachable state [st] to
    [st']): no two metrics have the same wireID; a wireID that is set
    never changes; a wireID given to a metric after [st] is greater than
    every wireID that was set in [st], so that none is reused and wireIDs
    grow in the order in which the encoder first sees a change of each
    metric; and inside one scan two metrics that get their wireID get them
    in the order of the scan. The position of a metric in the store (the
    order of construction) plays no part: see [crossed_registration]. *)
Theorem wireIDs_unique_stable_increasing st st' :
  reachable st → reaches st st' →
  (∀ m1 m2, m1 ≠ m2 → wireID (deref st' m1) ≠ 0 →
            wireID (deref st' m1) ≠ wireID (deref st' m2))
  ∧ (∀ m, wireID (deref st m) ≠ 0 →
          wireID (deref st' m) = wireID (deref st m))
  ∧ (∀ m m0, wireID (deref st m) = 0 → wireID (deref st' m) ≠ 0 →
             wireID (deref st m0) < wireID (deref st' m))
  ∧ (∀ now order i j ki mi kj mj,
       rangeOrder st' order → notLimited st' now →
       order !! i = Some (ki, mi) → order !! j = Some (kj, mj) →
       (i < j)%nat →
       needsID st' (ki, mi) → needsID st' (kj, mj) →
       0 < wireID (deref (EncodeLogTailMetricsDelta now order st').2 mi)
         < wireID (deref (EncodeLogTailMetricsDelta now order st').2 mj)).
Proof.
  intros Hreach Hr. pose proof (reachable_Inv st Hreach) as HI.
  pose proof (reaches_Inv st st' HI Hr) as HI'.
  destruct (reaches_wireStep st st' HI Hr) as (Hn & Hkeep & Hback).
  assert (Hderef : ∀ s m, wireID (deref s m) ≠ 0 →
                          heap s !! m = Some (deref s m)).
  { intros s m Hnz. unfold deref in *. by destruct (heap s !! m). }
  split; [|split; [|split]].
  - intros m1 m2 Hne Hnz Heq. apply Hne.
    eapply (inv_wire_inj st' HI' m1 m2); [by apply Hderef| |done|done].
    apply Hderef. congruence.
  - intros m Hnz.
    destruct (Hkeep m _ (Hderef st m Hnz) Hnz) as (mt' & Hm' & Hw).
    by rewrite (deref_Some _ _ _ Hm').
  - intros m m0 Hz Hnz.
    destruct (Hback m _ (Hderef st' m Hnz) Hnz) as [Heq|Hgt]; [congruence|].
    assert (wireID (deref st m0) <= numWireID st); [|lia].
    unfold deref. destruct (heap st !! m0) as [mt0|] eqn:Hm0; simpl.
    + by apply (inv_wire_range st HI m0).
    + pose proof (inv_wire_count st HI). pose proof (assigned_bounds (heap st)).
      lia.
  - intros now order i j ki mi kj mj Ho Hnl Hi Hj Hlt Hni Hnj.
    destruct (Encode_entries now order st' HI' Ho Hnl)
      as (rs & st2 & -> & HI2 & _ & _ & _ & _ & _ & _ & Hnum & _ & Hent & _).
    cbn [snd].
    destruct (Hent i ki mi Hi) as [Hri Hdi].
    destruct (Hent j kj mj Hj) as [Hrj Hdj].
    destruct (entry_words st' st2 now order rs i ki mi HI' HI2 Ho Hi Hnum Hri Hdi)
      as (ri & _ & _ & _ & _ & _ & Hchi).
    destruct (entry_words st' st2 now order rs j kj mj HI' HI2 Ho Hj Hnum Hrj Hdj)
      as (rj & _ & _ & _ & _ & _ & Hchj).
    destruct Hni as [Hpi Hzi]. destruct Hnj as [Hpj Hzj]. cbn [snd] in *.
    destruct (Hchi Hpi) as (_ & Hnewi & Hposi & _).
    destruct (Hchj Hpj) as (_ & Hnewj & _).
    rewrite (Hnewj Hzj). split; [done|]. rewrite (Hnewi Hzi).
    pose proof (newlyNamed_lt st' order i j (ki, mi) Hi
                  (conj Hpi Hzi) Hlt). lia.
Qed.

Lemma sampleEncoded_reachable : reachable sampleEncoded.
Proof.
  unfold sampleEncoded. apply reachable_call; [apply sample_reachable|].
  apply sample_rangeOrder.
Qed.

Lemma sampleLater_reaches : reaches sampleEncoded sampleLater.
Proof.
  unfold sampleLater.
  apply reaches_call; [apply reaches_call; [apply reaches_refl|]|].
  - split; [vm_compute; lia|]. split; vm_compute; discriminate.
  - unfold admissible, rangeOrder, sampleOrder. vm_compute. reflexivity.
Qed.

Lemma wireIDs_unique_stable_increasing_witness :
  wireID (deref sampleLater 0) = wireID (deref sampleEncoded 0).
Proof.
  apply (proj1 (proj2 (wireIDs_unique_stable_increasing
                         sampleEncoded sampleLater
                         sampleEncoded_reachable sampleLater_reaches))).
  vm_compute. discriminate.
Defined.

(** The metric registered second gets the first wireID when it is the
    first to change. *)
Example crossed_registration :
  ∃ st', crossedRun initial = (Ok (2, 1), st').
Proof. eexists. vm_compute. reflexivity. Qed.
End wireID_properties.

(** ** An invocation with one changed metric, and the round trip *)

Section round_trip_properties.
Import NameFacts InvFacts EncFacts RegistryFacts EncoderFacts ScanFacts.
Import ReachFacts EncodeFacts.
Implicit Types (m : loc) (mt : Metric) (st : State).
Implicit Types (order : list (string * loc)).

Lemma filter_none_length {A} (P : A → Prop) `{!∀ x, Decision (P x)}
    (l : list A) :
  (∀ x, x ∈ l → ¬ P x) → length (filter P l) = 0%nat.
Proof.
  induction l as [|x l IH]; intros HP; [done|].
  rewrite filter_cons_False by (apply HP; by left).
  apply IH. intros y Hy. apply HP. by right.
Qed.

Lemma concat_all_nil {A} (ls : list (list A)) :
  (∀ l, l ∈ ls → l = []) → concat ls = [].
Proof.
  induction ls as [|l0 ls IH]; intros Hall; [done|].
  cbn [concat]. rewrite (Hall l0) by by left.
  apply IH. intros l Hl. apply Hall. by right.
Qed.

Lemma concat_single {A} (ls : list (list A)) i r :
  ls !! i = Some r →
  (∀ j r', j ≠ i → ls !! j = Some r' → r' = []) →
  concat ls = r.
Proof.
  intros Hi Hrest.
  rewrite <- (take_drop_middle ls i r Hi), concat_app, concat_cons.
  rewrite !concat_all_nil.
  - by rewrite app_nil_r.
  - intros l [j Hj]%list_elem_of_lookup.
    apply (Hrest (S i + j)%nat); [lia|].
    rewrite <- Hj. by rewrite lookup_drop.
  - intros l [j Hj]%list_elem_of_lookup.
    assert (j < i)%nat.
    { apply lookup_lt_Some in Hj. rewrite length_take in Hj. lia. }
    apply (Hrest j); [lia|]. by rewrite lookup_take_lt in Hj.
Qed.

(** The invocation when one registered metric is the only one that may
    have changed. *)
Lemma Encode_single now order st k m :
  Inv st → rangeOrder st order → notLimited st now →
  metrics st !! k = Some m →
  (∀ k' m', metrics st !! k' = Some m' → m' ≠ m →
            v (deref st m') = lastLogVal (deref st m')) →
  ∃ st',
    EncodeLogTailMetricsDelta now order st
    = (Ok (Wire.renderAll (scanMetric now (numWireID st) (deref st m)).1.1),
       st')
    ∧ Inv st'
    ∧ deref st' m = (scanMetric now (numWireID st) (deref st m)).1.2
    ∧ (∀ k' m', metrics st !! k' = Some m' → m' ≠ m →
                deref st' m' = deref st m')
    ∧ lastDelta st' = now ∧ metrics st' = metrics st
    ∧ length (heap st') = length (heap st).
Proof.
  intros HI Ho Hnl Hk Hquiet.
  destruct (Encode_entries now order st HI Ho Hnl)
    as (rs & st' & Hrun & HI' & Hlen & Hld & Hms & _ & _ & Hhl & _ & _ & Hent & _).
  pose proof (rangeOrder_NoDup_snd st order HI Ho) as Hnd.
  assert (Hpos : ∀ k' m', metrics st !! k' = Some m' →
                          ∃ j, order !! j = Some (k', m')).
  { intros k' m' Hk'. apply list_elem_of_lookup. rewrite Ho.
    by apply elem_of_map_to_list. }
  assert (Hreg : ∀ j k' m', order !! j = Some (k', m') →
                            metrics st !! k' = Some m').
  { intros j k' m' Hj. apply elem_of_map_to_list. rewrite <- Ho.
    by eapply list_elem_of_lookup_2. }
  destruct (Hpos k m Hk) as [i Hi].
  assert (Hother : ∀ j k' m', order !! j = Some (k', m') → j ≠ i → m' ≠ m).
  { intros j k' m' Hj Hne ->. apply Hne.
    eapply (NoDup_lookup _ j i m Hnd);
      rewrite list_lookup_fmap; [by rewrite Hj|by rewrite Hi]. }
  assert (Hunch : ∀ n k' m', metrics st !! k' = Some m' → m' ≠ m →
                             scanMetric now n (deref st m') = ([], deref st m', n)).
  { intros n k' m' Hk' Hne. apply scanMetric_unchanged.
    destruct (inv_registered st HI k' m' Hk') as (mt' & Hm' & _).
    rewrite (deref_Some _ _ _ Hm').
    destruct (inv_values st HI m' mt' Hm').
    rewrite Int64Facts.sub_eqb_0 by done. apply Z.eqb_eq.
    specialize (Hquiet k' m' Hk' Hne). by rewrite (deref_Some _ _ _ Hm') in Hquiet. }
  assert (H0 : newlyNamed st order i = 0).
  { unfold newlyNamed. rewrite filter_none_length; [done|].
    intros [k' m'] [j [Hj Hlt]]%elem_of_take [Hp _]. cbn [snd] in Hp.
    apply Hp. eapply Hquiet; [by eapply Hreg|]. eapply Hother; [done|lia]. }
  destruct (Hent i k m Hi) as [Hri Hdi]. rewrite H0, Z.add_0_r in Hri, Hdi.
  exists st'. split.
  { rewrite Hrun. do 3 f_equal. apply (concat_single rs i); [done|].
    intros j r' Hne Hj.
    assert (Hjo : is_Some (order !! j)).
    { apply lookup_lt_is_Some. rewrite <- Hlen. by eapply lookup_lt_Some. }
    destruct Hjo as [[k' m'] Hjo].
    destruct (Hent j k' m' Hjo) as [Hrj _].
    rewrite (Hunch _ k' m') in Hrj by eauto. cbn [fst] in Hrj. congruence. }
  split; [done|]. split; [done|]. split; [|done].
  intros k' m' Hk' Hne. destruct (Hpos k' m' Hk') as [j Hj].
  destruct (Hent j k' m' Hj) as [_ Hdj].
  by rewrite (Hunch _ k' m') in Hdj by done.
Qed.

(** C4 — Round trip. In a state of the registry in which no metric has a
    change to report, a counter is registered under a valid free name and
    incremented by 5; an encode that is not rate-limited, at [now1],
    returns the frame made of a name record and a value record set to 5
    under the next wireID; the counter is incremented by 3 and a second
    encode, at least 15 seconds and at most 4 hours after the first,
    returns the frame made of one increment record of 3 under the same
    wireID. Read back and applied in turn to any consumer state, the first
    frame gives the metric its name and the value 5, the second the
    value 8. *)
Theorem counter_round_trip st nm now1 now2 order1 order2 :
  reachable st →
  (∀ k m, metrics st !! k = Some m →
          v (deref st m) = lastLogVal (deref st m)) →
  validName nm = true → metrics st !! nm = None →
  Z.of_nat (String.length nm) <= Int64.max_int →
  Z.of_nat (length (heap st)) < Int64.max_int →
  order1 ≡ₚ map_to_list (<[nm := length (heap st)]> (metrics st)) →
  order2 ≡ₚ map_to_list (<[nm := length (heap st)]> (metrics st)) →
  notLimited st now1 → Time.IsZero now1 = false →
  15 * Time.Second <= now2 - now1 <= 4 * Time.Hour →
  let wid := numWireID st + 1 in
  let f1 := "N" +:+ Wire.hexVarint (Z.of_nat (String.length nm)) +:+ nm
            +:+ "S" +:+ Wire.hexVarint wid +:+ Wire.hexVarint 5 in
  let f2 := "I" +:+ Wire.hexVarint wid +:+ Wire.hexVarint 3 in
  ∃ m st',
    roundTripRun nm now1 now2 order1 order2 st = (Ok (m, f1, f2), st')
    ∧ v (deref st' m) = 8 ∧ wireID (deref st' m) = wid
    ∧ Wire.decode f1 = Some [Wire.NameRec nm; Wire.ValueRec wid 5]
    ∧ Wire.decode f2 = Some [Wire.IncRec wid 3]
    ∧ ∀ c0, ∃ c1 c2,
        Wire.consume c0 f1 = Some c1
        ∧ Wire.values c1 !! wid = Some 5 ∧ Wire.names c1 !! wid = Some nm
        ∧ Wire.consume c1 f2 = Some c2
        ∧ Wire.values c2 !! wid = Some 8 ∧ Wire.names c2 !! wid = Some nm.
Proof.
  intros Hreach Hquiet Hv Hfree Hlen Hroom Ho1 Ho2 Hnl Hclock Hgap wid f1 f2.
  set (m := length (heap st)).
  (* registration and the first increment *)
  set (c1 := CallNewCounter nm). set (st1 := (exec c1 st).2).
  assert (Hr1 : reachable st1) by (apply reachable_call; [done|by split]).
  assert (Hst1 : NewCounter nm st
                 = (Ok m, set_sortedDirty true
                            (set_metrics (<[nm := m]> (metrics st))
                               (set_heap (heap st ++ [fresh nm TypeCounter]) st)))).
  { rewrite NewCounter_unfold. by apply register_fresh. }
  assert (Hst1' : st1 = set_sortedDirty true
                          (set_metrics (<[nm := m]> (metrics st))
                             (set_heap (heap st ++ [fresh nm TypeCounter]) st))).
  { subst st1 c1. cbn [exec]. by rewrite discard_result, Hst1. }
  set (st2 := (exec (CallAdd m 5) st1).2).
  assert (Hr2 : reachable st2).
  { apply reachable_call; [done|]. split; [|split; vm_compute; discriminate].
    rewrite Hst1'. simpl. rewrite length_app. simpl. lia. }
  pose proof (reachable_Inv st2 Hr2) as HI2.
  assert (Hm2 : heap st2 !! m = Some (mkMetric 5 nm TypeCounter 0 Time.zero 0)).
  { subst st2. rewrite Hst1'. cbn [exec Add update modify snd heap set_heap
      set_sortedDirty set_metrics].
    rewrite list_lookup_alter_eq, list_lookup_middle by done. reflexivity. }
  assert (Hold2 : ∀ m', m' ≠ m → heap st2 !! m' = (heap st ++ [fresh nm TypeCounter]) !! m').
  { intros m' Hne. subst st2. rewrite Hst1'.
    cbn [exec Add update modify snd heap set_heap set_sortedDirty set_metrics].
    by rewrite list_lookup_alter_ne. }
  assert (Hms2 : metrics st2 = <[nm := m]> (metrics st)).
  { subst st2. by rewrite Hst1'. }
  assert (Hn2 : numWireID st2 = numWireID st) by (subst st2; by rewrite Hst1').
  assert (Hld2 : lastDelta st2 = lastDelta st) by (subst st2; by rewrite Hst1').
  assert (Hregold : ∀ k' m', <[nm := m]> (metrics st) !! k' = Some m' → m' ≠ m →
                             metrics st !! k' = Some m').
  { intros k' m' Hk' Hne. destruct (decide (nm = k')) as [<-|Hnk].
    - rewrite lookup_insert_eq in Hk'. congruence.
    - by rewrite lookup_insert_ne in Hk'. }
  (* the first encode *)
  destruct (Encode_single now1 order1 st2 nm m HI2) as
    (st3 & Hrun3 & HI3 & Hd3 & Hoth3 & Hld3 & Hms3 & Hhl3).
  { unfold rangeOrder. by rewrite Hms2. }
  { unfold notLimited. by rewrite Hld2. }
  { rewrite Hms2. by apply lookup_insert_eq. }
  { intros k' m' Hk' Hne. rewrite Hms2 in Hk'.
    pose proof (Hregold k' m' Hk' Hne) as Hk.
    destruct (inv_registered st (reachable_Inv st Hreach) k' m' Hk)
      as (mt' & Hmt' & _).
    specialize (Hquiet k' m' Hk). rewrite (deref_Some _ _ _ Hmt') in Hquiet.
    unfold deref. rewrite Hold2 by done.
    by rewrite (lookup_app_l_Some _ _ _ _ Hmt'). }
  destruct (next_wire_exact st2 m _ HI2 Hm2 eq_refl) as [Hadd Hnext].
  rewrite Hn2 in Hadd, Hnext. fold wid in Hadd, Hnext.
  rewrite (deref_Some _ _ _ Hm2), Hn2 in Hrun3, Hd3.
  rewrite scanMetric_changed in Hrun3, Hd3 by reflexivity.
  cbn [fst snd wireID v name typ lastNamed lastLogVal dueName Time.IsZero
       Time.zero Z.eqb orb] in Hrun3, Hd3.
  rewrite Hadd in Hrun3, Hd3.
  (* the second increment *)
  set (st4 := (Add m 3 st3).2).
  assert (HI4 : Inv st4) by by apply Inv_Add.
  assert (Hm3 : heap st3 !! m = Some (mkMetric 5 nm TypeCounter wid now1 5)).
  { assert (Hs : is_Some (heap st3 !! m)).
    { apply lookup_lt_is_Some. rewrite Hhl3. by eapply lookup_lt_Some. }
    destruct Hs as [mt3 Hs]. by rewrite (deref_Some _ _ _ Hs) in Hd3; subst. }
  assert (Hm4 : heap st4 !! m = Some (mkMetric 8 nm TypeCounter wid now1 5)).
  { subst st4. cbn [Add update modify snd heap set_heap].
    rewrite list_lookup_alter_eq, Hm3. reflexivity. }
  assert (Hold4 : ∀ m', m' ≠ m → deref st4 m' = deref st3 m').
  { intros m' Hne. subst st4. unfold deref.
    cbn [Add update modify snd heap set_heap].
    by rewrite list_lookup_alter_ne. }
  (* the second encode *)
  destruct (Encode_single now2 order2 st4 nm m HI4) as
    (st5 & Hrun5 & HI5 & Hd5 & _).
  { unfold rangeOrder. subst st4. cbn [Add update modify snd metrics set_heap].
    by rewrite Hms3, Hms2. }
  { right. subst st4. cbn [Add update modify snd lastDelta set_heap].
    rewrite Hld3. revert Hgap.
    unfold Time.Sub, Time.minDuration, Time.maxDuration, Int64.min_int,
      Int64.max_int, minMetricEncodeInterval, Time.Hour, Time.Minute,
      Time.Second, Time.Millisecond, Time.Microsecond, Time.Nanosecond.
    intros Hgap.
    destruct (Z.ltb_spec (now2 - now1) (- 2 ^ 63)); [lia|].
    destruct (Z.ltb_spec (2 ^ 63 - 1) (now2 - now1)); lia. }
  { subst st4. cbn [Add update modify snd metrics set_heap].
    rewrite Hms3, Hms2. by apply lookup_insert_eq. }
  { intros k' m' Hk' Hne.
    assert (Hk2 : metrics st2 !! k' = Some m').
    { revert Hk'. subst st4. cbn [Add update modify snd metrics set_heap].
      by rewrite Hms3. }
    rewrite Hold4 by done. rewrite (Hoth3 k' m' Hk2 Hne).
    rewrite Hms2 in Hk2. pose proof (Hregold k' m' Hk2 Hne) as Hk.
    destruct (inv_registered st (reachable_Inv st Hreach) k' m' Hk)
      as (mt' & Hmt' & _).
    specialize (Hquiet k' m' Hk). rewrite (deref_Some _ _ _ Hmt') in Hquiet.
    unfold deref. rewrite Hold2 by done.
    by rewrite (lookup_app_l_Some _ _ _ _ Hmt'). }
  assert (Hn4 : numWireID st4 = numWireID st3) by done.
  assert (Hwnz : (wid =? 0) = false) by (apply Z.eqb_neq; lia).
  assert (Hdue : dueName now2 (mkMetric 8 nm TypeCounter wid now1 5) = false).
  { apply not_true_is_false. rewrite dueName_iff. cbn [lastNamed].
    unfold Time.IsZero in Hclock. apply Z.eqb_neq in Hclock.
    unfold Time.zero. lia. }
  rewrite (deref_Some _ _ _ Hm4) in Hrun5, Hd5.
  rewrite scanMetric_changed in Hrun5, Hd5 by reflexivity.
  cbn [fst snd wireID v name typ lastNamed lastLogVal] in Hrun5, Hd5.
  rewrite Hdue, Hwnz in Hrun5, Hd5.
  (* the run *)
  assert (Hf1 : Wire.renderAll [Wire.NameRec nm; Wire.ValueRec wid 5] = f1).
  { subst f1. cbn [Wire.renderAll Wire.render].
    by rewrite !app_assoc_s, app_empty_r. }
  assert (Hf2 : Wire.renderAll [Wire.IncRec wid 3] = f2).
  { subst f2. cbn [Wire.renderAll Wire.render].
    by rewrite !app_assoc_s, app_empty_r. }
  change (Int64.sub 8 5) with 3 in Hrun5. rewrite Hf1 in Hrun3. rewrite Hf2 in Hrun5.
  exists m, st5. split.
  { unfold roundTripRun. unfold bind at 1. rewrite Hst1, <- Hst1'.
    unfold bind at 1. change (Add m 5 st1) with (Ok tt, st2).
    unfold bind at 1. rewrite Hrun3.
    unfold bind at 1. change (Add m 3 st3) with (Ok tt, st4).
    unfold bind at 1. by rewrite Hrun5. }
  split; [by rewrite Hd5|]. split; [by rewrite Hd5|].
  assert (Hwr : Int64.in_range wid).
  { unfold Int64.in_range, Int64.min_int in *. lia. }
  assert (Hd1 : Wire.decode f1 = Some [Wire.NameRec nm; Wire.ValueRec wid 5]).
  { rewrite <- Hf1. apply decode_renderAll.
    constructor; [exact Hlen|]. constructor; [|constructor].
    split; [exact Hwr|]. split; vm_compute; discriminate. }
  assert (Hd2 : Wire.decode f2 = Some [Wire.IncRec wid 3]).
  { rewrite <- Hf2. apply decode_renderAll.
    constructor; [|constructor].
    split; [exact Hwr|]. split; vm_compute; discriminate. }
  split; [done|]. split; [done|].
  intros c0. unfold Wire.consume. rewrite Hd1, Hd2.
  eexists _, _. split; [reflexivity|].
  cbn [Wire.applyAll foldl Wire.apply Wire.values Wire.names Wire.pendingName].
  rewrite !lookup_insert_eq. split; [done|]. split; [done|].
  split; [reflexivity|].
  cbn [Wire.applyAll foldl Wire.apply Wire.values Wire.names Wire.pendingName fmap option_fmap option_map].
  rewrite !lookup_insert_eq. done.
Qed.

Lemma counter_round_trip_witness :
  ∃ m st',
    roundTripRun "foo_total" sampleNow (sampleNow + 16 * Time.Second)
      [("foo_total", 0%nat)] [("foo_total", 0%nat)] initial
    = (Ok (m, "N12foo_totalS020a", "I0206"), st')
    ∧ v (deref st' m) = 8.
Proof.
  destruct (counter_round_trip initial "foo_total" sampleNow
              (sampleNow + 16 * Time.Second)
              [("foo_total", 0%nat)] [("foo_total", 0%nat)])
    as (m & st' & Hrun & Hval & _).
  - apply reachable_initial.
  - intros k m Hk. vm_compute in Hk. discriminate Hk.
  - reflexivity.
  - reflexivity.
  - vm_compute. discriminate.
  - vm_compute. reflexivity.
  - vm_compute. reflexivity.
  - vm_compute. reflexivity.
  - left. reflexivity.
  - reflexivity.
  - vm_compute. split; discriminate.
  - exists m, st'. split; [exact Hrun|exact Hval].
Defined.
End round_trip_properties.

(** ** The package run on concrete inputs *)

Section examples.
Example scenario_foo_total :
  ∃ st',
    scenarioRun initial
    = (Ok ("N12foo_totalS0214", "I0207",
           "# TYPE foo_total counter" +:+ newline
           +:+ "foo_total 6" +:+ newline), st').
Proof. eexists. vm_compute. reflexivity. Qed.

Example scenario_decodes :
  Wire.decode "N12foo_totalS0214"
  = Some [Wire.NameRec "foo_total"; Wire.ValueRec 1 10]
  ∧ Wire.decode "I0207" = Some [Wire.IncRec 1 (-4)].
Proof. split; reflexivity. Qed.

Example name_empty_panics :
  NewCounter "" initial = (Panic (PanicIllegalName "" (-1)), initial).
Proof. reflexivity. Qed.

Example name_with_space_panics :
  NewCounter "has space" initial
  = (Panic (PanicIllegalName "has space" 3), initial).
Proof. reflexivity. Qed.

Example name_with_dash_panics :
  NewGauge "has-dash" initial
  = (Panic (PanicIllegalName "has-dash" 3), initial).
Proof. reflexivity. Qed.

Example name_valid_registers :
  ∃ st', NewCounter "valid_Name123" initial = (Ok 0%nat, st').
Proof. eexists. vm_compute. reflexivity. Qed.

Example name_duplicate_panics :
  ∃ st', NewCounter "foo_total" sampleState
         = (Panic (PanicDuplicate "foo_total"), st').
Proof. eexists. vm_compute. reflexivity. Qed.

Example rate_limited_second_call :
  EncodeLogTailMetricsDelta (sampleNow + 14 * Time.Second) sampleOrder
    (Add 0 3 sampleEncoded).2
  = (Ok "", (Add 0 3 sampleEncoded).2).
Proof. vm_compute. reflexivity. Qed.
End examples.

(** ** Further properties: values and registration *)

Section value_properties.
Implicit Types (m : loc) (mt : Metric) (st : State).

Lemma wrap_add_wrap a b :
  Int64.wrap (Int64.wrap a + b) = Int64.wrap (a + b).
Proof. unfold Int64.wrap. Z.div_mod_to_equations. lia. Qed.

Lemma add_add_assoc x a b :
  Int64.add (Int64.add x a) b = Int64.add x (Int64.add a b).
Proof.
  unfold Int64.add. rewrite wrap_add_wrap.
  rewrite (Z.add_comm x (Int64.wrap (a + b))), wrap_add_wrap.
  f_equal. lia.
Qed.

Lemma update_update m (f g : Metric → Metric) st :
  (update m g ;;; update m f) st = update m (f ∘ g) st.
Proof.
  unfold bind, update, modify. destruct st. simpl. unfold set_heap. simpl.
  by rewrite list_alter_alter_eq.
Qed.

Lemma update_ext m (f g : Metric → Metric) st :
  (∀ mt, f mt = g mt) → update m f st = update m g st.
Proof.
  intros Hfg. unfold update, modify. do 2 f_equal.
  by apply list_alter_ext.
Qed.

(** X1 — [Add] and [Set] on one metric compose as 64-bit arithmetic says:
    two [Add]s are one [Add] of the wrapped sum, a [Set] overrides what
    came before, an [Add] after a [Set] sets the wrapped sum; [Add]s on
    different metrics commute. The value stays in the [int64] range, and
    nothing but the value of that metric changes: not its [lastLogVal],
    [wireID] or [lastNamed], not another metric, not the registry. *)
Theorem Add_Set_compose m m' a b x st :
  (Add m a ;;; Add m b) st = Add m (Int64.add a b) st
  ∧ (Add m a ;;; Set' m x) st = Set' m x st
  ∧ (Set' m x ;;; Add m a) st = Set' m (Int64.add x a) st
  ∧ (m ≠ m' → (Add m a ;;; Add m' b) st = (Add m' b ;;; Add m a) st)
  ∧ (∀ mt, heap st !! m = Some mt →
           heap (Add m a st).2 !! m
           = Some (mkMetric (Int64.add (v mt) a) (name mt) (typ mt)
                     (wireID mt) (lastNamed mt) (lastLogVal mt))
           ∧ Int64.in_range (v (deref (Add m a st).2 m)))
  ∧ (m ≠ m' → heap (Add m a st).2 !! m' = heap st !! m')
  ∧ set_heap (heap st) (Add m a st).2 = st.
Proof.
  split; [|split; [|split; [|split; [|split; [|split]]]]].
  - unfold Add. rewrite update_update. apply update_ext. intros mt.
    unfold compose, set_v. simpl. by rewrite add_add_assoc.
  - unfold Add, Set'. rewrite update_update. by apply update_ext.
  - unfold Add, Set'. rewrite update_update. by apply update_ext.
  - intros Hne. unfold Add, bind, update, modify. destruct st. simpl.
    unfold set_heap. simpl. by rewrite list_alter_alter_ne.
  - intros mt Hm. unfold Add, update, modify, deref. simpl.
    rewrite list_lookup_alter_eq, Hm. simpl. split; [done|].
    apply Int64Facts.wrap_in_range.
  - intros Hne. unfold Add, update, modify. simpl.
    by rewrite list_lookup_alter_ne.
  - by destruct st.
Qed.

Lemma Add_Set_compose_witness :
  v (deref (Add 0 (-4) sampleState).2 0) = 6
  ∧ (Add 0 Int64.max_int ;;; Add 0 1) sampleState
    = Add 0 Int64.min_int sampleState.
Proof.
  split.
  - destruct (proj1 (proj2 (proj2 (proj2 (proj2
      (Add_Set_compose 0 0 (-4) 0 0 sampleState)))))
      (mkMetric 10 "foo_total" TypeCounter 0 Time.zero 0) eq_refl)
      as [Hm _].
    unfold deref. rewrite Hm. reflexivity.
  - exact (proj1 (Add_Set_compose 0 0 Int64.max_int 1 0 sampleState)).
Defined.
End value_properties.

Section registration_properties.
Implicit Types (m : loc) (mt : Metric) (st : State).
Implicit Types order : list (string * loc).

Lemma indexFuncFrom_first i s :
  allNameChars s = false →
  ∃ (n : nat) c,
    indexFuncFrom i s isIllegalMetricRune = i + Z.of_nat n
    ∧ (n < String.length s)%nat
    ∧ String.get n s = Some c ∧ isNameChar c = false
    ∧ allNameChars (String.substring 0 n s) = true.
Proof.
  revert i. induction s as [|c s IH]; intros i Hs; [done|].
  simpl in Hs. simpl. rewrite NameFacts.isIllegalMetricRune_runeAt.
  destruct (isNameChar c) eqn:Hc; simpl in *.
  - destruct (IH (i + 1) Hs) as (n & c' & Hi & Hn & Hg & Hc' & Hpre).
    exists (S n), c'. simpl. rewrite Hc, Hpre.
    repeat split; [lia|lia|done|done].
  - exists 0%nat, c. simpl. repeat split; [lia|lia|done].
Qed.

(** X2 — The index in the panic of [NewUnpublished]: -1 for the empty
    name; otherwise the position of the first byte outside [A-Za-z0-9_],
    all bytes before it being inside. The panic leaves the state as it
    was: no object is made. *)
Theorem NewUnpublished_panic_index nm ty st :
  validName nm = false →
  let i := IndexFunc nm isIllegalMetricRune in
  NewUnpublished nm ty st = (Panic (PanicIllegalName nm i), st)
  ∧ (nm = "" → i = -1)
  ∧ (nm ≠ "" →
       0 <= i < Z.of_nat (String.length nm)
       ∧ (∃ c, String.get (Z.to_nat i) nm = Some c ∧ isNameChar c = false)
       ∧ allNameChars (String.substring 0 (Z.to_nat i) nm) = true).
Proof.
  intros Hv i. split; [by apply RegistryFacts.NewUnpublished_invalid|].
  split; [by intros ->|].
  intros Hne. unfold validName in Hv.
  apply andb_false_iff in Hv as [Hv|Hv].
  { apply negb_false_iff, String.eqb_eq in Hv. done. }
  destruct (indexFuncFrom_first 0 nm Hv) as (n & c & Hi & Hn & Hg & Hc & Hpre).
  unfold i, IndexFunc. rewrite Hi, Z.add_0_l, Nat2Z.id. split; [lia|]. split; [by exists c|done].
Qed.

Lemma NewUnpublished_panic_index_witness :
  NewUnpublished "has space" TypeGauge sampleState
  = (Panic (PanicIllegalName "has space" 3), sampleState)
  ∧ String.get 3 "has space" = Some " "%char.
Proof.
  destruct (NewUnpublished_panic_index "has space" TypeGauge sampleState
              eq_refl) as (Hrun & _ & Hi).
  split; [exact Hrun|].
  destruct (Hi ltac:(discriminate)) as (_ & (c & Hg & _) & _).
  vm_compute. reflexivity.
Defined.

Lemma lookup_alloc st mt m :
  (m < length (heap st))%nat →
  heap (set_heap (heap st ++ [mt]) st) !! m = heap st !! m.
Proof. intros Hm. destruct st; simpl in *. by rewrite lookup_app_l. Qed.

(** X3 — Registration in two steps. [NewUnpublished] with a legal name
    makes the object and leaves the registry as it was; a later [Publish]
    reaches the state that [NewCounter] or [NewGauge] reaches at once.
    [Publish] a second time panics with the duplicate name and changes
    nothing, and so does [Publish] of a second object made with the same
    name. *)
Theorem Publish_deferred nm ty ty' st :
  validName nm = true → metrics st !! nm = None →
  ∃ m st1 st2,
    NewUnpublished nm ty st = (Ok m, st1)
    ∧ metrics st1 = metrics st ∧ sortedDirty st1 = sortedDirty st
    ∧ sorted st1 = sorted st
    ∧ Publish m st1 = (Ok tt, st2)
    ∧ (m' <~ NewUnpublished nm ty ;; Publish m' ;;; ret m') st = (Ok m, st2)
    ∧ metrics st2 !! nm = Some m ∧ sortedDirty st2 = true
    ∧ Publish m st2 = (Panic (PanicDuplicate nm), st2)
    ∧ ∃ m2 st3,
        NewUnpublished nm ty' st2 = (Ok m2, st3) ∧ m2 ≠ m
        ∧ Publish m2 st3 = (Panic (PanicDuplicate nm), st3)
        ∧ metrics st3 = metrics st2.
Proof.
  intros Hv Hfree.
  pose proof (NameFacts.validName_nonempty nm Hv) as Hne.
  set (st1 := set_heap (heap st ++ [fresh nm ty]) st).
  set (st2 := set_sortedDirty true
                (set_metrics (<[nm := length (heap st)]> (metrics st)) st1)).
  assert (Hd1 : deref st1 (length (heap st)) = fresh nm ty)
    by apply RegistryFacts.deref_alloc.
  assert (Hd2 : deref st2 (length (heap st)) = fresh nm ty) by exact Hd1.
  exists (length (heap st)), st1, st2.
  split; [by apply RegistryFacts.NewUnpublished_valid|].
  split; [done|]. split; [done|]. split; [done|].
  split.
  { rewrite RegistryFacts.Publish_fresh; rewrite Hd1; simpl; done. }
  split; [by apply RegistryFacts.register_fresh|].
  split; [apply lookup_insert_eq|].
  split; [done|].
  split.
  { rewrite RegistryFacts.Publish_duplicate; rewrite Hd2; simpl; [done|done|].
    exists (length (heap st)). apply lookup_insert_eq. }
  set (st3 := set_heap (heap st2 ++ [fresh nm ty']) st2).
  assert (Hd3 : deref st3 (length (heap st2)) = fresh nm ty')
    by apply RegistryFacts.deref_alloc.
  exists (length (heap st2)), st3.
  split; [by apply RegistryFacts.NewUnpublished_valid|].
  split.
  { simpl. rewrite length_app. simpl. lia. }
  split; [|done].
  rewrite RegistryFacts.Publish_duplicate; rewrite Hd3; simpl; [done|done|].
  exists (length (heap st)). apply lookup_insert_eq.
Qed.

Lemma Publish_deferred_witness :
  ∃ m st1 st2,
    NewUnpublished "bar" TypeGauge sampleState = (Ok m, st1)
    ∧ Publish m st1 = (Ok tt, st2)
    ∧ Publish m st2 = (Panic (PanicDuplicate "bar"), st2).
Proof.
  destruct (Publish_deferred "bar" TypeGauge TypeCounter sampleState
              eq_refl eq_refl)
    as (m & st1 & st2 & H1 & _ & _ & _ & H2 & _ & _ & _ & H3 & _).
  exists m, st1, st2. split; [exact H1|]. split; [exact H2|exact H3].
Defined.

(** X4 — The sorted slice does not depend on the order in which the map
    is ranged over: two iteration orders of the same registry give the same
    slice and the same state. The slice has one entry per registered name
    and is the only ascending arrangement of the registered metrics; a
    second call returns it again from the cache, whatever the iteration
    order, and changes nothing. *)
Theorem Metrics_order_independent st o1 o2 :
  reachable st → rangeOrder st o1 → rangeOrder st o2 →
  ∃ l st',
    Metrics o1 st = (Ok l, st') ∧ Metrics o2 st = (Ok l, st')
    ∧ Metrics o2 st' = (Ok l, st')
    ∧ length l = size (metrics st)
    ∧ ∀ l', l' ≡ₚ registered st → sortedByName st l' → l' = l.
Proof.
  intros Hreach H1 H2. pose proof (ReachFacts.reachable_Inv st Hreach) as HI.
  destruct (RegistryFacts.Metrics_spec o1 st HI H1) as (l1 & Hrun1 & Hp1 & Hs1 & _).
  destruct (RegistryFacts.Metrics_spec o2 st HI H2) as (l2 & Hrun2 & Hp2 & Hs2 & _).
  assert (Huniq : ∀ l', l' ≡ₚ registered st → sortedByName st l' → l' = l1).
  { intros l' Hp Hs.
    apply (sorted_by_key_unique (λ m, name (deref st m))); [exact Hs|exact Hs1|].
    by rewrite Hp, Hp1. }
  rewrite (Huniq l2 Hp2 Hs2) in Hrun2.
  exists l1, (set_sorted l1 (set_sortedDirty false st)).
  split; [exact Hrun1|]. split; [exact Hrun2|].
  split; [by rewrite RegistryFacts.Metrics_clean|].
  split; [|exact Huniq].
  rewrite Hp1. unfold registered.
  by rewrite length_fmap, length_map_to_list.
Qed.

Lemma Metrics_order_independent_witness :
  ∃ l st',
    Metrics sampleOrder sampleState = (Ok l, st')
    ∧ Metrics (reverse sampleOrder) sampleState = (Ok l, st')
    ∧ length l = 1%nat.
Proof.
  destruct (Metrics_order_independent sampleState sampleOrder
              (reverse sampleOrder) sample_reachable sample_rangeOrder)
    as (l & st' & H1 & H2 & _ & Hlen & _).
  { unfold rangeOrder. rewrite reverse_Permutation. exact sample_rangeOrder. }
  exists l, st'. split; [exact H1|]. split; [exact H2|].
  rewrite Hlen. vm_compute. reflexivity.
Defined.
End registration_properties.

Section varint_size.
Lemma base128_length_le n u (k : nat) :
  0 <= u → (1 ≤ k)%nat → (k < n)%nat →
  (length (Wire.base128 n u) ≤ k)%nat ↔ u < 2 ^ (7 * Z.of_nat k).
Proof.
  revert u k. induction n as [|n IH]; intros u k Hu Hk Hkn; [lia|].
  simpl. destruct (u <? 128) eqn:Hlt.
  - apply Z.ltb_lt in Hlt. simpl. split; [intros _|lia].
    assert (2 ^ 7 <= 2 ^ (7 * Z.of_nat k))
      by (apply Z.pow_le_mono_r; lia).
    change (2 ^ 7) with 128 in *. lia.
  - apply Z.ltb_ge in Hlt. simpl.
    destruct k as [|k]; [lia|].
    rewrite VarintFacts.pow128_succ.
    destruct k as [|k].
    + change (2 ^ (7 * Z.of_nat 0)) with 1.
      destruct n as [|n]; [lia|].
      pose proof (VarintFacts.base128_nonempty n (u / 128)) as Hne.
      destruct (Wire.base128 (S n) (u / 128)); [done|]. simpl. lia.
    + rewrite <- Nat.succ_le_mono.
      rewrite IH; [|apply Z.div_pos; lia|lia|lia].
      generalize (2 ^ (7 * Z.of_nat (S k))). intros q.
      Z.div_mod_to_equations. lia.
Qed.

Lemma zigzag_lt x (k : nat) :
  (1 ≤ k)%nat →
  Wire.zigzag x < 2 ^ (7 * Z.of_nat k)
  ↔ - 2 ^ (7 * Z.of_nat k - 1) <= x < 2 ^ (7 * Z.of_nat k - 1).
Proof.
  intros Hk.
  assert (Hp : 2 ^ (7 * Z.of_nat k) = 2 * 2 ^ (7 * Z.of_nat k - 1)).
  { rewrite <- Z.pow_succ_r by lia. f_equal. lia. }
  unfold Wire.zigzag. destruct (0 <=? x) eqn:Hx.
  - apply Z.leb_le in Hx.
    pose proof (Z.pow_pos_nonneg 2 (7 * Z.of_nat k - 1)). lia.
  - apply Z.leb_gt in Hx.
    pose proof (Z.pow_pos_nonneg 2 (7 * Z.of_nat k - 1)). lia.
Qed.

(** X5 — [writeHexVarint] on a buffer with its ten-byte scratch array
    never indexes out of range, and appends two hexadecimal digits per
    varint byte: between 2 and 20 digits, and at most [2k] digits exactly
    when the value is in [-2^(7k-1), 2^(7k-1)), for k from 1 to 9. The text
    already in the buffer is kept. *)
Theorem writeHexVarint_size b x :
  encOK b → Int64.in_range x →
  ∃ b' (n : nat),
    writeHexVarint b x = Some b' ∧ encOK b'
    ∧ (1 ≤ n ≤ 10)%nat
    ∧ String.length (buf b') = (String.length (buf b) + 2 * n)%nat
    ∧ String.substring 0 (String.length (buf b)) (buf b') = buf b
    ∧ ∀ k : nat, (1 ≤ k ≤ 9)%nat →
        (n ≤ k)%nat
        ↔ - 2 ^ (7 * Z.of_nat k - 1) <= x < 2 ^ (7 * Z.of_nat k - 1).
Proof.
  intros Hb Hx.
  destruct (EncFacts.writeHexVarint_spec b x Hb Hx) as (b' & Hrun & Hbuf & Hb').
  exists b', (length (Wire.varint x)).
  split; [exact Hrun|]. split; [exact Hb'|].
  split; [apply VarintFacts.varint_length|].
  split.
  { rewrite Hbuf, length_app_s. unfold Wire.hexVarint.
    by rewrite VarintFacts.hexBytes_length. }
  split.
  { rewrite Hbuf. generalize (Wire.hexVarint x). generalize (buf b).
    intros s t. induction s as [|c s IH]; simpl.
    - by destruct t.
    - by rewrite IH. }
  intros k Hk. unfold Wire.varint.
  rewrite base128_length_le; [|apply VarintFacts.zigzag_nonneg|lia|lia].
  apply zigzag_lt. lia.
Qed.

Lemma writeHexVarint_size_witness :
  ∃ b', writeHexVarint newDeltaEncBuf 63 = Some b'
        ∧ String.length (buf b') = 2%nat.
Proof.
  destruct (writeHexVarint_size newDeltaEncBuf 63 eq_refl)
    as (b' & n & Hrun & _ & Hn & Hlen & _ & Hk).
  { unfold Int64.in_range, Int64.min_int, Int64.max_int. lia. }
  exists b'. split; [exact Hrun|].
  assert (n ≤ 1)%nat by (apply (Hk 1%nat); simpl; lia).
  rewrite Hlen. simpl. lia.
Defined.
End varint_size.

(** ** Further invariants of the reachable states *)

Section log_invariants.
Import InvFacts RegistryFacts EncoderFacts ReachFacts EncodeFacts.
Implicit Types (m : loc) (mt : Metric) (st : State).
Implicit Types (order : list (string * loc)).

Lemma limited_or_not st now :
  (Time.IsZero (lastDelta st) = false
   ∧ Time.Sub now (lastDelta st) < minMetricEncodeInterval)
  ∨ notLimited st now.
Proof.
  unfold notLimited.
  destruct (Time.IsZero (lastDelta st)); [by right; left|].
  destruct (Z.lt_ge_cases (Time.Sub now (lastDelta st)) minMetricEncodeInterval);
    [by left|by right; right].
Qed.

Lemma logged_initial : logged initial.
Proof. intros m mt Hm. done. Qed.

Lemma logged_same st st' :
  heap st' = heap st → metrics st' = metrics st → logged st → logged st'.
Proof. intros Hh Hms HL m mt. rewrite Hh, Hms. apply HL. Qed.

Lemma logged_alloc st nm ty :
  logged st → logged (set_heap (heap st ++ [fresh nm ty]) st).
Proof.
  intros HL m mt Hm. destruct st as [h ms n ld sd so dp]; simpl in *.
  apply lookup_app_Some in Hm as [Hm|[_ Hm]]; [by apply (HL m mt)|].
  apply list_lookup_singleton_Some in Hm as [_ <-]. done.
Qed.

Lemma logged_publish st m0 nm :
  logged st → metrics st !! nm = None →
  logged (set_sortedDirty true (set_metrics (<[nm := m0]> (metrics st)) st)).
Proof.
  intros HL Hfree m mt Hm. destruct st as [h ms n ld sd so dp]; simpl in *.
  destruct (HL m mt Hm) as [H0 H1]. split; [exact H0|].
  intros Hw. specialize (H1 Hw).
  rewrite lookup_insert_ne; [done|]. intros Heq. subst nm. simpl in H1. congruence.
Qed.

Lemma logged_alter st m0 (f : Metric → Metric) :
  (∀ mt, wireID (f mt) = wireID mt ∧ lastNamed (f mt) = lastNamed mt
         ∧ lastLogVal (f mt) = lastLogVal mt ∧ name (f mt) = name mt) →
  logged st → logged (set_heap (alter f m0 (heap st)) st).
Proof.
  intros Hf HL m mt Hm. destruct st as [h ms n ld sd so dp]; simpl in *.
  destruct (decide (m = m0)) as [->|Hne].
  - rewrite list_lookup_alter_eq in Hm.
    destruct (h !! m0) as [mt0|] eqn:Hm0; [|done].
    simpl in Hm. injection Hm as <-.
    destruct (Hf mt0) as (Hf1 & Hf2 & Hf3 & Hf4).
    rewrite Hf1, Hf2, Hf3, Hf4. by apply (HL m0 mt0).
  - rewrite list_lookup_alter_ne in Hm by done. by apply (HL m mt).
Qed.

Lemma logged_register nm ty st :
  logged st → logged ((m <~ NewUnpublished nm ty ;; Publish m ;;; ret m) st).2.
Proof.
  intros HL. destruct (validName nm) eqn:Hv.
  - destruct (metrics st !! nm) as [m'|] eqn:Hdup.
    + rewrite register_duplicate by done. by apply logged_alloc.
    + rewrite register_fresh by done. simpl.
      apply (logged_publish (set_heap (heap st ++ [fresh nm ty]) st));
        [by apply logged_alloc|done].
  - by rewrite register_invalid.
Qed.

Lemma logged_Encode now order st :
  Inv st → rangeOrder st order → logged st →
  logged (EncodeLogTailMetricsDelta now order st).2.
Proof.
  intros HI Ho HL.
  destruct (limited_or_not st now) as [[Hz Hlt]|Hnl].
  { by rewrite Encode_limited. }
  destruct (Encode_entries now order st HI Ho Hnl)
    as (rs & st' & -> & HI' & Hlen & _ & Hms & _ & _ & Hhl & Hnum & _ & Hat & Hframe).
  simpl. intros m mt' Hm'.
  destruct (decide (m ∈ order.*2)) as [Hin|Hout].
  - apply list_elem_of_fmap in Hin as ([k m0] & -> & Hin). simpl in *.
    apply list_elem_of_lookup in Hin as [i Hi].
    destruct (rangeOrder_lookup st order i k m0 HI Ho Hi) as (mt & Hm & Hk).
    destruct (Hat i k m0 Hi) as [Hr Hd].
    destruct (entry_words st st' now order rs i k m0 HI HI' Ho Hi Hnum Hr Hd)
      as (r & _ & _ & _ & Hname & Hsame & Hchg).
    rewrite (deref_Some _ _ _ Hm) in *. rewrite (deref_Some _ _ _ Hm') in *.
    assert (Hreg : metrics st !! name mt = Some m0).
    { rewrite Hk. apply elem_of_map_to_list. rewrite <- Ho.
      by eapply list_elem_of_lookup_2. }
    rewrite Hms, Hname.
    destruct (decide (v mt = lastLogVal mt)) as [He|Hc].
    + destruct (Hsame He) as [_ ->]. split; [apply (HL m0 mt Hm)|done].
    + destruct (Hchg Hc) as (_ & _ & Hpos & _). split; [lia|done].
  - rewrite (Hframe m Hout) in Hm'. rewrite Hms. by apply (HL m mt').
Qed.

Lemma logged_exec c st :
  Inv st → admissible c st → logged st → logged (exec c st).2.
Proof.
  intros HI Hadm HL. destruct c; simpl in Hadm; cbn [exec].
  - rewrite discard_result. destruct (validName nm) eqn:Hv.
    + rewrite NewUnpublished_valid by done. by apply logged_alloc.
    + by rewrite NewUnpublished_invalid.
  - destruct (decide (name (deref st m) = "")) as [Hn|Hn].
    { by rewrite Publish_unnamed. }
    destruct (metrics st !! name (deref st m)) as [m'|] eqn:Hdup.
    { by rewrite Publish_duplicate. }
    rewrite Publish_fresh by done. by apply logged_publish.
  - rewrite discard_result, NewCounter_unfold. by apply logged_register.
  - rewrite discard_result, NewGauge_unfold. by apply logged_register.
  - by apply logged_alter.
  - by apply logged_alter.
  - rewrite discard_result.
    destruct (Metrics_spec order st HI Hadm) as (l & -> & _).
    by apply (logged_same st).
  - rewrite discard_result.
    destruct (WritePrometheus_spec order w st HI Hadm) as (l & -> & _).
    by apply (logged_same st).
  - rewrite discard_result. by apply logged_Encode.
Qed.

Lemma reachable_logged st : reachable st → logged st.
Proof.
  induction 1 as [|st c Hreach IH Hadm]; [apply logged_initial|].
  apply logged_exec; [by apply reachable_Inv|done|done].
Qed.

Lemma assigned_wired h : assigned h = Z.of_nat (length (wired h)).
Proof.
  unfold wired. induction h as [|mt h IH]; [done|].
  rewrite filter_cons. simpl assigned. rewrite IH.
  destruct (decide (wireID mt ≠ 0)) as [Hw|Hw].
  - apply Z.eqb_neq in Hw. rewrite Hw. simpl length. lia.
  - apply dec_stable in Hw. rewrite Hw. simpl. lia.
Qed.

Lemma wired_elem h mt :
  mt ∈ wired h ↔ ∃ m, h !! m = Some mt ∧ wireID mt ≠ 0.
Proof.
  unfold wired. rewrite list_elem_of_filter, list_elem_of_lookup.
  split; [intros [Hw [m Hm]]; by exists m|intros (m & Hm & Hw); by eauto].
Qed.

(** A function that tells the objects with a wireID apart is injective on
    the list of them. *)
Lemma wired_NoDup {K} (f : Metric → K) h :
  (∀ m1 m2 mt1 mt2, h !! m1 = Some mt1 → h !! m2 = Some mt2 →
     wireID mt1 ≠ 0 → wireID mt2 ≠ 0 → f mt1 = f mt2 → m1 = m2) →
  NoDup (f <$> wired h).
Proof.
  unfold wired. induction h as [|mt h IH]; intros Hinj; [constructor|].
  assert (Htail : NoDup (f <$> filter (λ mt, wireID mt ≠ 0) h)).
  { apply IH. intros m1 m2 mt1 mt2 H1 H2 Hw1 Hw2 Hf.
    assert (S m1 = S m2) by (by eapply Hinj). lia. }
  rewrite filter_cons. destruct (decide (wireID mt ≠ 0)) as [Hw|Hw]; [|done].
  rewrite fmap_cons. apply NoDup_cons. split; [|done].
  intros Hin. apply list_elem_of_fmap in Hin as (mt2 & Hf & Hin).
  apply wired_elem in Hin as (m2 & Hm2 & Hw2).
  assert (0%nat = S m2) by (by eapply (Hinj 0%nat (S m2) mt mt2)).
  lia.
Qed.

Lemma wireIDs_dense st w :
  Inv st →
  1 <= w <= numWireID st → ∃ mt, mt ∈ wired (heap st) ∧ wireID mt = w.
Proof.
  intros HI Hw.
  assert (Hnd : NoDup (wireID <$> wired (heap st))).
  { apply wired_NoDup. intros m1 m2 mt1 mt2 H1 H2 Hw1 _ He.
    by apply (inv_wire_inj st HI m1 m2 mt1 mt2). }
  assert (Hsub : wireID <$> wired (heap st) ⊆+ seqZ 1 (numWireID st)).
  { apply NoDup_submseteq; [done|]. intros x Hx.
    apply list_elem_of_fmap in Hx as (mt & -> & Hin).
    apply wired_elem in Hin as (m & Hm & Hnz).
    pose proof (inv_wire_range st HI m mt Hm).
    apply elem_of_seqZ. lia. }
  assert (Hperm : wireID <$> wired (heap st) ≡ₚ seqZ 1 (numWireID st)).
  { apply submseteq_length_Permutation; [done|].
    rewrite length_seqZ, length_fmap.
    rewrite (inv_wire_count st HI), assigned_wired. lia. }
  assert (Hin : w ∈ wireID <$> wired (heap st)).
  { rewrite Hperm. apply elem_of_seqZ. lia. }
  apply list_elem_of_fmap in Hin as (mt & -> & Hin). by exists mt.
Qed.

Lemma wired_registered st :
  Inv st → logged st → numWireID st <= Z.of_nat (size (metrics st)).
Proof.
  intros HI HL.
  assert (Hnd : NoDup (name <$> wired (heap st))).
  { apply wired_NoDup. intros m1 m2 mt1 mt2 H1 H2 Hw1 Hw2 He.
    destruct (HL m1 mt1 H1) as [_ Hr1]. destruct (HL m2 mt2 H2) as [_ Hr2].
    specialize (Hr1 Hw1). specialize (Hr2 Hw2). congruence. }
  assert (Hsub : name <$> wired (heap st) ⊆+ (map_to_list (metrics st)).*1).
  { apply NoDup_submseteq; [done|]. intros x Hx.
    apply list_elem_of_fmap in Hx as (mt & -> & Hin).
    apply wired_elem in Hin as (m & Hm & Hnz).
    destruct (HL m mt Hm) as [_ Hr]. specialize (Hr Hnz).
    apply list_elem_of_fmap. exists (name mt, m). split; [done|].
    by apply elem_of_map_to_list. }
  apply submseteq_length in Hsub.
  rewrite !length_fmap, length_map_to_list in Hsub.
  rewrite (inv_wire_count st HI), assigned_wired. lia.
Qed.

(** X6 — In every state the package can reach: an object without a
    wireID has never been named nor logged ([lastNamed] is the zero time
    and [lastLogVal] is 0); an object with a wireID is registered under
    its name; the wireIDs in use are exactly 1 to [numWireID], without a
    gap; and [numWireID] is at most the number of registered metrics. *)
Theorem wireIDs_dense_and_registered st :
  reachable st →
  (∀ m mt, heap st !! m = Some mt →
     (wireID mt = 0 → lastNamed mt = Time.zero ∧ lastLogVal mt = 0)
     ∧ (wireID mt ≠ 0 → metrics st !! name mt = Some m))
  ∧ (∀ w, 1 <= w <= numWireID st
          ↔ ∃ k m, metrics st !! k = Some m ∧ wireID (deref st m) = w
                   ∧ w ≠ 0)
  ∧ 0 <= numWireID st <= Z.of_nat (size (metrics st)).
Proof.
  intros Hreach. pose proof (reachable_Inv st Hreach) as HI.
  pose proof (reachable_logged st Hreach) as HL.
  split; [exact HL|]. split.
  - intros w. split.
    + intros Hw. destruct (wireIDs_dense st w HI Hw) as (mt & Hin & <-).
      apply wired_elem in Hin as (m & Hm & Hnz).
      destruct (HL m mt Hm) as [_ Hr].
      exists (name mt), m. rewrite (deref_Some _ _ _ Hm). by auto.
    + intros (k & m & Hk & Hw & Hnz).
      destruct (inv_registered st HI k m Hk) as (mt & Hm & _).
      rewrite (deref_Some _ _ _ Hm) in Hw.
      pose proof (inv_wire_range st HI m mt Hm). lia.
  - split; [|by apply wired_registered].
    rewrite (inv_wire_count st HI). apply assigned_bounds.
Qed.

Lemma wireIDs_dense_and_registered_witness :
  numWireID sampleEncoded = 1
  ∧ ∃ k m, metrics sampleEncoded !! k = Some m
           ∧ wireID (deref sampleEncoded m) = 1.
Proof.
  split; [vm_compute; reflexivity|].
  destruct (wireIDs_dense_and_registered sampleEncoded sampleEncoded_reachable)
    as (_ & Hdense & _).
  destruct (proj1 (Hdense 1)) as (k & m & Hk & Hw & _).
  { assert (numWireID sampleEncoded = 1) as -> by (vm_compute; reflexivity).
    lia. }
  exists k, m. split; [exact Hk|exact Hw].
Defined.
End log_invariants.

(** ** Frames: when they are empty, and what they hold *)

Section frame_properties.
Import InvFacts EncFacts RegistryFacts EncoderFacts ReachFacts EncodeFacts.
Implicit Types (m : loc) (mt : Metric) (st : State).
Implicit Types (order : list (string * loc)).

Lemma sub_diag x : Int64.sub x x = 0.
Proof. unfold Int64.sub. rewrite Z.sub_diag. reflexivity. Qed.

Lemma encodeMetric_unchanged now enc km st :
  v (deref st km.2) = lastLogVal (deref st km.2) →
  encodeMetric now enc km st = (Ok enc, st).
Proof.
  intros He. unfold encodeMetric, bind, Value, gets. cbn zeta.
  by rewrite He, sub_diag.
Qed.

Lemma forRange_unchanged now order enc st :
  (∀ km, km ∈ order → v (deref st km.2) = lastLogVal (deref st km.2)) →
  forRange order (encodeMetric now) enc st = (Ok enc, st).
Proof.
  induction order as [|km order IH]; intros Hall; [done|].
  simpl. unfold bind at 1.
  rewrite encodeMetric_unchanged by (apply Hall; left).
  apply IH. intros km' Hin. apply Hall. by right.
Qed.

Lemma Encode_unchanged now order st :
  notLimited st now →
  (∀ km, km ∈ order → v (deref st km.2) = lastLogVal (deref st km.2)) →
  EncodeLogTailMetricsDelta now order st = (Ok "", set_lastDelta now st).
Proof.
  intros Hnl Hall. rewrite Encode_records_first by done.
  unfold scanMetrics, bind. by rewrite forRange_unchanged.
Qed.

Lemma rangeOrder_pos st order k m :
  rangeOrder st order →
  metrics st !! k = Some m ↔ ∃ i, order !! i = Some (k, m).
Proof.
  intros Ho. rewrite <- list_elem_of_lookup, Ho.
  by rewrite elem_of_map_to_list.
Qed.

(** The records of a scan, entry by entry, in the words of the final
    state. *)
Lemma Encode_groups now order st :
  Inv st → rangeOrder st order → notLimited st now →
  ∃ rs st',
    EncodeLogTailMetricsDelta now order st
    = (Ok (Wire.renderAll (concat rs)), st')
    ∧ Inv st' ∧ lastDelta st' = now ∧ metrics st' = metrics st
    ∧ Forall wfRecord (concat rs) ∧ length rs = length order
    ∧ ∀ i k m, order !! i = Some (k, m) →
        metrics st !! k = Some m
        ∧ name (deref st m) = k
        ∧ is_Some (heap st' !! m)
        ∧ v (deref st' m) = v (deref st m)
        ∧ lastLogVal (deref st' m) = v (deref st m)
        ∧ ∃ r, rs !! i = Some r
            ∧ (v (deref st m) = lastLogVal (deref st m) → r = [])
            ∧ (v (deref st m) ≠ lastLogVal (deref st m) →
                 0 < wireID (deref st' m)
                 ∧ (r = [Wire.NameRec k;
                         Wire.ValueRec (wireID (deref st' m)) (v (deref st m))]
                    ∨ r = [Wire.IncRec (wireID (deref st' m))
                             (Int64.sub (v (deref st m))
                                (lastLogVal (deref st m)))])).
Proof.
  intros HI Ho Hnl.
  destruct (Encode_entries now order st HI Ho Hnl)
    as (rs & st' & Hrun & HI' & Hlen & Hld & Hms & _ & _ & Hhl & Hnum & Hwf
        & Hat & _).
  exists rs, st'. split; [exact Hrun|]. split; [exact HI'|].
  split; [exact Hld|]. split; [exact Hms|]. split; [exact Hwf|].
  split; [exact Hlen|].
  intros i k m Hi.
  destruct (rangeOrder_lookup st order i k m HI Ho Hi) as (mt & Hm & Hk).
  destruct (Hat i k m Hi) as [Hr Hd].
  destruct (entry_words st st' now order rs i k m HI HI' Ho Hi Hnum Hr Hd)
    as (r & Hri & Hlast & Hv & _ & Hsame & Hchg).
  split; [apply (rangeOrder_pos st order k m Ho); by exists i|].
  split; [by rewrite (deref_Some _ _ _ Hm)|].
  split.
  { apply lookup_lt_is_Some. rewrite Hhl. by eapply lookup_lt_Some. }
  split; [exact Hv|]. split; [exact Hlast|].
  exists r. split; [exact Hri|]. split; [intros He; by destruct (Hsame He)|].
  intros Hc. destruct (Hchg Hc) as (_ & _ & Hpos & Hdue & Hnot).
  split; [exact Hpos|].
  rewrite (deref_Some _ _ _ Hm) in *. rewrite Hk in *.
  destruct (decide (lastNamed mt = Time.zero
                    ∨ 4 * Time.Hour < now - lastNamed mt)) as [Hd'|Hd'].
  - left. by destruct (Hdue Hd').
  - right. by destruct (Hnot Hd').
Qed.

(** X7 — An encoder call that is not rate-limited returns the empty
    string exactly when no registered metric has a value different from
    the one last logged. In that case the call changes nothing but
    [lastDelta]: no buffer is taken from the pool and no wireID is
    assigned. *)
Theorem Encode_empty_iff st now order :
  reachable st → rangeOrder st order → notLimited st now →
  ∃ out st',
    EncodeLogTailMetricsDelta now order st = (Ok out, st')
    ∧ (out = ""
       ↔ ∀ k m, metrics st !! k = Some m →
                v (deref st m) = lastLogVal (deref st m))
    ∧ (out = "" → st' = set_lastDelta now st).
Proof.
  intros Hreach Ho Hnl. pose proof (reachable_Inv st Hreach) as HI.
  destruct (Encode_groups now order st HI Ho Hnl)
    as (rs & st' & Hrun & _ & _ & _ & _ & _ & Hat).
  exists (Wire.renderAll (concat rs)), st'. split; [exact Hrun|].
  assert (Hback : (∀ k m, metrics st !! k = Some m →
                          v (deref st m) = lastLogVal (deref st m)) →
                  Wire.renderAll (concat rs) = "" ∧ st' = set_lastDelta now st).
  { intros Hall.
    rewrite Encode_unchanged in Hrun; [by injection Hrun as <- <-|done|].
    intros [k m] Hin. apply (Hall k m).
    apply (rangeOrder_pos st order k m Ho). by apply list_elem_of_lookup. }
  assert (Hforth : Wire.renderAll (concat rs) = "" →
                   ∀ k m, metrics st !! k = Some m →
                          v (deref st m) = lastLogVal (deref st m)).
  { intros Hempty k m [i Hi]%(rangeOrder_pos st order k m Ho).
    destruct (Hat i k m Hi) as (_ & _ & _ & _ & _ & r & Hr & _ & Hchg).
    destruct (decide (v (deref st m) = lastLogVal (deref st m))) as [|Hne];
      [done|exfalso].
    apply renderAll_nil_inv in Hempty.
    assert (Hr0 : r = []).
    { apply (concat_nil_inv rs Hempty). by eapply list_elem_of_lookup_2. }
    destruct (Hchg Hne) as (_ & [-> | ->]); discriminate Hr0. }
  split; [split; [exact Hforth|intros Hall; by destruct (Hback Hall)]|].
  intros Hempty. by destruct (Hback (Hforth Hempty)).
Qed.

Lemma Encode_empty_iff_witness :
  EncodeLogTailMetricsDelta (sampleNow + 16 * Time.Second) sampleOrder
    sampleEncoded
  = (Ok "", set_lastDelta (sampleNow + 16 * Time.Second) sampleEncoded).
Proof.
  destruct (Encode_empty_iff sampleEncoded (sampleNow + 16 * Time.Second)
              sampleOrder sampleEncoded_reachable)
    as (out & st' & Hrun & Hiff & Hst).
  { vm_compute. reflexivity. }
  { right. vm_compute. discriminate. }
  assert (Hout : out = "").
  { apply Hiff. intros k m Hk.
    assert (Hin : (k, m) ∈ [("foo_total", 0%nat)]).
    { apply elem_of_map_to_list in Hk. exact Hk. }
    apply list_elem_of_singleton in Hin. injection Hin as -> ->.
    vm_compute. reflexivity. }
  rewrite Hrun, (Hst Hout), Hout. reflexivity.
Defined.

(** X8 — An encoder call that is not rate-limited drains the registry:
    afterwards every registered metric has its value as the last logged
    one, so that a further call, at whatever time and in whatever
    iteration order, returns the empty string and leaves the store and
    [numWireID] as they are, until a value changes. *)
Theorem Encode_drains st now order :
  reachable st → rangeOrder st order → notLimited st now →
  ∃ out st',
    EncodeLogTailMetricsDelta now order st = (Ok out, st')
    ∧ (∀ k m, metrics st' !! k = Some m →
              v (deref st' m) = v (deref st m)
              ∧ lastLogVal (deref st' m) = v (deref st m))
    ∧ ∀ now' order', rangeOrder st' order' →
        ∃ st'', EncodeLogTailMetricsDelta now' order' st' = (Ok "", st'')
                ∧ heap st'' = heap st' ∧ numWireID st'' = numWireID st'
                ∧ deltaPool st'' = deltaPool st'.
Proof.
  intros Hreach Ho Hnl. pose proof (reachable_Inv st Hreach) as HI.
  destruct (Encode_groups now order st HI Ho Hnl)
    as (rs & st' & Hrun & _ & _ & Hms & _ & _ & Hat).
  exists (Wire.renderAll (concat rs)), st'. split; [exact Hrun|].
  assert (Hdone : ∀ k m, metrics st' !! k = Some m →
                         v (deref st' m) = v (deref st m)
                         ∧ lastLogVal (deref st' m) = v (deref st m)).
  { intros k m. rewrite Hms.
    intros [i Hi]%(rangeOrder_pos st order k m Ho).
    destruct (Hat i k m Hi) as (_ & _ & _ & Hv & Hl & _). done. }
  split; [exact Hdone|].
  intros now' order' Ho'.
  destruct (limited_or_not st' now') as [[Hz Hlt]|Hnl'].
  - exists st'. by rewrite Encode_limited.
  - exists (set_lastDelta now' st'). split; [|done].
    apply Encode_unchanged; [done|].
    intros [k m] Hin. simpl.
    assert (Hk : metrics st' !! k = Some m).
    { apply (rangeOrder_pos st' order' k m Ho'). by apply list_elem_of_lookup. }
    destruct (Hdone k m Hk) as [-> ->]. done.
Qed.

Lemma Encode_drains_witness :
  ∃ out st',
    EncodeLogTailMetricsDelta sampleNow sampleOrder sampleState = (Ok out, st')
    ∧ lastLogVal (deref st' 0) = 10.
Proof.
  destruct (Encode_drains sampleState sampleNow sampleOrder
              sample_reachable sample_rangeOrder sample_notLimited)
    as (out & st' & Hrun & Hdone & _).
  exists out, st'. split; [exact Hrun|].
  assert (Hk : metrics st' !! "foo_total" = Some 0%nat).
  { assert (Hst : (EncodeLogTailMetricsDelta sampleNow sampleOrder
                     sampleState).2 = st') by (by rewrite Hrun).
    rewrite <- Hst. vm_compute. reflexivity. }
  destruct (Hdone "foo_total" 0%nat Hk) as [_ ->]. vm_compute. reflexivity.
Defined.

Lemma framed_groups (rs : list (list Wire.record)) :
  Forall (λ r, r = []
               ∨ (∃ nm w x, r = [Wire.NameRec nm; Wire.ValueRec w x])
               ∨ (∃ w d, r = [Wire.IncRec w d])) rs →
  framed (concat rs) = true.
Proof.
  induction 1 as [|r rs Hr _ IH]; [done|].
  destruct Hr as [->|[(nm & w & x & ->)|(w & d & ->)]]; exact IH.
Qed.

(** X9 — Every frame the encoder returns reads back, by the format's
    description, as the list of records it was written from, and writing
    those records gives the frame again. The records follow the grammar of
    the format: a name record is immediately followed by the value record
    of the metric it names, and an increment record stands alone. Every
    wireID in the frame is between 1 and [numWireID], and every name in it
    is a registered name. *)
Theorem frame_decodes st now order :
  reachable st → rangeOrder st order →
  ∃ out st' recs,
    EncodeLogTailMetricsDelta now order st = (Ok out, st')
    ∧ Wire.decode out = Some recs ∧ Wire.renderAll recs = out
    ∧ Forall wfRecord recs
    ∧ framed recs = true
    ∧ (∀ r w, r ∈ recs → recordID r = Some w → 1 <= w <= numWireID st')
    ∧ (∀ nm, Wire.NameRec nm ∈ recs → is_Some (metrics st !! nm)).
Proof.
  intros Hreach Ho. pose proof (reachable_Inv st Hreach) as HI.
  destruct (limited_or_not st now) as [[Hz Hlt]|Hnl].
  { exists "", st, []. rewrite Encode_limited by done.
    split; [done|]. split; [done|]. split; [done|]. split; [constructor|].
    split; [done|].
    split; [intros r w Hr; by apply elem_of_nil in Hr|].
    intros nm Hin. by apply elem_of_nil in Hin. }
  destruct (Encode_groups now order st HI Ho Hnl)
    as (rs & st' & Hrun & HI' & _ & _ & Hwf & Hlen & Hat).
  exists (Wire.renderAll (concat rs)), st', (concat rs).
  split; [exact Hrun|]. split; [by apply decode_renderAll|].
  split; [done|]. split; [exact Hwf|].
  assert (Hgroup : ∀ i r, rs !! i = Some r →
            ∃ k m, order !! i = Some (k, m)
              ∧ metrics st !! k = Some m
              ∧ is_Some (heap st' !! m)
              ∧ (r = []
                 ∨ (0 < wireID (deref st' m)
                    ∧ (r = [Wire.NameRec k;
                            Wire.ValueRec (wireID (deref st' m))
                              (v (deref st m))]
                       ∨ r = [Wire.IncRec (wireID (deref st' m))
                                (Int64.sub (v (deref st m))
                                   (lastLogVal (deref st m)))])))).
  { intros i r Hr.
    destruct (lookup_lt_is_Some_2 order i) as [[k m] Hi].
    { rewrite <- Hlen. by eapply lookup_lt_Some. }
    destruct (Hat i k m Hi) as (Hk & _ & Hlive & _ & _ & r' & Hr' & Hsame & Hchg).
    assert (r' = r) as -> by congruence.
    exists k, m. split; [done|]. split; [done|]. split; [done|].
    destruct (decide (v (deref st m) = lastLogVal (deref st m))) as [He|Hne];
      [left; by apply Hsame|right; by apply Hchg]. }
  assert (Hrec : ∀ x, x ∈ concat rs →
            ∃ k m, metrics st !! k = Some m ∧ is_Some (heap st' !! m)
                   ∧ 0 < wireID (deref st' m)
                   ∧ (x = Wire.NameRec k
                      ∨ recordID x = Some (wireID (deref st' m)))).
  { intros x Hx. apply list_elem_of_In, in_concat in Hx as (r & Hr & Hx).
    apply list_elem_of_In in Hr, Hx.
    apply list_elem_of_lookup in Hr as [i Hi].
    destruct (Hgroup i r Hi) as (k & m & _ & Hk & Hlive & [->|[Hpos Hshape]]).
    { by apply elem_of_nil in Hx. }
    exists k, m. split; [done|]. split; [done|]. split; [done|].
    destruct Hshape as [-> | ->].
    - apply elem_of_cons in Hx as [->|Hx]; [by left|].
      apply list_elem_of_singleton in Hx as ->. by right.
    - apply list_elem_of_singleton in Hx as ->. by right. }
  split.
  { apply framed_groups. apply Forall_lookup. intros i r Hr.
    destruct (Hgroup i r Hr) as (k & m & _ & _ & _ & [->|[_ [-> | ->]]]);
      [by left|right; left; by eauto|right; right; by eauto]. }
  split.
  - intros r w Hr Hw.
    destruct (Hrec r Hr) as (k & m & _ & [mt' Hm'] & Hpos & [-> | Hid]);
      [discriminate Hw|].
    assert (w = wireID (deref st' m)) as -> by congruence.
    rewrite (deref_Some _ _ _ Hm') in *.
    pose proof (inv_wire_range st' HI' m mt' Hm'). lia.
  - intros nm Hin.
    destruct (Hrec _ Hin) as (k & m & Hk & _ & _ & [Heq|Hid]);
      [|discriminate Hid].
    injection Heq as ->. by exists m.
Qed.

Lemma frame_decodes_witness :
  ∃ out st' recs,
    EncodeLogTailMetricsDelta sampleNow sampleOrder sampleState = (Ok out, st')
    ∧ Wire.decode out = Some recs ∧ framed recs = true.
Proof.
  destruct (frame_decodes sampleState sampleNow sampleOrder
              sample_reachable sample_rangeOrder)
    as (out & st' & recs & Hrun & Hdec & _ & _ & Hgr & _).
  exists out, st', recs. split; [exact Hrun|]. split; [exact Hdec|exact Hgr].
Defined.
End frame_properties.

(** ** The consumer of the frames stays in sync *)

Section consumer_properties.
Import Int64Facts InvFacts EncFacts RegistryFacts EncoderFacts ReachFacts.
Import ScanFacts EncodeFacts.
Implicit Types (m : loc) (mt : Metric) (st : State) (c : Wire.Consumer).
Implicit Types (order : list (string * loc)).

(** [inSync] looks at the store only, and only at the logged fields of
    the objects that have a wireID. *)
Lemma inSync_frame c st st' :
  (∀ m mt', heap st' !! m = Some mt' → wireID mt' ≠ 0 →
     ∃ mt, heap st !! m = Some mt ∧ wireID mt = wireID mt'
           ∧ lastLogVal mt = lastLogVal mt' ∧ name mt = name mt') →
  inSync c st → inSync c st'.
Proof.
  intros Hfr [Hp Hs]. split; [done|]. intros m mt' Hm' Hnz.
  destruct (Hfr m mt' Hm' Hnz) as (mt & Hm & Hw & Hl & Hn).
  rewrite <- Hw, <- Hl, <- Hn. apply (Hs m mt Hm). by rewrite Hw.
Qed.

Lemma inSync_same c st st' :
  heap st' = heap st → inSync c st → inSync c st'.
Proof.
  intros Hh. apply inSync_frame. intros m mt' Hm' _. rewrite Hh in Hm'. eauto.
Qed.

Lemma inSync_alloc c st nm ty :
  inSync c st → inSync c (set_heap (heap st ++ [fresh nm ty]) st).
Proof.
  apply inSync_frame. intros m mt' Hm' Hnz. destruct st; simpl in *.
  apply lookup_app_Some in Hm' as [Hm'|[_ Hm']]; [by eauto|].
  apply list_lookup_singleton_Some in Hm' as [_ <-]. done.
Qed.

Lemma inSync_alter c st m0 (f : Metric → Metric) :
  (∀ mt, wireID (f mt) = wireID mt ∧ lastLogVal (f mt) = lastLogVal mt
         ∧ name (f mt) = name mt) →
  inSync c st → inSync c (set_heap (alter f m0 (heap st)) st).
Proof.
  intros Hf. apply inSync_frame. intros m mt' Hm' Hnz.
  destruct st as [h ms n ld sd so dp]; simpl in *.
  destruct (decide (m = m0)) as [->|Hne].
  - rewrite list_lookup_alter_eq in Hm'.
    destruct (h !! m0) as [mt0|] eqn:Hm0; [|done].
    simpl in Hm'. injection Hm' as <-. exists mt0.
    destruct (Hf mt0) as (Hf1 & Hf2 & Hf3). by rewrite Hf1, Hf2, Hf3.
  - rewrite list_lookup_alter_ne in Hm' by done. eauto.
Qed.

Lemma inSync_register c nm ty st :
  inSync c st →
  inSync c ((m <~ NewUnpublished nm ty ;; Publish m ;;; ret m) st).2.
Proof.
  intros Hs. destruct (validName nm) eqn:Hv.
  - destruct (metrics st !! nm) as [m'|] eqn:Hdup.
    + rewrite register_duplicate by done. by apply inSync_alloc.
    + rewrite register_fresh by done. simpl.
      apply (inSync_same c (set_heap (heap st ++ [fresh nm ty]) st));
        [done|by apply inSync_alloc].
  - by rewrite register_invalid.
Qed.

(** One entry of the scan, seen by the consumer. *)
Lemma scanMetric_sync now st m mt c :
  Inv st → heap st !! m = Some mt →
  (wireID mt = 0 → lastNamed mt = Time.zero) →
  inSync c st →
  inSync (Wire.applyAll c (scanMetric now (numWireID st) mt).1.1)
    (set_numWireID (scanMetric now (numWireID st) mt).2
       (set_heap (<[m := (scanMetric now (numWireID st) mt).1.2]> (heap st)) st)).
Proof.
  intros HI Hm Hun [Hp Hs].
  destruct (inv_values st HI m mt Hm) as [Hv Hl].
  assert (Hlt : (m < length (heap st))%nat) by (by eapply lookup_lt_Some).
  destruct (Int64.sub (v mt) (lastLogVal mt) =? 0) eqn:Hdelta.
  { rewrite scanMetric_unchanged by done. cbn [fst snd Wire.applyAll foldl].
    rewrite list_insert_id by done.
    apply (inSync_same c st); [by destruct st|done]. }
  rewrite scanMetric_changed by done. cbn [fst snd].
  set (wid := if wireID mt =? 0 then Int64.add (numWireID st) 1 else wireID mt).
  assert (Hwid : ∀ m2 mt2, m2 ≠ m → heap st !! m2 = Some mt2 →
                           wireID mt2 ≠ 0 → wireID mt2 ≠ wid).
  { intros m2 mt2 Hne Hm2 Hnz. unfold wid.
    destruct (wireID mt =? 0) eqn:Hw.
    - apply Z.eqb_eq in Hw.
      destruct (next_wire_exact st m mt HI Hm Hw) as [-> _].
      pose proof (inv_wire_range st HI m2 mt2 Hm2). lia.
    - intros Heq. apply Hne.
      by apply (inv_wire_inj st HI m2 m mt2 mt). }
  assert (Hother : ∀ m2 mt2 mt' n',
            m2 ≠ m →
            heap (set_numWireID n' (set_heap (<[m := mt']> (heap st)) st)) !! m2
            = Some mt2 →
            heap st !! m2 = Some mt2).
  { intros m2 mt2 mt' n' Hne Hm2. destruct st; simpl in *.
    by rewrite list_lookup_insert_ne in Hm2. }
  assert (Hself : ∀ mt2 mt' n',
            heap (set_numWireID n' (set_heap (<[m := mt']> (heap st)) st)) !! m
            = Some mt2 → mt2 = mt').
  { intros mt2 mt' n' Hm2. destruct st; simpl in *.
    rewrite list_lookup_insert_eq in Hm2 by done. congruence. }
  destruct (dueName now mt) eqn:Hdue.
  - split; [done|]. intros m2 mt2 Hm2 Hnz.
    destruct (decide (m2 = m)) as [->|Hne].
    + apply Hself in Hm2 as ->. cbn [wireID lastLogVal name].
      simpl. rewrite !lookup_insert_eq. done.
    + apply Hother in Hm2; [|done].
      pose proof (Hwid m2 mt2 Hne Hm2 Hnz).
      simpl. rewrite !lookup_insert_ne by done. by apply (Hs m2 mt2).
  - assert (Hw : wireID mt ≠ 0).
    { intros Hw. unfold dueName in Hdue. rewrite (Hun Hw) in Hdue.
      discriminate Hdue. }
    assert (Hwe : wid = wireID mt).
    { unfold wid. apply Z.eqb_neq in Hw. by rewrite Hw. }
    destruct (Hs m mt Hm Hw) as [Hval Hname].
    split; [done|]. intros m2 mt2 Hm2 Hnz.
    destruct (decide (m2 = m)) as [->|Hne].
    + apply Hself in Hm2 as ->. cbn [wireID lastLogVal name].
      simpl. rewrite lookup_insert_eq. rewrite Hwe, Hval, Hname. simpl.
      by rewrite add_sub.
    + apply Hother in Hm2; [|done].
      pose proof (Hwid m2 mt2 Hne Hm2 Hnz).
      simpl. rewrite lookup_insert_ne by done. by apply (Hs m2 mt2).
Qed.

Lemma scanMetric_named now n mt :
  (wireID mt = 0 → lastNamed mt = Time.zero) → 0 <= n →
  Int64.add n 1 = n + 1 →
  wireID (scanMetric now n mt).1.2 = 0 →
  lastNamed (scanMetric now n mt).1.2 = Time.zero.
Proof.
  intros Hun Hn Hadd.
  destruct (Int64.sub (v mt) (lastLogVal mt) =? 0) eqn:Hdelta.
  - by rewrite scanMetric_unchanged.
  - rewrite scanMetric_changed by done. cbn [fst snd wireID lastNamed].
    destruct (wireID mt =? 0) eqn:Hw; [rewrite Hadd; lia|].
    apply Z.eqb_neq in Hw. done.
Qed.

Lemma scan_sync now order :
  ∀ st c,
    Inv st → live (heap st) order →
    (∀ m mt, heap st !! m = Some mt → wireID mt = 0 →
             lastNamed mt = Time.zero) →
    inSync c st →
    inSync
      (Wire.applyAll c (concat (scan now order (heap st) (numWireID st)).1.1))
      (set_numWireID (scan now order (heap st) (numWireID st)).2
         (set_heap (scan now order (heap st) (numWireID st)).1.2 st)).
Proof.
  induction order as [|[k m] order IH]; intros st c HI Hlive Hun Hs.
  - simpl. apply (inSync_same c st); [by destruct st|done].
  - apply Forall_cons in Hlive as [[mt Hm] Hlive]. simpl in Hm.
    rewrite scan_cons. cbn zeta. cbn [fst snd concat]. rewrite Hm.
    change (default zeroMetric (Some mt)) with mt.
    unfold Wire.applyAll. rewrite foldl_app. fold (Wire.applyAll c).
    pose proof (Inv_scanMetric now st m mt HI Hm) as HI1.
    pose proof (scanMetric_sync now st m mt c HI Hm (Hun m mt Hm) Hs) as Hs1.
    set (s := scanMetric now (numWireID st) mt) in *.
    set (st1 := set_numWireID s.2 (set_heap (<[m := s.1.2]> (heap st)) st)) in *.
    assert (Hun1 : ∀ m2 mt2, heap st1 !! m2 = Some mt2 → wireID mt2 = 0 →
                             lastNamed mt2 = Time.zero).
    { intros m2 mt2 Hm2. unfold st1 in Hm2.
      cbn [heap set_numWireID set_heap] in Hm2.
      destruct (decide (m2 = m)) as [->|Hne].
      - rewrite list_lookup_insert_eq in Hm2 by (by eapply lookup_lt_Some).
        injection Hm2 as <-. unfold s.
        pose proof (inv_wire_range st HI m mt Hm).
        destruct (decide (wireID mt = 0)) as [Hw|Hw].
        + destruct (next_wire_exact st m mt HI Hm Hw) as [Hadd _].
          apply scanMetric_named; [exact (Hun m mt Hm)|lia|done].
        + intros Hz. exfalso. revert Hz.
          destruct (Int64.sub (v mt) (lastLogVal mt) =? 0) eqn:Hdelta.
          * by rewrite scanMetric_unchanged.
          * rewrite scanMetric_changed by done. cbn [fst snd wireID].
            rewrite (proj2 (Z.eqb_neq _ _) Hw). exact Hw.
      - rewrite list_lookup_insert_ne in Hm2 by done. exact (Hun m2 mt2 Hm2). }
    assert (Hlive1 : live (heap st1) order) by (by apply live_insert).
    pose proof (IH st1 _ HI1 Hlive1 Hun1 Hs1) as IH1.
    eapply inSync_same; [|exact IH1]. done.
Qed.

Lemma consume_empty c : Wire.consume c "" = Some c.
Proof. reflexivity. Qed.

Lemma Encode_sync now order st c :
  Inv st → logged st → rangeOrder st order → inSync c st →
  ∃ out st' c',
    EncodeLogTailMetricsDelta now order st = (Ok out, st')
    ∧ Wire.consume c out = Some c' ∧ inSync c' st'.
Proof.
  intros HI HL Ho Hs.
  destruct (limited_or_not st now) as [[Hz Hlt]|Hnl].
  { exists "", st, c. by rewrite Encode_limited. }
  destruct (Encode_scan now order st HI Ho Hnl) as (pool' & Hrun & _).
  pose proof (rangeOrder_live st order HI Ho) as Hlive.
  eexists _, _, _. split; [exact Hrun|].
  unfold Wire.consume. rewrite decode_renderAll.
  2:{ apply scan_records; [|done|done].
      intros st0 m mt. apply scanMetric_wf. }
  split; [reflexivity|].
  eapply inSync_same; [|apply (scan_sync now order st c HI Hlive); [|done]].
  - done.
  - intros m mt Hm Hw. by destruct (HL m mt Hm) as [[? _] _].
Qed.

Lemma deliver_Encode now order st c out st' c' :
  EncodeLogTailMetricsDelta now order st = (Ok out, st') →
  Wire.consume c out = Some c' →
  deliver c (CallEncode now order) st = c'.
Proof. intros Hrun Hc. unfold deliver. by rewrite Hrun; simpl; rewrite Hc. Qed.

Lemma inSync_exec cl st c :
  Inv st → logged st → admissible cl st → inSync c st →
  inSync (deliver c cl st) (exec cl st).2.
Proof.
  intros HI HL Hadm Hs. destruct cl; simpl in Hadm; cbn [exec deliver].
  - rewrite discard_result. destruct (validName nm) eqn:Hv.
    + rewrite NewUnpublished_valid by done. by apply inSync_alloc.
    + by rewrite NewUnpublished_invalid.
  - destruct (decide (name (deref st m) = "")) as [Hn|Hn].
    { by rewrite Publish_unnamed. }
    destruct (metrics st !! name (deref st m)) as [m'|] eqn:Hdup.
    { by rewrite Publish_duplicate. }
    rewrite Publish_fresh by done. by apply (inSync_same c st).
  - rewrite discard_result, NewCounter_unfold. by apply inSync_register.
  - rewrite discard_result, NewGauge_unfold. by apply inSync_register.
  - by apply inSync_alter.
  - by apply inSync_alter.
  - rewrite discard_result.
    destruct (Metrics_spec order st HI Hadm) as (l & -> & _).
    by apply (inSync_same c st).
  - rewrite discard_result.
    destruct (WritePrometheus_spec order w st HI Hadm) as (l & -> & _).
    by apply (inSync_same c st).
  - rewrite discard_result.
    destruct (Encode_sync now order st c HI HL Hadm Hs)
      as (out & st' & c' & Hrun & Hc & Hs').
    rewrite Hrun. simpl. by rewrite Hc.
Qed.

Lemma fed_reachable st c : fed st c → reachable st.
Proof. induction 1; [apply reachable_initial|by apply reachable_call]. Qed.

Lemma fed_inSync st c : fed st c → inSync c st.
Proof.
  induction 1 as [|st c cl Hfed IH Hadm].
  - split; [done|]. intros m mt Hm. done.
  - pose proof (fed_reachable st c Hfed) as Hreach.
    apply inSync_exec; [by apply reachable_Inv|by apply reachable_logged|done|done].
Qed.

(** X10 — A consumer that starts empty and is sent every frame of a run
    stays in sync with the encoder: each frame parses, no name record is
    left waiting for its value record, and for every metric that has a
    wireID the consumer holds, under that wireID, the metric's name and
    the value last logged. After an encoder call that is not
    rate-limited, that value is the metric's current value. *)
Theorem consumer_in_sync st c :
  fed st c →
  inSync c st
  ∧ ∀ now order, rangeOrder st order →
      ∃ out st' c',
        EncodeLogTailMetricsDelta now order st = (Ok out, st')
        ∧ Wire.consume c out = Some c'
        ∧ inSync c' st'
        ∧ (notLimited st now →
           ∀ k m, metrics st !! k = Some m → wireID (deref st' m) ≠ 0 →
             Wire.values c' !! wireID (deref st' m) = Some (v (deref st m))
             ∧ Wire.names c' !! wireID (deref st' m) = Some k).
Proof.
  intros Hfed. pose proof (fed_reachable st c Hfed) as Hreach.
  pose proof (reachable_Inv st Hreach) as HI.
  pose proof (reachable_logged st Hreach) as HL.
  pose proof (fed_inSync st c Hfed) as Hs.
  split; [exact Hs|]. intros now order Ho.
  destruct (Encode_sync now order st c HI HL Ho Hs)
    as (out & st' & c' & Hrun & Hc & Hs').
  exists out, st', c'. split; [exact Hrun|]. split; [exact Hc|].
  split; [exact Hs'|].
  intros Hnl k m Hk Hw.
  destruct (Encode_groups now order st HI Ho Hnl)
    as (rs & st2 & Hrun2 & _ & _ & _ & _ & _ & Hat).
  assert (st2 = st') as -> by congruence.
  apply (rangeOrder_pos st order k m Ho) in Hk as [i Hi].
  destruct (Hat i k m Hi) as (_ & Hname & [mt' Hm'] & Hv & Hl & _).
  destruct Hs' as [_ Hs'].
  rewrite (deref_Some _ _ _ Hm') in *.
  destruct (Hs' m mt' Hm' Hw) as [Hval Hnm].
  rewrite Hval, Hnm, Hl. split; [done|].
  destruct (inv_registered st HI k m) as (mt & Hm & Hk').
  { apply (rangeOrder_pos st order k m Ho). by exists i. }
  pose proof (reachable_Inv _ (reachable_call st (CallEncode now order)
                                 Hreach Ho)) as HI'.
  cbn [exec] in HI'. rewrite discard_result, Hrun in HI'. simpl in HI'.
  rewrite (deref_Some _ _ _ Hm) in Hname.
  destruct (Encode_entries now order st HI Ho Hnl)
    as (rs3 & st3 & Hrun3 & _ & _ & _ & _ & _ & _ & _ & _ & _ & Hat3 & _).
  assert (st3 = st') as -> by congruence.
  destruct (Hat3 i k m Hi) as [_ Hd].
  rewrite (deref_Some _ _ _ Hm'), (deref_Some _ _ _ Hm) in Hd.
  rewrite Hd, scanMetric_name. by rewrite Hname.
Qed.

Lemma consumer_in_sync_witness :
  Wire.values
    (deliver Wire.emptyConsumer (CallEncode sampleNow sampleOrder) sampleState)
    !! 1
  = Some 10.
Proof.
  assert (Hfed : fed sampleState Wire.emptyConsumer).
  { unfold sampleState.
    apply (fed_call _ Wire.emptyConsumer (CallAdd 0 10));
      [apply (fed_call initial Wire.emptyConsumer (CallNewCounter "foo_total"));
       [apply fed_initial|]|].
    - split; vm_compute; [discriminate|reflexivity].
    - split; [vm_compute; lia|]. split; vm_compute; discriminate. }
  pose proof (fed_call sampleState Wire.emptyConsumer
                (CallEncode sampleNow sampleOrder) Hfed sample_rangeOrder)
    as Hfed'.
  destruct (consumer_in_sync _ _ Hfed') as [[_ Hs] _].
  destruct (Hs 0%nat (mkMetric 10 "foo_total" TypeCounter 1 sampleNow 10))
    as [Hval _].
  - vm_compute. reflexivity.
  - discriminate.
  - exact Hval.
Defined.
End consumer_properties.

(** ** What the calls leave alone *)

Section frame_conditions.
Import NameFacts InvFacts EncFacts RegistryFacts EncoderFacts ReachFacts.
Import ScanFacts EncodeFacts.
Implicit Types (m : loc) (mt : Metric) (st : State).
Implicit Types (order : list (string * loc)).

(** The fields the encoder never writes. *)
Let fields (mt : Metric) : Z * string * Type_ := (v mt, name mt, typ mt).

Lemma scanMetric_fields now n mt :
  fields (scanMetric now n mt).1.2 = fields mt.
Proof.
  unfold scanMetric. destruct (Int64.sub (v mt) (lastLogVal mt) =? 0); [done|].
  by destruct (dueName now mt).
Qed.

Lemma scan_fields now order :
  ∀ h n m, fields <$> (scan now order h n).1.2 !! m = fields <$> h !! m.
Proof.
  induction order as [|[k m0] order IH]; intros h n m; [done|].
  rewrite scan_cons. cbn zeta. cbn [fst snd]. rewrite IH.
  destruct (decide (m = m0)) as [->|Hne];
    [|by rewrite list_lookup_insert_ne].
  destruct (h !! m0) as [mt|] eqn:Hm.
  - rewrite list_lookup_insert_eq by (by eapply lookup_lt_Some).
    simpl. by rewrite scanMetric_fields.
  - apply lookup_ge_None in Hm.
    rewrite (proj2 (lookup_ge_None (<[m0:=_]> h) m0)); [done|].
    by rewrite length_insert.
Qed.

Lemma Encode_fields now order st m :
  Inv st → rangeOrder st order →
  fields <$> heap (EncodeLogTailMetricsDelta now order st).2 !! m
  = fields <$> heap st !! m
  ∧ metrics (EncodeLogTailMetricsDelta now order st).2 = metrics st.
Proof.
  intros HI Ho.
  destruct (limited_or_not st now) as [[Hz Hlt]|Hnl].
  { by rewrite Encode_limited. }
  destruct (Encode_scan now order st HI Ho Hnl) as (pool' & -> & _).
  split; [apply scan_fields|done].
Qed.

Lemma deref_fields st st' m :
  fields <$> heap st' !! m = fields <$> heap st !! m →
  v (deref st' m) = v (deref st m)
  ∧ name (deref st' m) = name (deref st m)
  ∧ typ (deref st' m) = typ (deref st m).
Proof.
  unfold deref, fields.
  destruct (heap st' !! m), (heap st !! m); simpl; intros He;
    by simplify_eq.
Qed.

Lemma exposition_fields st st' l :
  (∀ m, fields <$> heap st' !! m = fields <$> heap st !! m) →
  exposition st' l = exposition st l.
Proof.
  intros Hf. induction l as [|m l IH]; [done|]. simpl. rewrite IH.
  destruct (deref_fields st st' m (Hf m)) as (Hv & Hn & Ht).
  unfold expositionOf, typeLine, valueLine. by rewrite Hv, Hn, Ht.
Qed.

Lemma sorted_unique st l1 l2 :
  l1 ≡ₚ registered st → l2 ≡ₚ registered st →
  sortedByName st l1 → sortedByName st l2 → l1 = l2.
Proof.
  intros H1 H2 Hs1 Hs2.
  apply (sorted_by_key_unique (λ m, name (deref st m))); [done|done|].
  by rewrite H1, H2.
Qed.

(** X11 — The exposition dump and the delta encoder do not disturb each
    other: run in either order, and with whatever iteration orders of the
    map, they return the same text and the same frame, and leave the same
    store, registry, [numWireID], [lastDelta] and sorted cache. *)
Theorem exposition_encoder_commute st ow ow' oe w now :
  reachable st → rangeOrder st ow → rangeOrder st ow' → rangeOrder st oe →
  ∃ text out sa sb,
    (t <~ WritePrometheusExpositionFormat ow w ;;
     f <~ EncodeLogTailMetricsDelta now oe ;;
     ret (t, f)) st
    = (Ok (text, out), sa)
    ∧ (f <~ EncodeLogTailMetricsDelta now oe ;;
       t <~ WritePrometheusExpositionFormat ow' w ;;
       ret (t, f)) st
      = (Ok (text, out), sb)
    ∧ heap sa = heap sb ∧ metrics sa = metrics sb
    ∧ numWireID sa = numWireID sb ∧ lastDelta sa = lastDelta sb
    ∧ sorted sa = sorted sb ∧ sortedDirty sa = sortedDirty sb.
Proof.
  intros Hreach Ho Ho' Hoe. pose proof (reachable_Inv st Hreach) as HI.
  destruct (WritePrometheus_spec ow w st HI Ho) as (l & HW & Hperm & Hsort & HI1).
  set (st1 := set_sorted l (set_sortedDirty false st)) in *.
  destruct (limited_or_not st now) as [[Hz Hlt]|Hnl].
  - destruct (WritePrometheus_spec ow' w st HI Ho')
      as (l' & HW' & Hperm' & Hsort' & _).
    assert (l' = l) as -> by (by apply (sorted_unique st)).
    exists (w +:+ exposition st l), "", st1, st1.
    split.
    { unfold bind. rewrite HW.
      rewrite (Encode_limited now oe st1 Hz Hlt). done. }
    split; [|done].
    unfold bind. rewrite (Encode_limited now oe st Hz Hlt). by rewrite HW'.
  - destruct (Encode_scan now oe st1 HI1 Hoe Hnl) as (pool1 & Hrun1 & _).
    destruct (Encode_scan now oe st HI Hoe Hnl) as (pool2 & Hrun2 & HI2).
    set (h' := (scan now oe (heap st) (numWireID st)).1.2) in *.
    set (n' := (scan now oe (heap st) (numWireID st)).2) in *.
    set (st2 := set_deltaPool pool2
                  (set_lastDelta now (set_numWireID n' (set_heap h' st)))) in *.
    assert (Hf : ∀ m, fields <$> heap st2 !! m = fields <$> heap st !! m).
    { intros m. apply scan_fields. }
    destruct (WritePrometheus_spec ow' w st2 HI2 Ho')
      as (l' & HW' & Hperm' & Hsort' & _).
    assert (l' = l) as ->.
    { apply (sorted_unique st); [done|done| |done].
      apply (sortedByName_ext st2 st); [|done].
      intros m _. symmetry. apply (deref_fields st st2 m (Hf m)). }
    rewrite (exposition_fields st st2 l Hf) in HW'.
    eexists _, _, _, _. split.
    { unfold bind. rewrite HW. fold st1. rewrite Hrun1. reflexivity. }
    split.
    { unfold bind. rewrite Hrun2. fold st2. rewrite HW'. reflexivity. }
    done.
Qed.

Lemma exposition_encoder_commute_witness :
  ∃ text out sa sb,
    (t <~ WritePrometheusExpositionFormat sampleOrder "" ;;
     f <~ EncodeLogTailMetricsDelta sampleNow sampleOrder ;;
     ret (t, f)) sampleState
    = (Ok (text, out), sa)
    ∧ (f <~ EncodeLogTailMetricsDelta sampleNow sampleOrder ;;
       t <~ WritePrometheusExpositionFormat sampleOrder "" ;;
       ret (t, f)) sampleState
      = (Ok (text, out), sb)
    ∧ heap sa = heap sb.
Proof.
  destruct (exposition_encoder_commute sampleState sampleOrder sampleOrder
              sampleOrder "" sampleNow sample_reachable sample_rangeOrder
              sample_rangeOrder sample_rangeOrder)
    as (text & out & sa & sb & H1 & H2 & Hh & _).
  exists text, out, sa, sb. split; [exact H1|]. split; [exact H2|exact Hh].
Defined.

Lemma scan_agree now order :
  ∀ h1 h2 n,
    (∀ km, km ∈ order → h1 !! km.2 = h2 !! km.2) →
    (scan now order h1 n).1.1 = (scan now order h2 n).1.1.
Proof.
  induction order as [|[k m] order IH]; intros h1 h2 n Hag; [done|].
  rewrite !scan_cons. cbn zeta. cbn [fst snd].
  pose proof (Hag (k, m) ltac:(left)) as Hm. simpl in Hm.
  rewrite Hm. f_equal.
  apply IH. intros km Hin.
  destruct (decide (km.2 = m)) as [He|Hne].
  - rewrite He. destruct (h2 !! m) as [mt|] eqn:Hm2.
    + assert (m < length h1)%nat by (by eapply lookup_lt_Some).
      assert (m < length h2)%nat by (by eapply lookup_lt_Some).
      by rewrite !list_lookup_insert_eq by done.
    + apply lookup_ge_None in Hm, Hm2.
      rewrite (proj2 (lookup_ge_None (<[m:=_]> h1) m))
        by (by rewrite length_insert).
      rewrite (proj2 (lookup_ge_None (<[m:=_]> h2) m))
        by (by rewrite length_insert).
      done.
  - rewrite !list_lookup_insert_ne by done. apply Hag. by right.
Qed.

(** X12 — A metric made by [NewUnpublished] and not published is
    invisible: it has no wireID and has never been named nor logged, it is
    not in the sorted slice, the encoder leaves it as it is, and setting
    its value changes no frame. *)
Theorem unpublished_invisible st m mt :
  reachable st → heap st !! m = Some mt →
  (∀ k, metrics st !! k ≠ Some m) →
  wireID mt = 0 ∧ lastNamed mt = Time.zero ∧ lastLogVal mt = 0
  ∧ ∀ now order, rangeOrder st order →
      (∀ l st', Metrics order st = (Ok l, st') → m ∉ l)
      ∧ heap (EncodeLogTailMetricsDelta now order st).2 !! m = Some mt
      ∧ ∀ x, Int64.in_range x →
          (EncodeLogTailMetricsDelta now order (Set' m x st).2).1
          = (EncodeLogTailMetricsDelta now order st).1.
Proof.
  intros Hreach Hm Hun. pose proof (reachable_Inv st Hreach) as HI.
  destruct (reachable_logged st Hreach m mt Hm) as [H0 H1].
  assert (Hw : wireID mt = 0).
  { destruct (decide (wireID mt = 0)) as [|Hnz]; [done|].
    by destruct (Hun _ (H1 Hnz)). }
  destruct (H0 Hw) as [Hln Hlv].
  split; [done|]. split; [done|]. split; [done|].
  intros now order Ho.
  assert (Hout : m ∉ order.*2).
  { rewrite (rangeOrder_registered st order Ho), registered_elem.
    intros [k Hk]. by destruct (Hun k). }
  split.
  { intros l st' Hrun.
    destruct (Metrics_spec order st HI Ho) as (l0 & Hrun0 & Hperm & _).
    assert (l = l0) as -> by congruence.
    rewrite Hperm, registered_elem. intros [k Hk]. by destruct (Hun k). }
  destruct (limited_or_not st now) as [[Hz Hlt]|Hnl].
  { split; [by rewrite Encode_limited|].
    intros x Hx. rewrite (Encode_limited now order st Hz Hlt).
    by rewrite (Encode_limited now order (Set' m x st).2 Hz Hlt). }
  destruct (Encode_scan now order st HI Ho Hnl) as (pool' & Hrun & _).
  split.
  { rewrite Hrun. simpl. by rewrite scan_frame. }
  intros x Hx. rewrite Hrun.
  destruct (Encode_scan now order (Set' m x st).2 (Inv_Set st m x HI Hx) Ho Hnl)
    as (pool2 & Hrun2 & _).
  rewrite Hrun2. simpl. do 3 f_equal.
  apply scan_agree. intros km Hin.
  rewrite list_lookup_alter_ne; [done|].
  intros He. apply Hout. rewrite He. apply list_elem_of_fmap. by exists km.
Qed.

Lemma unpublished_invisible_witness :
  heap (EncodeLogTailMetricsDelta sampleNow [] (NewUnpublished "x" TypeGauge initial).2).2
    !! 0%nat
  = Some (fresh "x" TypeGauge).
Proof.
  assert (Hreach : reachable (NewUnpublished "x" TypeGauge initial).2).
  { apply (reachable_call initial (CallNewUnpublished "x" TypeGauge));
      [apply reachable_initial|].
    split; [vm_compute; discriminate|].
    split; [vm_compute; reflexivity|]. unfold TypeGauge. lia. }
  destruct (unpublished_invisible _ 0%nat (fresh "x" TypeGauge) Hreach eq_refl)
    as (_ & _ & _ & Hrest).
  { intros k. vm_compute. discriminate. }
  destruct (Hrest sampleNow []) as (_ & Hkeep & _).
  { unfold rangeOrder. vm_compute. constructor. }
  exact Hkeep.
Defined.

(** The registry and the store from a state to a later one. *)
Let grows (st st' : State) : Prop :=
  (∀ k m, metrics st !! k = Some m → metrics st' !! k = Some m)
  ∧ (∀ m mt, heap st !! m = Some mt →
       ∃ mt', heap st' !! m = Some mt'
              ∧ name mt' = name mt ∧ typ mt' = typ mt).

Lemma grows_same st st' :
  heap st' = heap st → metrics st' = metrics st → grows st st'.
Proof. intros Hh Hms. unfold grows. rewrite Hh, Hms. by eauto. Qed.

Lemma grows_trans st1 st2 st3 : grows st1 st2 → grows st2 st3 → grows st1 st3.
Proof.
  intros [Hm12 Hh12] [Hm23 Hh23]. split; [by auto|].
  intros m mt Hm. destruct (Hh12 m mt Hm) as (mt2 & Hm2 & Hn2 & Ht2).
  destruct (Hh23 m mt2 Hm2) as (mt3 & Hm3 & Hn3 & Ht3).
  exists mt3. split; [done|]. split; congruence.
Qed.

Lemma grows_alloc st mt0 : grows st (set_heap (heap st ++ [mt0]) st).
Proof.
  split; [done|]. intros m mt Hm. exists mt. destruct st; simpl in *.
  split; [by apply lookup_app_l_Some|done].
Qed.

Lemma grows_publish st m0 nm :
  metrics st !! nm = None →
  grows st (set_sortedDirty true (set_metrics (<[nm := m0]> (metrics st)) st)).
Proof.
  intros Hfree. split; [|by eauto].
  intros k m Hk. destruct st; simpl in *.
  rewrite lookup_insert_ne; [done|]. intros He. subst nm. congruence.
Qed.

Lemma grows_alter st m0 (f : Metric → Metric) :
  (∀ mt, name (f mt) = name mt ∧ typ (f mt) = typ mt) →
  grows st (set_heap (alter f m0 (heap st)) st).
Proof.
  intros Hf. split; [done|]. intros m mt Hm. destruct st; simpl in *.
  destruct (decide (m = m0)) as [->|Hne].
  - exists (f mt). rewrite list_lookup_alter_eq, Hm. split; [done|apply Hf].
  - exists mt. by rewrite list_lookup_alter_ne.
Qed.

Lemma grows_register nm ty st :
  grows st ((m <~ NewUnpublished nm ty ;; Publish m ;;; ret m) st).2.
Proof.
  destruct (validName nm) eqn:Hv.
  - destruct (metrics st !! nm) as [m'|] eqn:Hdup.
    + rewrite register_duplicate by done. apply grows_alloc.
    + rewrite register_fresh by done. simpl.
      eapply grows_trans; [apply (grows_alloc st (fresh nm ty))|].
      by apply (grows_publish (set_heap (heap st ++ [fresh nm ty]) st)).
  - rewrite register_invalid by done. by apply grows_same.
Qed.

Lemma grows_Encode now order st :
  Inv st → rangeOrder st order →
  grows st (EncodeLogTailMetricsDelta now order st).2.
Proof.
  intros HI Ho. split.
  - intros k m Hk.
    by rewrite (proj2 (Encode_fields now order st m HI Ho)).
  - intros m mt Hm.
    destruct (Encode_fields now order st m HI Ho) as [Hf _].
    rewrite Hm in Hf.
    destruct (heap (EncodeLogTailMetricsDelta now order st).2 !! m) as [mt'|];
      [|done].
    exists mt'. unfold fields in Hf. simpl in Hf. by simplify_eq.
Qed.

Lemma grows_exec cl st : Inv st → admissible cl st → grows st (exec cl st).2.
Proof.
  intros HI Hadm. destruct cl; simpl in Hadm; cbn [exec].
  - rewrite discard_result. destruct (validName nm) eqn:Hv.
    + rewrite NewUnpublished_valid by done. apply grows_alloc.
    + rewrite NewUnpublished_invalid by done. by apply grows_same.
  - destruct (decide (name (deref st m) = "")) as [Hn|Hn].
    { rewrite Publish_unnamed by done. by apply grows_same. }
    destruct (metrics st !! name (deref st m)) as [m'|] eqn:Hdup.
    { rewrite Publish_duplicate by done. by apply grows_same. }
    rewrite Publish_fresh by done. by apply grows_publish.
  - rewrite discard_result, NewCounter_unfold. apply grows_register.
  - rewrite discard_result, NewGauge_unfold. apply grows_register.
  - by apply grows_alter.
  - by apply grows_alter.
  - rewrite discard_result.
    destruct (Metrics_spec order st HI Hadm) as (l & -> & _).
    by apply grows_same.
  - rewrite discard_result.
    destruct (WritePrometheus_spec order w st HI Hadm) as (l & -> & _).
    by apply grows_same.
  - rewrite discard_result. by apply grows_Encode.
Qed.

Lemma reaches_grows st st' : Inv st → reaches st st' → grows st st'.
Proof.
  intros HI. induction 1 as [|st' cl Hr IH Hadm]; [by apply grows_same|].
  eapply grows_trans; [exact IH|].
  apply grows_exec; [by eapply reaches_Inv|done].
Qed.

(** X13 — The registry only grows and the identity of a metric is fixed:
    from a reachable state to any later one, every registered name stays
    registered to the same object, every object keeps its name and its
    type, and registering a name that was taken panics with the duplicate
    name, for a counter and for a gauge alike. *)
Theorem registry_only_grows st st' :
  reachable st → reaches st st' →
  (∀ k m, metrics st !! k = Some m → metrics st' !! k = Some m)
  ∧ (∀ m mt, heap st !! m = Some mt →
       ∃ mt', heap st' !! m = Some mt'
              ∧ name mt' = name mt ∧ typ mt' = typ mt)
  ∧ (∀ k, is_Some (metrics st !! k) →
       ∃ s1 s2,
         NewCounter k st' = (Panic (PanicDuplicate k), s1)
         ∧ NewGauge k st' = (Panic (PanicDuplicate k), s2)).
Proof.
  intros Hreach Hr. pose proof (reachable_Inv st Hreach) as HI.
  destruct (reaches_grows st st' HI Hr) as [Hms Hh].
  split; [exact Hms|]. split; [exact Hh|].
  intros k [m Hk].
  destruct (inv_registered st HI k m Hk) as (mt & Hm & Hname).
  destruct (inv_names st HI m mt Hm) as [Hv _]. rewrite Hname in Hv.
  assert (Hdup : is_Some (metrics st' !! k)) by (exists m; by apply Hms).
  eexists _, _. rewrite NewCounter_unfold, NewGauge_unfold.
  split; by apply register_duplicate.
Qed.

Lemma registry_only_grows_witness :
  metrics sampleLater !! "foo_total" = Some 0%nat
  ∧ ∃ s1, NewCounter "foo_total" sampleLater
          = (Panic (PanicDuplicate "foo_total"), s1).
Proof.
  destruct (registry_only_grows sampleEncoded sampleLater
              sampleEncoded_reachable sampleLater_reaches)
    as (Hms & _ & Hdup).
  split; [by apply Hms|].
  destruct (Hdup "foo_total") as (s1 & _ & H1 & _); [by exists 0%nat|].
  by exists s1.
Defined.
End frame_conditions.

(** ** Panics and the rate limit, exactly *)

Section panic_properties.
Import NameFacts InvFacts RegistryFacts EncoderFacts ReachFacts EncodeFacts.
Implicit Types (m : loc) (mt : Metric) (st : State).
Implicit Types (order : list (string * loc)).

Lemma discard_panic {A} (c : M A) st p :
  ((c ;;; ret tt) st).1 = Panic p → (c st).1 = Panic p.
Proof.
  unfold bind, ret. destruct (c st) as [[a|q] st']; simpl; [discriminate|].
  by intros [= ->].
Qed.

Lemma register_panic nm ty st p :
  ((m <~ NewUnpublished nm ty ;; Publish m ;;; ret m) st).1 = Panic p →
  (p = PanicIllegalName nm (IndexFunc nm isIllegalMetricRune)
   ∧ validName nm = false)
  ∨ (p = PanicDuplicate nm ∧ is_Some (metrics st !! nm)).
Proof.
  destruct (validName nm) eqn:Hv.
  - destruct (metrics st !! nm) as [m'|] eqn:Hdup.
    + rewrite register_duplicate by done. simpl. intros [= <-]. right. eauto.
    + by rewrite register_fresh.
  - rewrite register_invalid by done. simpl. intros [= <-]. by left.
Qed.

Lemma Encode_Ok now order st :
  Inv st → rangeOrder st order →
  ∃ out, (EncodeLogTailMetricsDelta now order st).1 = Ok out.
Proof.
  intros HI Ho. destruct (limited_or_not st now) as [[Hz Hlt]|Hnl].
  - exists "". by rewrite Encode_limited.
  - destruct (Encode_scan now order st HI Ho Hnl) as (pool' & -> & _). eauto.
Qed.

(** X14 — Only registration panics. From a reachable state, [Add],
    [Set], [Metrics], [WritePrometheusExpositionFormat] and
    [EncodeLogTailMetricsDelta] always return (the ten-byte scratch array
    of the varint writer is never overrun); [NewUnpublished] panics only
    for an illegal name, [Publish] only for a name that is taken, and
    [NewCounter] and [NewGauge] only for one of the two. *)
Theorem only_registration_panics st cl p :
  reachable st → admissible cl st →
  (exec cl st).1 = Panic p →
  match cl with
  | CallNewUnpublished nm _ =>
      p = PanicIllegalName nm (IndexFunc nm isIllegalMetricRune)
      ∧ validName nm = false
  | CallNewCounter nm | CallNewGauge nm =>
      (p = PanicIllegalName nm (IndexFunc nm isIllegalMetricRune)
       ∧ validName nm = false)
      ∨ (p = PanicDuplicate nm ∧ is_Some (metrics st !! nm))
  | CallPublish m =>
      p = PanicDuplicate (name (deref st m))
      ∧ is_Some (metrics st !! name (deref st m))
  | _ => False
  end.
Proof.
  intros Hreach Hadm. pose proof (reachable_Inv st Hreach) as HI.
  destruct cl; simpl in Hadm; cbn [exec].
  - intros Hp%discard_panic. revert Hp. destruct (validName nm) eqn:Hv.
    + by rewrite NewUnpublished_valid.
    + rewrite NewUnpublished_invalid by done. simpl. by intros [= <-].
  - destruct (lookup_lt_is_Some_2 _ _ Hadm) as [mt Hm].
    destruct (inv_names st HI m mt Hm) as [Hv%validName_nonempty _].
    rewrite <- (deref_Some st m mt Hm) in Hv.
    destruct (metrics st !! name (deref st m)) as [m'|] eqn:Hdup.
    + rewrite Publish_duplicate by done. simpl. intros [= <-]. eauto.
    + by rewrite Publish_fresh.
  - intros Hp%discard_panic. rewrite NewCounter_unfold in Hp.
    by apply register_panic in Hp.
  - intros Hp%discard_panic. rewrite NewGauge_unfold in Hp.
    by apply register_panic in Hp.
  - done.
  - done.
  - intros Hp%discard_panic.
    destruct (Metrics_spec order st HI Hadm) as (l & Hrun & _).
    by rewrite Hrun in Hp.
  - intros Hp%discard_panic.
    destruct (WritePrometheus_spec order w st HI Hadm) as (l & Hrun & _).
    by rewrite Hrun in Hp.
  - intros Hp%discard_panic.
    destruct (Encode_Ok now order st HI Hadm) as [out Hrun].
    by rewrite Hrun in Hp.
Qed.

Lemma only_registration_panics_witness :
  is_Some (metrics sampleState !! "foo_total").
Proof.
  destruct (only_registration_panics sampleState (CallNewGauge "foo_total")
              (PanicDuplicate "foo_total") sample_reachable)
    as [[Hp _]|[_ Hdup]].
  - split; vm_compute; [discriminate|reflexivity].
  - vm_compute. reflexivity.
  - discriminate Hp.
  - exact Hdup.
Defined.

Lemma Sub_lt_interval now last :
  Time.Sub now last < minMetricEncodeInterval
  ↔ now - last < 15 * Time.Second.
Proof.
  unfold Time.Sub, Time.minDuration, Time.maxDuration, Int64.min_int,
    Int64.max_int, minMetricEncodeInterval.
  change Time.Second with 1000000000.
  destruct (now - last <? - 2 ^ 63) eqn:H1;
    [apply Z.ltb_lt in H1; lia|apply Z.ltb_ge in H1].
  destruct (2 ^ 63 - 1 <? now - last) eqn:H2;
    [apply Z.ltb_lt in H2; lia|apply Z.ltb_ge in H2; lia].
Qed.

(** X15 — The rate limit, exactly. A call is limited when an earlier
    call has set [lastDelta] and less than 15 seconds have passed since,
    also when the clock reads earlier than [lastDelta]: it returns the
    empty string and changes nothing, [lastDelta] included, so that the
    window is counted from the last call that was not limited and pending
    changes stay pending. At 15 seconds or more, or when [lastDelta] is
    still the zero time, the call scans the metrics and sets [lastDelta]
    to the clock reading. *)
Theorem rate_limit_exact st now order :
  reachable st → rangeOrder st order →
  (lastDelta st ≠ Time.zero ∧ now - lastDelta st < 15 * Time.Second →
   EncodeLogTailMetricsDelta now order st = (Ok "", st))
  ∧ (lastDelta st = Time.zero ∨ 15 * Time.Second <= now - lastDelta st →
     EncodeLogTailMetricsDelta now order st
     = scanMetrics now order (set_lastDelta now st)
     ∧ lastDelta (EncodeLogTailMetricsDelta now order st).2 = now).
Proof.
  intros Hreach Ho. pose proof (reachable_Inv st Hreach) as HI. split.
  - intros [Hnz Hlt]. apply Encode_limited.
    + by apply Z.eqb_neq.
    + by apply Sub_lt_interval.
  - intros Hfree.
    assert (Hnl : notLimited st now).
    { destruct Hfree as [Hz|Hge]; [left; by apply Z.eqb_eq|right].
      pose proof (Sub_lt_interval now (lastDelta st)).
      unfold minMetricEncodeInterval in *. lia. }
    split; [by apply Encode_records_first|].
    destruct (Encode_entries now order st HI Ho Hnl)
      as (rs & st' & -> & _ & _ & Hld & _). done.
Qed.

Lemma rate_limit_exact_witness :
  EncodeLogTailMetricsDelta (sampleNow - 1) sampleOrder sampleEncoded
  = (Ok "", sampleEncoded)
  ∧ lastDelta
      (EncodeLogTailMetricsDelta (sampleNow + 15 * Time.Second) sampleOrder
         sampleEncoded).2
    = sampleNow + 15 * Time.Second.
Proof.
  assert (Ho : rangeOrder sampleEncoded sampleOrder).
  { vm_compute. reflexivity. }
  split.
  - apply (rate_limit_exact sampleEncoded (sampleNow - 1) sampleOrder
             sampleEncoded_reachable Ho).
    split; vm_compute; [discriminate|reflexivity].
  - apply (rate_limit_exact sampleEncoded (sampleNow + 15 * Time.Second)
             sampleOrder sampleEncoded_reachable Ho).
    right. vm_compute. discriminate.
Defined.
End panic_properties.

(** ** The first record of a metric *)

Section first_record.
Import InvFacts EncFacts RegistryFacts EncoderFacts ReachFacts EncodeFacts.
Implicit Types (m : loc) (mt : Metric) (st : State).
Implicit Types (order : list (string * loc)).

Lemma concat_elem {A} (ls : list (list A)) i l x :
  ls !! i = Some l → x ∈ l → x ∈ concat ls.
Proof.
  intros Hl Hx. apply list_elem_of_In, in_concat. exists l.
  split; apply list_elem_of_In; [by eapply list_elem_of_lookup_2|done].
Qed.

(** X16 — A registered metric that has no wireID yet is first logged by
    the first scan that finds its value different from 0. While the value
    is 0 a scan leaves the metric as it is and says nothing about it; once
    it is not, the scan gives it a wireID and the frame holds its name
    record and a value record with its value, not an increment. *)
Theorem first_record_names st now order k m :
  reachable st → rangeOrder st order → notLimited st now →
  metrics st !! k = Some m → wireID (deref st m) = 0 →
  ∃ out st' recs,
    EncodeLogTailMetricsDelta now order st = (Ok out, st')
    ∧ Wire.decode out = Some recs
    ∧ (v (deref st m) = 0 →
         deref st' m = deref st m ∧ Wire.NameRec k ∉ recs)
    ∧ (v (deref st m) ≠ 0 →
         0 < wireID (deref st' m)
         ∧ Wire.NameRec k ∈ recs
         ∧ Wire.ValueRec (wireID (deref st' m)) (v (deref st m)) ∈ recs
         ∧ ∀ d, Wire.IncRec (wireID (deref st' m)) d ∉ recs).
Proof.
  intros Hreach Ho Hnl Hk Hw. pose proof (reachable_Inv st Hreach) as HI.
  destruct (inv_registered st HI k m Hk) as (mt & Hm & Hname).
  destruct (reachable_logged st Hreach m mt Hm) as [H0 _].
  rewrite (deref_Some _ _ _ Hm) in *.
  destruct (H0 Hw) as [Hln Hlv].
  destruct (Encode_entries now order st HI Ho Hnl)
    as (rs & st' & Hrun & HI' & Hlen & _ & _ & _ & _ & _ & Hnum & Hwf & Hat & _).
  assert (Hent := λ i k m Hi,
    entry_words st st' now order rs i k m HI HI' Ho Hi Hnum
      (proj1 (Hat i k m Hi)) (proj2 (Hat i k m Hi))).
  pose proof (proj1 (rangeOrder_pos st order k m Ho) Hk) as [i Hi].
  destruct (Hent i k m Hi) as (r & Hr & _ & _ & _ & Hsame & Hchg).
  rewrite (deref_Some _ _ _ Hm) in *. rewrite Hlv, Hname in *.
  (* Where a record with this name or this wireID can come from. *)
  assert (Hfrom : ∀ x, x ∈ concat rs →
            ∃ j kj mj rj, order !! j = Some (kj, mj) ∧ rs !! j = Some rj
                          ∧ x ∈ rj).
  { intros x Hx. apply list_elem_of_In, in_concat in Hx as (rj & Hrj & Hx).
    apply list_elem_of_In in Hrj, Hx.
    apply list_elem_of_lookup in Hrj as [j Hj].
    destruct (lookup_lt_is_Some_2 order j) as [[kj mj] Hoj].
    { rewrite <- Hlen. by eapply lookup_lt_Some. }
    by exists j, kj, mj, rj. }
  assert (Hnd : NoDup order.*1) by (by eapply rangeOrder_NoDup_fst).
  assert (Hsame_pos : ∀ j mj, order !! j = Some (k, mj) → j = i).
  { intros j mj Hj. eapply (NoDup_lookup _ _ _ k Hnd).
    - by rewrite list_lookup_fmap, Hj.
    - by rewrite list_lookup_fmap, Hi. }
  exists (Wire.renderAll (concat rs)), st', (concat rs).
  split; [exact Hrun|]. split; [by apply decode_renderAll|].
  split.
  - intros Hv. destruct (Hsame Hv) as [-> Hd]. split; [exact Hd|].
    intros Hin. destruct (Hfrom _ Hin) as (j & kj & mj & rj & Hoj & Hrj & Hx).
    destruct (Hent j kj mj Hoj) as (r' & Hr' & _ & _ & Hnm & Hs' & Hc').
    assert (r' = rj) as -> by congruence.
    destruct (rangeOrder_lookup st order j kj mj HI Ho Hoj) as (mtj & Hmj & Hkj).
    rewrite (deref_Some _ _ _ Hmj) in *.
    destruct (decide (v mtj = lastLogVal mtj)) as [He|Hne].
    { destruct (Hs' He) as [-> _]. by apply elem_of_nil in Hx. }
    destruct (Hc' Hne) as (_ & _ & _ & Hdue & Hnot).
    assert (Hkk : kj = k).
    { destruct (decide (lastNamed mtj = Time.zero
                        ∨ 4 * Time.Hour < now - lastNamed mtj)) as [Hd'|Hd'].
      - destruct (Hdue Hd') as [-> _].
        apply elem_of_cons in Hx as [Hx|Hx]; [congruence|].
        apply list_elem_of_singleton in Hx. discriminate Hx.
      - destruct (Hnot Hd') as [-> _].
        apply list_elem_of_singleton in Hx. discriminate Hx. }
    rewrite Hkk in Hoj. pose proof (Hsame_pos j mj Hoj) as ->.
    assert (rj = []) by congruence. subst rj. by apply elem_of_nil in Hx.
  - intros Hv. destruct (Hchg Hv) as (_ & _ & Hpos & Hdue & _).
    destruct (Hdue (or_introl Hln)) as [-> _].
    split; [exact Hpos|].
    split; [eapply concat_elem; [exact Hr|left]|].
    split; [eapply concat_elem; [exact Hr|right; left]|].
    intros d Hin.
    destruct (Hfrom _ Hin) as (j & kj & mj & rj & Hoj & Hrj & Hx).
    destruct (Hent j kj mj Hoj) as (r' & Hr' & _ & _ & Hnm & Hs' & Hc').
    assert (r' = rj) as -> by congruence.
    destruct (rangeOrder_lookup st order j kj mj HI Ho Hoj) as (mtj & Hmj & Hkj).
    rewrite (deref_Some _ _ _ Hmj) in *.
    destruct (decide (v mtj = lastLogVal mtj)) as [He|Hne].
    { destruct (Hs' He) as [-> _]. by apply elem_of_nil in Hx. }
    destruct (Hc' Hne) as (_ & _ & Hposj & Hduej & Hnotj).
    destruct (decide (lastNamed mtj = Time.zero
                      ∨ 4 * Time.Hour < now - lastNamed mtj)) as [Hd'|Hd'].
    { destruct (Hduej Hd') as [-> _].
      apply elem_of_cons in Hx as [Hx|Hx]; [discriminate Hx|].
      apply list_elem_of_singleton in Hx. discriminate Hx. }
    destruct (Hnotj Hd') as [-> _].
    apply list_elem_of_singleton in Hx. injection Hx as Hwid _.
    (* the same wireID in the final state: the same object *)
    assert (Hlive : ∀ m0, is_Some (heap st !! m0) → is_Some (heap st' !! m0)).
    { intros m0 Hs0. apply lookup_lt_is_Some. apply lookup_lt_is_Some in Hs0.
      destruct (Encode_entries now order st HI Ho Hnl)
        as (rs2 & st2 & Hrun2 & _ & _ & _ & _ & _ & _ & Hhl & _).
      assert (st2 = st') as -> by congruence. by rewrite Hhl. }
    destruct (Hlive m (ltac:(eauto))) as [mt' Hm'].
    destruct (Hlive mj (ltac:(eauto))) as [mtj' Hmj'].
    rewrite (deref_Some _ _ _ Hm'), (deref_Some _ _ _ Hmj') in *.
    assert (m = mj).
    { apply (inv_wire_inj st' HI' m mj mt' mtj' Hm' Hmj'); [lia|done]. }
    subst mj.
    assert (mtj = mt) by congruence. subst mtj.
    apply Hd'. by left.
Qed.

Lemma first_record_names_witness :
  ∃ out st' recs,
    EncodeLogTailMetricsDelta sampleNow sampleOrder sampleState = (Ok out, st')
    ∧ Wire.decode out = Some recs
    ∧ Wire.NameRec "foo_total" ∈ recs.
Proof.
  destruct (first_record_names sampleState sampleNow sampleOrder "foo_total"
              0%nat sample_reachable sample_rangeOrder sample_notLimited
              eq_refl eq_refl)
    as (out & st' & recs & Hrun & Hdec & _ & Hchg).
  exists out, st', recs. split; [exact Hrun|]. split; [exact Hdec|].
  apply Hchg. vm_compute. discriminate.
Defined.
End first_record.
